(** * Radiative exchange in urbanMicroclimateFoam

    A shallow embedding of the radiosity solvers (viewFactorSky,
    directAndDiffuse), of the pre-processing utilities solarRayTracingGen
    and calcLAI, and of the leaf and grass temperature iterations
    (simplifiedVegetation, simpleGrass), followed by the properties of
    the design document that these functions decide.

    OpenFOAM's [scalar] (an IEEE double) is read as a real number, its
    [label] as an integer; lists ([List<T>], [Field<T>]) are Rocq lists
    with stdpp's lookup and insert.  The first part of the file holds the
    embedding, the second part the lemmas and theorems. *)

From Stdlib Require Import Reals Lra Lia ZArith List Zfloor Sorted.
From stdpp Require Import base list strings gmap.
Import ListNotations.
Open Scope R_scope.

(* ===================================================================== *)
(** * Part I: the embedding                                               *)
(* ===================================================================== *)

(** ** OpenFOAM primitives used by the sources *)

Module Foam.

Abbreviation scalar := R.
Abbreviation label := Z.
Abbreviation scalarField := (list R).
Abbreviation scalarList := (list R).
Abbreviation labelList := (list Z).

#[global] Instance scalar_inhabited : Inhabited R := populate 0.

(** [SMALL] and [VGREAT] for double-precision scalars. *)
Definition SMALL : scalar := 1e-15.
Definition VGREAT : scalar := 1e300.

(** Comparisons of scalars, as booleans. *)
Definition Rltb (a b : scalar) : bool := if Rlt_dec a b then true else false.
Definition Rleb (a b : scalar) : bool := if Rle_dec a b then true else false.
Definition Rgtb (a b : scalar) : bool := Rltb b a.
Definition Rgeb (a b : scalar) : bool := Rleb b a.

(** [pos(s)]: 1 when [s >= 0], else 0. *)
Definition pos (s : scalar) : scalar := if Rgeb s 0 then 1 else 0.

(** [vector] / [point] with the inner product [&] and [mag]. *)
Record vector : Type := mkVector { vx : scalar; vy : scalar; vz : scalar }.
Abbreviation point := vector.

Definition dot (a b : vector) : scalar :=
  vx a * vx b + vy a * vy b + vz a * vz b.
Definition magV (a : vector) : scalar := sqrt (dot a a).
Definition scaleV (s : scalar) (a : vector) : vector :=
  mkVector (s * vx a) (s * vy a) (s * vz a).

#[global] Instance vector_inhabited : Inhabited vector :=
  populate (mkVector 0 0 0).

(** [scalarSquareMatrix]: rows of scalars; [M(i, j)]. *)
Abbreviation scalarSquareMatrix := (list (list R)).
Definition entry (M : scalarSquareMatrix) (i j : nat) : scalar :=
  (M !!! i) !!! j.

(** The double loop [for i < n, for j < n: C(i, j) = f i j] over a matrix
    sized [n]: every entry is written once. *)
Definition fillMatrix (n : nat) (f : nat -> nat -> scalar)
  : scalarSquareMatrix :=
  map (fun i => map (f i) (seq 0 n)) (seq 0 n).

(** [sum] of a list in loop order: [s = 0; forAll: s += l[j]]. *)
Definition sumList (l : list scalar) : scalar := fold_left Rplus l 0.

(** [dictionary::lookupOrDefault]. *)
Definition lookupOrDefault {A : Type} (entry : option A) (deflt : A) : A :=
  match entry with Some v => v | None => deflt end.

(** Outcome of a program fragment that may end in [FatalError]. *)
Inductive result (A : Type) : Type :=
| Ok (a : A)
| Fatal (msg : string).
Arguments Ok {A} a.
Arguments Fatal {A} msg.

(** Sum and difference of two vectors, and the component-wise [min] and
    [max] of two points. *)
Definition addV (a b : vector) : vector :=
  mkVector (vx a + vx b) (vy a + vy b) (vz a + vz b).
Definition subV (a b : vector) : vector :=
  mkVector (vx a - vx b) (vy a - vy b) (vz a - vz b).
Definition minV (a b : vector) : vector :=
  mkVector (Rmin (vx a) (vx b)) (Rmin (vy a) (vy b)) (Rmin (vz a) (vz b)).
Definition maxV (a b : vector) : vector :=
  mkVector (Rmax (vx a) (vx b)) (Rmax (vy a) (vy b)) (Rmax (vz a) (vz b)).

(** [min] and [max] of a list of points: folded from the first entry,
    [point::max] and [point::min] for an empty list. *)
Definition gMinV (l : list point) : point :=
  match l with
  | [] => mkVector VGREAT VGREAT VGREAT
  | p :: rest => fold_left minV rest p
  end.
Definition gMaxV (l : list point) : point :=
  match l with
  | [] => mkVector (- VGREAT) (- VGREAT) (- VGREAT)
  | p :: rest => fold_left maxV rest p
  end.

(** [pow4(s)]. *)
Definition pow4 (s : scalar) : scalar := (s * s) * (s * s).

(** [M[i][j] = v] on a list of rows. *)
Definition setEntry (M : list (list scalar)) (i j : nat) (v : scalar)
  : list (list scalar) :=
  <[ i := <[ j := v ]> (M !!! i) ]> M.

(** [globalIndex::toGlobal(proci, i)] for the numbering built from the
    numbers of local elements of the processes: the ranges of the
    processes follow one another in process order. *)
Definition toGlobal (localSizes : list nat) (proci i : nat) : nat :=
  (sum_list (take proci localSizes) + i)%nat.

(** [List::resize(n)] where it shortens a list: a negative size ends in
    [FatalError]. *)
Definition resize {A : Type} (n : Z) (l : list A) : result (list A) :=
  if Z.ltb n 0 then Fatal "bad size" else Ok (take (Z.to_nat n) l).

End Foam.
Import Foam.

(** ** The cached LU factorisation

    [LUDecompose], [LUBacksubstitute] and [LUsolve] are OpenFOAM's dense
    matrix routines; the solvers only call them, so they are taken as
    given. *)

Record LUroutines : Type := mkLU {
  LUDecompose : scalarSquareMatrix -> labelList
                -> scalarSquareMatrix * labelList;
  LUBacksubstitute : scalarSquareMatrix -> labelList -> scalarField
                     -> scalarField;
  LUsolve : scalarSquareMatrix -> scalarField -> scalarField
}.

(** What [os << totalNCoarseFaces_ << CLU_() << pivotIndices_] leaves in
    the file and [is >> ...] reads back. *)
Record CLUfile : Type := mkCLUfile {
  storedN : label;
  storedCLU : scalarSquareMatrix;
  storedPivots : labelList
}.

(** The members of the solver object that [calculate] updates. *)
Record solverState : Type := mkState {
  CLU_ : scalarSquareMatrix;
  pivotIndices_ : labelList;
  iterCounter_ : label
}.

(** The world outside the solver: the files of the case directory and
    the lines sent to [Info]. *)
Record world : Type := mkWorld {
  files : gmap string CLUfile;
  info : list string
}.

Module LUCache.

Definition msgRead : string :=
  "Read decomposed C matrix from existing file!".
Definition msgWarning : string :=
  "Warning: File for decomposed C matrix does not match totalNCoarseFaces! Will decompose C matrix again...".
Definition msgDecomposing : string := "Decomposing C matrix...".
Definition msgSolving : string := "Solving view factor equations...".
Definition msgBacksubstitute : string := "LU Back substitute C matrix..".

Definition say (w : world) (line : string) : world :=
  mkWorld (files w) (info w ++ [line]).

(** The block that follows the assembly of [CLU_] on the first iteration
    (viewFactorSky.C and directAndDiffuse.C have the same text, with file
    names CLU_qr and CLU_qs): read the file when it is there, compare the
    stored count, decompose when [testCLU] is still -1 and write the file
    in parallel runs. *)
Definition readOrDecompose (lu : LUroutines) (fileCLU : string)
  (nProcs : Z) (totalNCoarseFaces : label)
  (CLU : scalarSquareMatrix) (pivotIndices : labelList) (w : world)
  : scalarSquareMatrix * labelList * world :=
  let '(testCLU, CLU1, piv1, w1) :=
    match files w !! fileCLU with
    | Some f =>
        let testCLU := storedN f in
        if Z.eqb testCLU totalNCoarseFaces
        then (testCLU, storedCLU f, storedPivots f, say w msgRead)
        else ((-1)%Z, CLU, pivotIndices, say w msgWarning)
    | None => ((-1)%Z, CLU, pivotIndices, w)
    end in
  if Z.eqb testCLU (-1)
  then
    let w2 := say w1 msgDecomposing in
    let '(CLU2, piv2) := LUDecompose lu CLU1 piv1 in
    if Z.ltb 1 nProcs
    then (CLU2, piv2,
          mkWorld (<[ fileCLU := mkCLUfile totalNCoarseFaces CLU2 piv2 ]>
                     (files w2))
                  (info w2))
    else (CLU2, piv2, w2)
  else (CLU1, piv1, w1).

End LUCache.

(** ** Boundary patches

    What [initialise] reads of a boundary patch of the mesh. *)
Record boundaryPatch : Type := mkPatch {
  patchIndex : label;   (* [patch().index()] *)
  isFixedValue : bool;  (* the radiation field is fixedValue on it *)
  isWall : bool;        (* [isA<wallFvPatch>] *)
  coarseSize : label;   (* [coarsePatches[patchi].size()] *)
  fineSize : label      (* [patch().size()] *)
}.

(** ** viewFactorSky: long-wave exchange *)

Module ViewFactorSky.
Import LUCache.


(** [initialise], the smoothing block: for every row the sum is taken
    over all columns and every entry of the row is scaled by
    [1 - delta/(sumF + 0.001)]. *)
Definition smoothRow (row : list scalar) : list scalar :=
  let sumF := sumList row in
  let delta := sumF - 1 in
  map (fun Fij => Fij * (1 - delta / (sumF + 0.001))) row.

Definition smooth (smoothing : bool) (Fmatrix : scalarSquareMatrix)
  : scalarSquareMatrix :=
  if smoothing then map smoothRow Fmatrix else Fmatrix.

(** [calculate]: the entry written to [C(i, j)] (variable emissivity) and
    to [CLU_(i, j)] (constant emissivity). *)
Definition Cij (E : scalarField) (Fmatrix : scalarSquareMatrix)
  (i j : nat) : scalar :=
  let invEj := 1 / (E !!! j) in
  if Nat.eqb i j
  then invEj - (invEj - 1) * entry Fmatrix i j
  else (1 - invEj) * entry Fmatrix i j.

Definition coeffMatrix (totalNCoarseFaces : nat) (E : scalarField)
  (Fmatrix : scalarSquareMatrix) : scalarSquareMatrix :=
  fillMatrix totalNCoarseFaces (Cij E Fmatrix).

(** The right-hand side [q[i]], accumulated over [j]. *)
Definition rhs (totalNCoarseFaces : nat) (sigma : scalar)
  (T4 qrExt : scalarField) (Fmatrix : scalarSquareMatrix) : scalarField :=
  map (fun i =>
         fold_left (fun qi j =>
                      let sigmaT4 := sigma * (T4 !!! j) in
                      if Nat.eqb i j
                      then qi + ((entry Fmatrix i j - 1) * sigmaT4
                                 - qrExt !!! j)
                      else qi + entry Fmatrix i j * sigmaT4)
                   (seq 0 totalNCoarseFaces) 0)
      (seq 0 totalNCoarseFaces).


Definition fileCLU (casePath : string) : string :=
  casePath +:+ "/processor0/CLU_qr".

(** [calculate], from "Net radiation" to the end of the master block:
    returns [q] and the updated members and world. *)
Definition calculate (lu : LUroutines) (master : bool) (nProcs : Z)
  (constEmissivity : bool) (totalNCoarseFaces : label) (casePath : string)
  (sigma : scalar) (T4 E qrExt : scalarField)
  (Fmatrix : scalarSquareMatrix) (st : solverState) (w : world)
  : scalarField * solverState * world :=
  let n := Z.to_nat totalNCoarseFaces in
  let q := replicate n 0 in
  if master then
    if negb constEmissivity then
      let C := coeffMatrix n E Fmatrix in
      let q1 := rhs n sigma T4 qrExt Fmatrix in
      let w1 := say w msgSolving in
      (LUsolve lu C q1, st, w1)
    else
      let '(CLU1, piv1, w1) :=
        if Z.eqb (iterCounter_ st) 0
        then readOrDecompose lu (fileCLU casePath) nProcs totalNCoarseFaces
               (coeffMatrix n E Fmatrix) (pivotIndices_ st) w
        else (CLU_ st, pivotIndices_ st, w) in
      let q1 := rhs n sigma T4 qrExt Fmatrix in
      let w2 := say w1 msgBacksubstitute in
      (LUBacksubstitute lu CLU1 piv1 q1,
       mkState CLU1 piv1 (iterCounter_ st + 1)%Z, w2)
  else (q, st, w).

(** [initialise], the selection of the patches: the members
    [selectedPatches_] (sized to the number of patches and filled with
    -1 by the constructor) and [nLocalCoarseFaces_] after the loop over
    the patches and [selectedPatches_.resize(count--)]. *)
Record selection : Type := mkSelection {
  selectedPatches_ : labelList;
  nLocalCoarseFaces_ : label
}.

Definition selectStep (acc : labelList * label * nat) (p : boundaryPatch)
  : labelList * label * nat :=
  let '(selected, nLocal, count) := acc in
  if isFixedValue p
  then (<[ count := patchIndex p ]> selected, (nLocal + coarseSize p)%Z,
        S count)
  else acc.

Definition selectPatches (patches : list boundaryPatch)
  : result selection :=
  let '(selected, nLocal, count) :=
    fold_left selectStep patches
      (replicate (length patches) (-1)%Z, 0%Z, 0%nat) in
  match resize (Z.of_nat count) selected with
  | Ok selected1 => Ok (mkSelection selected1 nLocal)
  | Fatal msg => Fatal msg
  end.

(** [insertMatrixElements] (directAndDiffuse.C has the same function):
    the view factors of the faces of process [proci] are written to the
    rows of their global numbers, at the columns that [globalFaceFaces]
    names. *)
Definition insertMatrixElements (globalNumbering : list nat) (proci : nat)
  (globalFaceFaces : list (list nat)) (viewFactors : list scalarList)
  (Fmatrix : scalarSquareMatrix) : scalarSquareMatrix :=
  fold_left
    (fun Fm facei =>
       let vf := viewFactors !!! facei in
       let globalFaces := globalFaceFaces !!! facei in
       let globalI := toGlobal globalNumbering proci facei in
       fold_left
         (fun Fm1 i => setEntry Fm1 globalI (globalFaces !!! i) (vf !!! i))
         (seq 0 (length globalFaces)) Fm)
    (seq 0 (length viewFactors)) Fmatrix.

(** [calculate], the sky temperature that stands for the surface
    temperature on a patch that is not a wall: cloud emissivity [ec] and
    [Tsky] from the cloud cover [cc] and the ambient temperature. *)
Definition cloudEmissivity (cc Tambient_ : scalar) : scalar :=
  (1 - 0.84 * cc) * (0.527 + 0.161 * exp (8.45 * (1 - 273 / Tambient_)))
  + 0.84 * cc.

Definition Tsky (cc Tambient_ : scalar) : scalar :=
  let ec := cloudEmissivity cc Tambient_ in
  Rpower (9.365574E-6 * (1 - cc) * Tambient_ ^ 6 + Tambient_ ^ 4 * cc * ec)
         0.25.

(** [calculate], the area weighting over the fine faces of one coarse
    face: [T4ave[coarseI]], [Eave[coarseI]] and [Hoiave[coarseI]]. *)
Definition coarseAverages (wallPatch grassPatch : bool)
  (cc Tambient_ : scalar) (Tp Tg_ eb Hoi sf : scalarField)
  (fineFaces : list nat) : scalar * scalar * scalar :=
  let area := sumList (map (fun facei => sf !!! facei) fineFaces) in
  fold_left
    (fun '(T4ave, Eave, Hoiave) facei =>
       let T4ave1 :=
         if negb wallPatch
         then T4ave + (pow4 (Tsky cc Tambient_) * sf !!! facei) / area
         else if grassPatch
              then T4ave + (pow4 (Tg_ !!! facei) * sf !!! facei) / area
              else T4ave + (pow4 (Tp !!! facei) * sf !!! facei) / area in
       (T4ave1,
        Eave + (eb !!! facei * sf !!! facei) / area,
        Hoiave + (Hoi !!! facei * sf !!! facei) / area))
    fineFaces (0, 0, 0).

(** [calculate], "Scatter q and fill qr" on one selected patch: the fine
    faces of the coarse face met at position [coarseI] receive the flux
    of the global coarse number [globCoarseId], which is then advanced. *)
Definition fillPatch (globalNumbering : list nat) (myProcNo : nat)
  (q : scalarField) (coarseToFine : list (list nat))
  (coarsePatchFace : list nat) (acc : scalarField * nat)
  : scalarField * nat :=
  fold_left
    (fun '(qrp, globCoarseId) coarseI =>
       let globalCoarse := toGlobal globalNumbering myProcNo globCoarseId in
       let coarseFaceID := coarsePatchFace !!! coarseI in
       let fineFaces := coarseToFine !!! coarseFaceID in
       (fold_left (fun qrp1 facei => <[ facei := q !!! globalCoarse ]> qrp1)
                  fineFaces qrp,
        S globCoarseId))
    (seq 0 (length coarseToFine)) acc.

End ViewFactorSky.

(** ** directAndDiffuse: short-wave exchange *)

Module DirectAndDiffuse.
Import LUCache.


(** [initialise], the smoothing block: scaling by [1 - delta/sumF]. *)
Definition smoothRow (row : list scalar) : list scalar :=
  let sumF := sumList row in
  let delta := sumF - 1 in
  map (fun Fij => Fij * (1 - delta / sumF)) row.

Definition smooth (smoothing : bool) (Fmatrix : scalarSquareMatrix)
  : scalarSquareMatrix :=
  if smoothing then map smoothRow Fmatrix else Fmatrix.

(** [calculate]: the entry written to [C(i, j)] (variable albedo) and to
    [CLU_(i, j)] (constant albedo). *)
Definition Cij (A : scalarField) (Fmatrix : scalarSquareMatrix)
  (i j : nat) : scalar :=
  if Nat.eqb i j
  then (1 / (1 - A !!! j)) - (A !!! j / (1 - A !!! j)) * entry Fmatrix i j
  else - (A !!! j / (1 - A !!! j)) * entry Fmatrix i j.

Definition coeffMatrix (totalNCoarseFaces : nat) (A : scalarField)
  (Fmatrix : scalarSquareMatrix) : scalarSquareMatrix :=
  fillMatrix totalNCoarseFaces (Cij A Fmatrix).


Definition fileCLU (casePath : string) : string :=
  casePath +:+ "/processor0/CLU_qs".

(** "look for the correct range": the loop over [sunPosVector_x] with
    its [break]; [i] is the running index. *)
Fixpoint rangeLoop (t : scalar) (xs : list scalar) (i lo hi : nat)
  : nat * nat :=
  match xs with
  | [] => (lo, hi)
  | xi :: rest =>
      if Rgeb t xi then rangeLoop t rest (S i) i i else (lo, i)
  end.

Definition findRange (t : scalar) (sunPosVector_x : list scalar)
  : nat * nat :=
  rangeLoop t sunPosVector_x 0%nat 0%nat 0%nat.

Definition hi_fraction (t : scalar) (sunPosVector_x : list scalar)
  : scalar :=
  let '(lo, hi) := findRange t sunPosVector_x in
  if Nat.eqb lo hi then 0
  else (t - sunPosVector_x !!! lo)
       / (sunPosVector_x !!! hi - sunPosVector_x !!! lo).

(** [coeff[lo][j]*(1-hi_fraction) + coeff[hi][j]*(hi_fraction)]. *)
Definition interpolated (coeff : list scalarList) (lo hi : nat)
  (frac : scalar) (j : nat) : scalar :=
  (coeff !!! lo) !!! j * (1 - frac) + (coeff !!! hi) !!! j * frac.

(** [Isol] of the constant-albedo branch. *)
Definition Isol (skyViewCoeffGlobal sunViewCoeffGlobal : list scalarList)
  (lo hi : nat) (frac : scalar) (j : nat) : scalar :=
  (skyViewCoeffGlobal !!! lo) !!! j * (1 - frac)
  + (skyViewCoeffGlobal !!! hi) !!! j * frac
  + (sunViewCoeffGlobal !!! lo) !!! j * (1 - frac)
  + (sunViewCoeffGlobal !!! hi) !!! j * frac.

(** [Isol] of the variable-albedo branch: the values stored at [lo]. *)
Definition IsolLo (skyViewCoeffGlobal sunViewCoeffGlobal : list scalarList)
  (lo : nat) (j : nat) : scalar :=
  (skyViewCoeffGlobal !!! lo) !!! j + (sunViewCoeffGlobal !!! lo) !!! j.

(** The right-hand side [q[i]] from a given [Isol]. *)
Definition rhs (totalNCoarseFaces : nat) (isol : nat -> scalar)
  (qsExt : scalarField) : scalarField :=
  map (fun i =>
         fold_left (fun qi j =>
                      if Nat.eqb i j
                      then qi + ((- 1) * (- isol j) - qsExt !!! j)
                      else qi + (0 - qsExt !!! j))
                   (seq 0 totalNCoarseFaces) 0)
      (seq 0 totalNCoarseFaces).

(** [calculate], from the range search to the end of the master block. *)
Definition calculate (lu : LUroutines) (master : bool) (nProcs : Z)
  (constAlbedo : bool) (totalNCoarseFaces : label) (casePath : string)
  (time : scalar) (sunPosVector_x : list scalar)
  (skyViewCoeffGlobal sunViewCoeffGlobal : list scalarList)
  (A qsExt : scalarField) (Fmatrix : scalarSquareMatrix)
  (st : solverState) (w : world)
  : scalarField * solverState * world :=
  let n := Z.to_nat totalNCoarseFaces in
  let q := replicate n 0 in
  let '(lo, hi) := findRange time sunPosVector_x in
  let frac := hi_fraction time sunPosVector_x in
  if master then
    if negb constAlbedo then
      let C := coeffMatrix n A Fmatrix in
      let q1 := rhs n (IsolLo skyViewCoeffGlobal sunViewCoeffGlobal lo)
                  qsExt in
      let w1 := say w msgSolving in
      (LUsolve lu C q1, st, w1)
    else
      let '(CLU1, piv1, w1) :=
        if Z.eqb (iterCounter_ st) 0
        then readOrDecompose lu (fileCLU casePath) nProcs totalNCoarseFaces
               (coeffMatrix n A Fmatrix) (pivotIndices_ st) w
        else (CLU_ st, pivotIndices_ st, w) in
      let q1 := rhs n (Isol skyViewCoeffGlobal sunViewCoeffGlobal
                         lo hi frac) qsExt in
      let w2 := say w1 msgBacksubstitute in
      (LUBacksubstitute lu CLU1 piv1 q1,
       mkState CLU1 piv1 (iterCounter_ st + 1)%Z, w2)
  else (q, st, w).

(** The flux written to a fine face of a wall patch: the coarse value
    minus the coarse sun term plus the fine-face sun load, both
    interpolated in time. *)
Definition qsWallFace (q : scalarField) (A : scalarField)
  (sunViewCoeffGlobal solarLoadFineFacesGlobal : list scalarList)
  (lo hi : nat) (frac : scalar) (globalCoarse globalFine : nat) : scalar :=
  q !!! globalCoarse
  - interpolated sunViewCoeffGlobal lo hi frac globalCoarse
    * (1 - A !!! globalCoarse)
  + interpolated solarLoadFineFacesGlobal lo hi frac globalFine
    * (1 - A !!! globalCoarse).

(** [initialise], the selection of the patches: the members after the
    loop over the patches, [selectedPatches_.resize(count--)] and
    [wallPatchOrNot_.resize(count--)]. *)
Record selection : Type := mkSelection {
  selectedPatches_ : labelList;
  wallPatchOrNot_ : labelList;
  nLocalCoarseFaces_ : label;
  nLocalWallCoarseFaces_ : label;
  nLocalFineFaces_ : label
}.

Definition selectStep
  (acc : labelList * labelList * label * label * label * nat)
  (p : boundaryPatch)
  : labelList * labelList * label * label * label * nat :=
  let '(selected, wallPatchOrNot, nLocal, nWall, nFine, count) := acc in
  if isFixedValue p
  then
    let '(wallPatchOrNot1, nWall1, nFine1) :=
      if isWall p
      then (<[ count := 1%Z ]> wallPatchOrNot, (nWall + coarseSize p)%Z,
            (nFine + fineSize p)%Z)
      else (wallPatchOrNot, nWall, nFine) in
    (<[ count := patchIndex p ]> selected, wallPatchOrNot1,
     (nLocal + coarseSize p)%Z, nWall1, nFine1, S count)
  else acc.

Definition selectPatches (patches : list boundaryPatch)
  : result selection :=
  let '(selected, wallPatchOrNot, nLocal, nWall, nFine, count) :=
    fold_left selectStep patches
      (replicate (length patches) (-1)%Z, replicate (length patches) 0%Z,
       0%Z, 0%Z, 0%Z, 0%nat) in
  match resize (Z.of_nat count) selected with
  | Fatal msg => Fatal msg
  | Ok selected1 =>
      match resize (Z.of_nat count - 1) wallPatchOrNot with
      | Fatal msg => Fatal msg
      | Ok wallPatchOrNot1 =>
          Ok (mkSelection selected1 wallPatchOrNot1 nLocal nWall nFine)
      end
  end.

(** [insertScalarListListElements]: the coefficients of the faces of
    process [procI], for every sun position, are written to the global
    table, at [sunskyMap[procI][faceI]] for a table of coarse faces and
    at the global number of the face otherwise. *)
Definition insertScalarListListElements (globalNumbering : list nat)
  (procI : nat) (sunskyMap globalFaceFaces : list (list nat))
  (localCoeffs : list scalarList) (globalCoeffs : list scalarList)
  (coarseOrFine : string) : list scalarList :=
  fold_left
    (fun G vectorId =>
       let vf := localCoeffs !!! vectorId in
       fold_left
         (fun G1 faceI =>
            if String.eqb coarseOrFine "coarse"
            then setEntry G1 vectorId ((sunskyMap !!! procI) !!! faceI)
                   (vf !!! faceI)
            else
              let globalI := toGlobal globalNumbering procI faceI in
              setEntry G1 vectorId globalI (vf !!! faceI))
         (seq 0 (length vf)) G)
    (seq 0 (length localCoeffs)) globalCoeffs.

(** [calculate], the area weighting over the fine faces of one coarse
    face: [Aave[coarseI]] and [Hoiave[coarseI]]. *)
Definition coarseAverages (ab Hoi sf : scalarField) (fineFaces : list nat)
  : scalar * scalar :=
  let area := sumList (map (fun faceI => sf !!! faceI) fineFaces) in
  fold_left
    (fun '(Aave, Hoiave) faceI =>
       (Aave + (ab !!! faceI * sf !!! faceI) / area,
        Hoiave + (Hoi !!! faceI * sf !!! faceI) / area))
    fineFaces (0, 0).

End DirectAndDiffuse.

(** ** solarRayTracingGen: the sun and sky coupling coefficients *)

Module SolarRayTracingGen.

(** A fine face of a coarse face, for one sun position: its index
    [fineFaceNo+faceI], its area vector [localFINESf[fineFaceNo+faceI]],
    its area [mesh.magSf()] and its entry of
    [nVisibleFaceFacesListFINE[vectorId]] (the number of unobstructed
    rays that start on it, counted by the ray-shooting pass). *)
Record fineFace : Type := mkFineFace {
  fineId : nat;
  fineSf : vector;
  fineMagSf : scalar;
  nVisibleFINE : label
}.

(** A coarse face met by the walk over the view-factor patches: its area
    vector [localCoarseSf[faceNo]], its area [coarseMesh.magSf()], its
    index [faceNoAll] among all coarse faces and its fine faces. *)
Record coarseFace : Type := mkCoarseFace {
  coarseSf : vector;
  coarseMagSf : scalar;
  faceNoAll : nat;
  fineFaces : list fineFace
}.

(** [cosPhi = (Sf & sunPos)/(mag(Sf)*mag(sunPos) + SMALL)]. *)
Definition cosPhi (Sf sunPos : vector) : scalar :=
  dot Sf sunPos / (magV Sf * magV sunPos + SMALL).

(** The area-weighted visible fraction of a coarse face. *)
Definition nVisibleFaceFacesListFINE_avg (cf : coarseFace) : scalar :=
  fold_left (fun avg f =>
               avg + IZR (nVisibleFINE f) * fineMagSf f / coarseMagSf cf)
            (fineFaces cf) 0.

(** The condition under which the Beer-Lambert term is added. *)
Definition attenuated (vegetation : bool) (kcLAI : scalar)
  (sunPos : vector) (cf : coarseFace) : bool :=
  vegetation && Rgtb (kcLAI - 0) SMALL
  && Rltb (cosPhi (coarseSf cf) sunPos) 0.

(** [sunViewCoeff[vectorId][faceNoAll]] of one coarse face. *)
Definition sunViewCoeffFace (vegetation : bool) (kcLAI : scalar)
  (sunPos : vector) (IDN : scalar) (cf : coarseFace) : scalar :=
  let avg := nVisibleFaceFacesListFINE_avg cf in
  let c := cosPhi (coarseSf cf) sunPos in
  let coeff := avg * Rabs c * IDN in
  if attenuated vegetation kcLAI sunPos cf
  then coeff + (1 - avg) * Rabs c * IDN * exp (- kcLAI)
  else coeff.

(** [solarLoadFineFaces[vectorId][fineFaceNo+faceI]] of one fine face of
    a coarse face: the value of the first loop over the fine faces, and
    the Beer-Lambert value for a fine face without visible ray when the
    coarse face is attenuated. *)
Definition solarLoadFineFace (vegetation : bool) (kcLAI : scalar)
  (sunPos : vector) (IDN : scalar) (cf : coarseFace) (f : fineFace)
  : scalar :=
  let c := cosPhi (fineSf f) sunPos in
  if attenuated vegetation kcLAI sunPos cf && Z.eqb (nVisibleFINE f) 0
  then Rabs c * IDN * exp (- kcLAI)
  else IZR (nVisibleFINE f) * Rabs c * IDN.

Definition radToDeg (rad : scalar) : scalar := rad * 180 / PI.

(** [skyViewCoeff[vectorId][faceNoAll]] of one coarse face. *)
Definition skyViewCoeffFace (skyPos : vector) (Idif : scalar)
  (cf : coarseFace) : scalar :=
  let c := dot (coarseSf cf) skyPos
           / (magV (coarseSf cf) * magV skyPos + SMALL) in
  let radAngleBetween := acos (Rmin (Rmax c (-1)) 1) in
  let degAngleBetween := radToDeg radAngleBetween in
  let degAngleBetween' :=
    if Rgtb degAngleBetween 90 && Rleb degAngleBetween 180
    then 90 - (degAngleBetween - 90) else degAngleBetween in
  (1 - 0.5 * (degAngleBetween' / 90)) * Idif.

Definition msgNoLAI : string :=
  "File kcLAIboundary not found! Did you not run calcLAI before?".

(** [typeHeaderOk] of an object read with READ_IF_PRESENT. *)
Definition typeHeaderOk {A : Type} (io : option A) : bool :=
  match io with Some _ => true | None => false end.

(** What the last part of [main] writes for one sun position. *)
Record coeffs : Type := mkCoeffs {
  sunViewCoeff : scalarList;
  skyViewCoeff : scalarList;
  solarLoadFineFaces : scalarList
}.

(** The writes for one coarse face of the walk: the sun and sky tables
    at [faceNoAll], the fine-face table at [fineFaceNo+faceI] for each of
    its fine faces. *)
Definition tableStep (vegetation : bool) (kcLAIboundary : scalarList)
  (sunPos skyPos : vector) (IDN Idif : scalar) (t : coeffs)
  (cf : coarseFace) : coeffs :=
  let kcLAI := kcLAIboundary !!! faceNoAll cf in
  mkCoeffs
    (<[ faceNoAll cf := sunViewCoeffFace vegetation kcLAI sunPos IDN cf ]>
       (sunViewCoeff t))
    (<[ faceNoAll cf := skyViewCoeffFace skyPos Idif cf ]>
       (skyViewCoeff t))
    (fold_left
       (fun (fine : scalarList) (f : fineFace) =>
          <[ fineId f :=
               solarLoadFineFace vegetation kcLAI sunPos IDN cf f ]> fine)
       (fineFaces cf) (solarLoadFineFaces t)).

(** The three tables of one sun position: sized and zeroed, then written
    for every coarse face of the walk. *)
Definition fillTables (nCoarseFacesAll nFineFaces : nat)
  (vegetation : bool) (kcLAIboundary : scalarList)
  (sunPos skyPos : vector) (IDN Idif : scalar) (fs : list coarseFace)
  : coeffs :=
  fold_left (tableStep vegetation kcLAIboundary sunPos skyPos IDN Idif) fs
    (mkCoeffs (replicate nCoarseFacesAll 0) (replicate nCoarseFacesAll 0)
       (replicate nFineFaces 0)).

(** The last part of [main]: [kcLAIboundary] is read if present ([None]
    when its header is not found), the run stops when a vegetation region
    exists without it, and otherwise the three tables are filled for
    every sun position.  [faces !!! vectorId] lists the coarse faces that
    the walk over the view-factor patches reaches, in its order, with the
    visibility counts of that position. *)
Definition fillCoefficients (nCoarseFacesAll nFineFaces : nat)
  (vegNames : list string)
  (kcLAIboundaryList : option (list scalarList))
  (sunPosVector_y : list vector) (IDN_y Idif_y : list scalar)
  (skyPos : vector) (faces : list (list coarseFace))
  : result (list coeffs) :=
  if Nat.ltb 0 (length vegNames) && negb (typeHeaderOk kcLAIboundaryList)
  then Fatal msgNoLAI
  else
    let vegetation := Nat.ltb 0 (length vegNames) in
    let kc := lookupOrDefault kcLAIboundaryList [] in
    Ok (map (fun vectorId =>
               fillTables nCoarseFacesAll nFineFaces vegetation
                 (kc !!! vectorId) (sunPosVector_y !!! vectorId) skyPos
                 (IDN_y !!! vectorId) (Idif_y !!! vectorId)
                 (faces !!! vectorId))
            (seq 0 (length sunPosVector_y))).

(** *** The patches and the numbering of the coarse faces *)

(** What the loop over the patches of [qr] leaves behind. *)
Record patchCounts : Type := mkCounts {
  viewFactorsPatches : labelList;
  nCoarseFaces : label;
  nCoarseFacesAll : label;
  nFineFaces : label;
  nFineFacesTotal : label;
  howManyCoarseFacesPerPatch : labelList;
  howManyFineFacesPerPatch : labelList;
  sunskyMap_ : labelList;
  count : nat;
  countAll : nat;
  countForMapping : label
}.

(** [for (; i < howMany; i++) { sunskyMap_.append(countForMapping);
    countForMapping ++; }]. *)
Definition appendRange (howMany : label) (acc : labelList * label)
  : labelList * label :=
  Nat.iter (Z.to_nat howMany)
           (fun '(m, c) => (m ++ [c], (c + 1)%Z)) acc.

(** The body of [forAll(qrb, patchi)]. *)
Definition countStep (s : patchCounts) (p : boundaryPatch) : patchCounts :=
  if isWall p && Z.ltb 0 (fineSize p)
  then
    let '(m, c) := appendRange (coarseSize p)
                     (sunskyMap_ s, countForMapping s) in
    mkCounts (<[ count s := patchIndex p ]> (viewFactorsPatches s))
      (nCoarseFaces s + coarseSize p) (nCoarseFacesAll s + coarseSize p)
      (nFineFaces s + fineSize p) (nFineFacesTotal s + fineSize p)
      (<[ countAll s := coarseSize p ]> (howManyCoarseFacesPerPatch s))
      (<[ countAll s := fineSize p ]> (howManyFineFacesPerPatch s))
      m (S (count s)) (S (countAll s)) c
  else if isFixedValue p && Z.ltb 0 (fineSize p)
  then
    let '(m, c) := appendRange (coarseSize p)
                     (sunskyMap_ s, countForMapping s) in
    mkCounts (viewFactorsPatches s)
      (nCoarseFaces s) (nCoarseFacesAll s + coarseSize p)
      (nFineFaces s) (nFineFacesTotal s + fineSize p)
      (<[ countAll s := coarseSize p ]> (howManyCoarseFacesPerPatch s))
      (<[ countAll s := fineSize p ]> (howManyFineFacesPerPatch s))
      m (count s) (S (countAll s)) c
  else
    mkCounts (viewFactorsPatches s)
      (nCoarseFaces s) (nCoarseFacesAll s)
      (nFineFaces s) (nFineFacesTotal s + fineSize p)
      (<[ countAll s := 0%Z ]> (howManyCoarseFacesPerPatch s))
      (<[ countAll s := 0%Z ]> (howManyFineFacesPerPatch s))
      (sunskyMap_ s) (count s) (S (countAll s)) (countForMapping s).

(** The loop and [viewFactorsPatches.resize(count)]; the three lists
    are sized to the number of patches before the loop (their entries
    are then unset, here 0). *)
Definition countPatches (patches : list boundaryPatch) : patchCounts :=
  let n := length patches in
  let s := fold_left countStep patches
             (mkCounts (replicate n 0%Z) 0 0 0 0 (replicate n 0%Z)
                (replicate n 0%Z) [] 0 0 0%Z) in
  mkCounts (take (count s) (viewFactorsPatches s))
    (nCoarseFaces s) (nCoarseFacesAll s) (nFineFaces s)
    (nFineFacesTotal s) (howManyCoarseFacesPerPatch s)
    (howManyFineFacesPerPatch s) (sunskyMap_ s) (count s) (countAll s)
    (countForMapping s).

(** The maps of all processes after the gather: the map of process
    [procI > 0] is shifted by the number of entries of the processes
    before it. *)
Definition shiftMaps (sunskyMap__ : list labelList) : list labelList :=
  (fold_left
     (fun '(maps, sunskyMapCounter) procI =>
        let m := maps !!! procI in
        let m1 := if Nat.ltb 0 procI
                  then map (fun x => (x + sunskyMapCounter)%Z) m else m in
        (<[ procI := m1 ]> maps,
         (sunskyMapCounter + Z.of_nat (length m1))%Z))
     (seq 0 (length sunskyMap__)) (sunskyMap__, 0%Z)).1.

(** *** The points of the rays *)

(** [GREAT]. *)
Definition GREAT : scalar := 1e15.

(** The search for the fine face centre or point that is closest to the
    centre [cf] of a coarse face. *)
Definition closestAvailablePoint (cf : point) (availablePoints : list point)
  : point :=
  let cfo := cf in
  (fold_left
     (fun '(dist, cf1) cfFine =>
        if Rltb (magV (subV cfFine cfo)) dist
        then (magV (subV cfFine cfo), cfFine)
        else (dist, cf1))
     availablePoints (GREAT, cf)).2.

(** The end point of the ray from [solarStart[pointI]] towards the sun,
    on the bounding box [min_], [max_] of the domain. *)
Definition solarEndPoint (start sunPos min_ max_ : point) : point :=
  let i1 :=
    if Rgtb (vx sunPos) 0 then (vx max_ - vx start) / vx sunPos
    else if Rltb (vx sunPos) 0 then (vx min_ - vx start) / vx sunPos
    else VGREAT in
  let i2 :=
    if Rgtb (vy sunPos) 0 then (vy max_ - vy start) / vy sunPos
    else if Rltb (vy sunPos) 0 then (vy min_ - vy start) / vy sunPos
    else VGREAT in
  let i3 :=
    if Rgtb (vz sunPos) 0 then (vz max_ - vz start) / vz sunPos
    else if Rltb (vz sunPos) 0 then (vz min_ - vz start) / vz sunPos
    else VGREAT in
  let i := Rmin i1 (Rmin i2 i3) in
  addV (scaleV i (mkVector (vx sunPos) (vy sunPos) (vz sunPos))) start.

End SolarRayTracingGen.

(** ** calcLAI: leaf-area index along the sun rays *)

Module CalcLAI.

(** [List::setSize(n, zero)]: kept entries, new ones set to zero. *)
Definition setSize (n : nat) (l : scalarField) : scalarField :=
  take n l ++ replicate (n - length l) 0.

(** Index of node (i, j, k) of a Cartesian grid with [nx*ny] nodes per
    layer. *)
Definition pIndex (nx ny i j k : nat) : nat :=
  ((nx * ny) * k + j * nx + i)%nat.

(** The values [k = nz-2, ..., 0] of the innermost loop of
    [integrateLAD] (none when [nz < 2]). *)
Definition downward (nz : nat) : list nat := rev (seq 0 (nz - 1)).

(** One trapezoid: the body of the innermost loop. *)
Definition integrateStep (LADInterpRot : scalarField) (nxRot nyRot : nat)
  (dz : scalar) (i j : nat) (LAIInterpRot : scalarField) (k : nat)
  : scalarField :=
  let pI := pIndex nxRot nyRot i j k in
  let pIkp1 := pIndex nxRot nyRot i j (k + 1) in
  <[ pI := LAIInterpRot !!! pIkp1
           + 0.5 * (LADInterpRot !!! pI + LADInterpRot !!! pIkp1) * dz ]>
    LAIInterpRot.

Definition integrateColumn (LADInterpRot : scalarField)
  (nxRot nyRot nzRot : nat) (dz : scalar) (i j : nat)
  (LAIInterpRot : scalarField) : scalarField :=
  fold_left (integrateStep LADInterpRot nxRot nyRot dz i j)
            (downward nzRot) LAIInterpRot.

(** [integrateLAD]: on the master the field is sized and every column is
    integrated from the top layer down. *)
Definition integrateLAD (master : bool) (LADInterpRot : scalarField)
  (nxRot nyRot nzRot : nat) (dp : point) (LAIInterpRot : scalarField)
  : scalarField :=
  if master then
    fold_left
      (fun LAI i =>
         fold_left
           (fun LAI' j =>
              integrateColumn LADInterpRot nxRot nyRot nzRot (vz dp) i j
                LAI')
           (seq 0 nyRot) LAI)
      (seq 0 nxRot) (setSize (nxRot * nyRot * nzRot) LAIInterpRot)
  else LAIInterpRot.

(** [kc], read with default 0.5. *)
Definition kc (kcEntry : option scalar) : scalar :=
  lookupOrDefault kcEntry 0.5.


(** [interp3D]: trilinear interpolation on a grid with origin [pmin] and
    spacing [dp]; the indices are C++ ints. *)
Definition interp3D (ptemp : point) (valInterp : scalarField)
  (nx ny : nat) (pmin dp : point) : scalar :=
  let nx := Z.of_nat nx in
  let ny := Z.of_nat ny in
  let xp := vx ptemp - vx pmin in
  let yp := vy ptemp - vy pmin in
  let zp := vz ptemp - vz pmin in
  let i0 := Zfloor (xp / vx dp) in
  let j0 := Zfloor (yp / vy dp) in
  let k0 := Z.max 0 (Zfloor (zp / vz dp)) in
  let i000 := ((nx * ny) * k0 + j0 * nx + i0)%Z in
  let i100 := ((nx * ny) * k0 + j0 * nx + i0 + 1)%Z in
  let i010 := ((nx * ny) * k0 + (j0 + 1) * nx + i0)%Z in
  let i110 := ((nx * ny) * k0 + (j0 + 1) * nx + i0 + 1)%Z in
  let i001 := ((nx * ny) * (k0 + 1) + j0 * nx + i0)%Z in
  let i101 := ((nx * ny) * (k0 + 1) + j0 * nx + i0 + 1)%Z in
  let i011 := ((nx * ny) * (k0 + 1) + (j0 + 1) * nx + i0)%Z in
  let i111 := ((nx * ny) * (k0 + 1) + (j0 + 1) * nx + i0 + 1)%Z in
  let val (i : Z) : scalar := valInterp !!! Z.to_nat i in
  let x000 := vx pmin + IZR i0 * vx dp in
  let y000 := vy pmin + IZR j0 * vy dp in
  let z000 := vz pmin + IZR k0 * vz dp in
  let xd := (vx ptemp - x000) / vx dp in
  let yd := (vy ptemp - y000) / vy dp in
  let zd := (vz ptemp - z000) / vz dp in
  let c00 := val i000 * (1 - xd) + val i100 * xd in
  let c01 := val i001 * (1 - xd) + val i101 * xd in
  let c10 := val i010 * (1 - xd) + val i110 * xd in
  let c11 := val i011 * (1 - xd) + val i111 * xd in
  let c0 := c00 * (1 - yd) + c10 * yd in
  let c1 := c01 * (1 - yd) + c11 * yd in
  c0 * (1 - zd) + c1 * zd.

(** The rotated grid on which the cumulative LAI lives. *)
Record rotGrid : Type := mkRotGrid {
  LAIInterpRot : scalarField;
  nxRot : nat;
  nyRot : nat;
  pminRot : point;
  pmaxRot : point;
  dp : point
}.

Definition interpLAI (g : rotGrid) (ptemp : point) : scalar :=
  interp3D ptemp (LAIInterpRot g) (nxRot g) (nyRot g) (pminRot g) (dp g).

(** *** Mesh cells *)

(** The bounding-box test on a rotated cell centre. *)
Definition cellInBBox (g : rotGrid) (pmeshMinRot : point) (ptemp : point)
  : bool :=
  Rgeb (vx ptemp) (vx (pminRot g)) && Rleb (vx ptemp) (vx (pmaxRot g))
  && Rgeb (vy ptemp) (vy (pminRot g)) && Rleb (vy ptemp) (vy (pmaxRot g))
  && Rgeb (vz ptemp) (vz pmeshMinRot) && Rleb (vz ptemp) (vz (pmaxRot g)).

(** [insideCellIList]: the cells that pass the test, in cell order. *)
Definition insideCellIList (g : rotGrid) (pmeshMinRot : point)
  (LAD : scalarField) (pmeshCRot : list point) : list nat :=
  filter (fun cellI => cellInBBox g pmeshMinRot (pmeshCRot !!! cellI) = true)
         (seq 0 (length LAD)).

(** The body of the loop over [pHitList]: an unobstructed cell is queued
    for interpolation, an obstructed cell with vegetation gets LAI 1000. *)
Definition hitStep (LAD : scalarField) (pmeshCRot : list point)
  (insideCells : list nat) (pHitList : list bool)
  (acc : list point * list nat * scalarList) (rayI : nat)
  : list point * list nat * scalarList :=
  let '(ptempDyn, ptempIndexDyn, LAI) := acc in
  let cellI := insideCells !!! rayI in
  if negb (pHitList !!! rayI)
  then (ptempDyn ++ [pmeshCRot !!! cellI], ptempIndexDyn ++ [cellI], LAI)
  else if Rgtb (LAD !!! cellI) (10 * SMALL)
       then (ptempDyn, ptempIndexDyn, <[ cellI := 1000 ]> LAI)
       else (ptempDyn, ptempIndexDyn, LAI).

Definition hitLoop (LAD : scalarField) (pmeshCRot : list point)
  (insideCells : list nat) (pHitList : list bool) (LAI : scalarList)
  : list point * list nat * scalarList :=
  fold_left (hitStep LAD pmeshCRot insideCells pHitList)
            (seq 0 (length pHitList)) ([], [], LAI).

(** [LAI[ptempIndexDyn[i]] = LAI_[i]] for all queued entries. *)
Definition writeStep (ptempIndexDyn : list nat) (LAI_ : list scalar)
  (LAI : scalarList) (i : nat) : scalarList :=
  <[ ptempIndexDyn !!! i := LAI_ !!! i ]> LAI.

Definition writeBack (ptempIndexDyn : list nat) (LAI_ : list scalar)
  (LAI : scalarList) : scalarList :=
  fold_left (writeStep ptempIndexDyn LAI_) (seq 0 (length LAI_)) LAI.

(** The LAI of the mesh cells for one sun position ([sunUp] is the test
    [(n2 & ez) > 0]; [pHitList] is what [findLine] returns for the rays
    of [insideCellIList], gather and scatter seen from one process). *)
Definition cellLAI (sunUp : bool) (g : rotGrid) (pmeshMinRot : point)
  (LAD : scalarField) (pmeshCRot : list point) (pHitList : list bool)
  : scalarList :=
  let LAI := replicate (length LAD) 0 in
  if sunUp then
    let inside := insideCellIList g pmeshMinRot LAD pmeshCRot in
    let '(ptempDyn, ptempIndexDyn, LAI1) :=
      hitLoop LAD pmeshCRot inside pHitList LAI in
    let LAI_ := map (interpLAI g) ptempDyn in
    writeBack ptempIndexDyn LAI_ LAI1
  else LAI.

(** *** Coarse boundary faces *)

Definition faceInBBox (g : rotGrid) (ptemp : point) : bool :=
  Rgeb (vx ptemp) (vx (pminRot g)) && Rleb (vx ptemp) (vx (pmaxRot g))
  && Rgeb (vy ptemp) (vy (pminRot g)) && Rleb (vy ptemp) (vy (pmaxRot g))
  && Rleb (vz ptemp) (vz (pmaxRot g)).

(** The counters and lists of the walk over [vegViewFactorsPatches]. *)
Record walk : Type := mkWalk {
  wi : nat;
  wj : nat;
  wk : nat;
  wfaceNo : nat;
  winsideFaceI : nat;
  wptempDyn : list point;
  wptempIndexDyn : list nat;
  wkcLAIboundary : scalarList
}.

(** One round of [while (i < patch)]: the faces of patch [i] that are
    left are counted into [k], then [j = 0; i++]. *)
Definition skipPatch (howMany : list nat) (s : walk) : walk :=
  mkWalk (S (wi s)) 0 (wk s + (howMany !!! wi s - wj s)) (wfaceNo s)
         (winsideFaceI s) (wptempDyn s) (wptempIndexDyn s)
         (wkcLAIboundary s).

(** The body of [while (j < howMany[i])] on a selected patch. *)
Definition visitFace (rotCf : list point) (insideList : list bool)
  (pHitList : list bool) (s : walk) : walk :=
  let s1 :=
    if (insideList !!! wfaceNo s : bool)
    then
      if negb (pHitList !!! winsideFaceI s)
      then mkWalk (wi s) (wj s) (wk s) (wfaceNo s) (S (winsideFaceI s))
             (wptempDyn s ++ [rotCf !!! wfaceNo s])
             (wptempIndexDyn s ++ [wk s]) (wkcLAIboundary s)
      else mkWalk (wi s) (wj s) (wk s) (wfaceNo s) (S (winsideFaceI s))
             (wptempDyn s) (wptempIndexDyn s)
             (<[ wk s := 1000 ]> (wkcLAIboundary s))
    else s in
  mkWalk (wi s1) (S (wj s1)) (S (wk s1)) (S (wfaceNo s1))
         (winsideFaceI s1) (wptempDyn s1) (wptempIndexDyn s1)
         (wkcLAIboundary s1).

(** One round of [forAll(vegViewFactorsPatches, patchID)]. *)
Definition walkPatch (howMany : list nat) (rotCf : list point)
  (insideList pHitList : list bool) (s : walk) (patch : nat) : walk :=
  let s1 := Nat.iter (patch - wi s) (skipPatch howMany) s in
  Nat.iter (howMany !!! wi s1 - wj s1)
           (visitFace rotCf insideList pHitList) s1.

(** [kcLAIboundary] for one sun position: [rotCf] holds the rotated face
    centres [transform(T, vegLocalCoarseCf[faceI])], [pHitList] the
    result of [findLine] for the faces inside the box, in face order. *)
Definition boundaryKcLAI (sunUp : bool) (g : rotGrid) (kc : scalar)
  (vegNCoarseFacesAll : nat) (vegViewFactorsPatches howMany : list nat)
  (rotCf : list point) (pHitList : list bool) : scalarList :=
  let kcLAIboundary := replicate vegNCoarseFacesAll 0 in
  if sunUp then
    let insideList := map (faceInBBox g) rotCf in
    let s := fold_left (walkPatch howMany rotCf insideList pHitList)
               vegViewFactorsPatches
               (mkWalk 0 0 0 0 0 [] [] kcLAIboundary) in
    let LAI_ := map (fun ptemp => kc * interpLAI g ptemp) (wptempDyn s) in
    writeBack (wptempIndexDyn s) LAI_ (wkcLAIboundary s)
  else kcLAIboundary.

(** *** Rays, bounding boxes and grids *)

(** [calcEndPoint]: the end point for a ray hit check, from [start] in
    direction [n2] to just before the mesh bounding box. *)
Definition calcEndPoint (start n2 pminO pmaxO : point) : point :=
  let ix :=
    if Rgtb (vx n2) 0 then (vx pmaxO - vx start) / vx n2
    else if Rltb (vx n2) 0 then (vx pminO - vx start) / vx n2
    else VGREAT in
  let iy :=
    if Rgtb (vy n2) 0 then (vy pmaxO - vy start) / vy n2
    else if Rltb (vy n2) 0 then (vy pminO - vy start) / vy n2
    else VGREAT in
  let iz :=
    if Rgtb (vz n2) 0 then (vz pmaxO - vz start) / vz n2
    else if Rltb (vz n2) 0 then (vz pminO - vz start) / vz n2
    else VGREAT in
  let i := Rmin ix (Rmin iy iz) in
  addV (scaleV (0.999 * i) n2) start.

(** The two ends handed to [findLine] for a cell centre or face centre
    [starti]: [starti + 0.001*d] and [endi]. *)
Definition rayEnds (starti n2 pminO pmaxO : point) : point * point :=
  let endi := calcEndPoint starti n2 pminO pmaxO in
  let d := subV endi starti in
  (addV starti (scaleV 0.001 d), endi).

(** [calcVegBBOX] on one process: the loop over the cells. *)
Definition calcVegBBOXlocal (pmeshC : list point) (LAD : scalarField)
  (pmin pmax : point) : point * point :=
  fold_left
    (fun '(pmin1, pmax1) cellI =>
       if Rgtb (LAD !!! cellI) (10 * SMALL)
       then
         let ptemp := pmeshC !!! cellI in
         (minV pmin1 ptemp, maxV pmax1 ptemp)
       else (pmin1, pmax1))
    (seq 0 (length LAD)) (pmin, pmax).

(** [calcVegBBOX] with the cell centres and LAD of every process, called
    with the same [pmin] and [pmax] on all of them (as [main] does): the
    local boxes are gathered and [gMin], [gMax] give the box to every
    process. *)
Definition calcVegBBOX (procs : list (list point * scalarField))
  (pmin pmax : point) : point * point :=
  let boxes :=
    map (fun '(pmeshC, LAD) => calcVegBBOXlocal pmeshC LAD pmin pmax)
        procs in
  (gMinV (map fst boxes), gMaxV (map snd boxes)).

(** The Cartesian grid that [interpfvMeshToCartesian] leaves in its
    reference arguments. *)
Record cartesianGrid : Type := mkCartesian {
  cLADInterp : scalarField;
  cnx : Z;
  cny : Z;
  cnz : Z;
  cdp : point;
  cpmin : point;
  cpmax : point
}.

(** The body of the loops over k, j, i of [interpfvMeshToCartesian]. *)
Definition nodeStep (findCell : point -> Z) (LAD : scalarField)
  (nx ny : nat) (pmin dp : point) (k j : nat)
  (acc : point * list nat * list scalar) (i : nat)
  : point * list nat * list scalar :=
  let '(pmax, pIndexDyn, LADInterpDyn) := acc in
  let pI := pIndex nx ny i j k in
  let ptemp := mkVector (vx pmin + INR i * vx dp) (vy pmin + INR j * vy dp)
                        (vz pmin + INR k * vz dp) in
  let pmax1 := maxV pmax ptemp in
  let cellIndex := findCell ptemp in
  if negb (Z.eqb cellIndex (-1))
  then
    if Rgtb (LAD !!! Z.to_nat cellIndex) 0
    then (pmax1, pIndexDyn ++ [pI],
          LADInterpDyn ++ [LAD !!! Z.to_nat cellIndex])
    else (pmax1, pIndexDyn, LADInterpDyn)
  else (pmax1, pIndexDyn, LADInterpDyn).

(** [interpfvMeshToCartesian], seen from one process: [findCell] is
    [meshSearch::findCell] (-1 outside the mesh), [minCellV] is
    [gMin(mesh.V())], a positive volume. *)
Definition interpfvMeshToCartesian (master : bool) (findCell : point -> Z)
  (LAD : scalarField) (minCellV : scalar) (pmin pmax : point)
  (minCellSizeFactor : scalar) : cartesianGrid :=
  let minCellL := Rpower minCellV (1.0 / 3.0) * minCellSizeFactor in
  let dp := mkVector minCellL minCellL minCellL in
  let pmin := subV pmin (scaleV 5 dp) in
  let pmax := addV pmax (scaleV 5 dp) in
  let nx := (Zceil ((vx pmax - vx pmin) / vx dp) + 1)%Z in
  let ny := (Zceil ((vy pmax - vy pmin) / vy dp) + 1)%Z in
  let nz := (Zceil ((vz pmax - vz pmin) / vz dp) + 1)%Z in
  let loops :=
    fold_left
      (fun acc k =>
         fold_left
           (fun acc1 j =>
              fold_left
                (nodeStep findCell LAD (Z.to_nat nx) (Z.to_nat ny) pmin dp
                   k j)
                (seq 0 (Z.to_nat nx)) acc1)
           (seq 0 (Z.to_nat ny)) acc)
      (seq 0 (Z.to_nat nz)) (pmax, [], []) in
  let pmax1 := loops.1.1 in
  let pIndexDyn := loops.1.2 in
  let LADInterpDyn := loops.2 in
  let LADInterp :=
    if master
    then writeBack pIndexDyn LADInterpDyn
           (replicate (Z.to_nat (nx * ny * nz)) 0)
    else [] in
  mkCartesian LADInterp nx ny nz dp pmin pmax1.

(** [main], the divergence of the short-wave intensity by forward
    differencing: the body of the loops over kiter, jiter, iiter and
    the field on the master. *)
Definition divStep (qrswInterpRot_ : scalarField) (nxRot nyRot : nat)
  (dz : scalar) (kiter jiter : nat) (divqrswInterpRot : scalarField)
  (iiter : nat) : scalarField :=
  let pI := pIndex nxRot nyRot iiter jiter kiter in
  let pIkp1 := pIndex nxRot nyRot iiter jiter (kiter + 1) in
  <[ pI := (- (qrswInterpRot_ !!! pIkp1 - qrswInterpRot_ !!! pI)) / dz ]>
    divqrswInterpRot.

Definition divqrswInterpRot (master : bool) (qrswInterpRot_ : scalarField)
  (nxRot nyRot nzRot : nat) (dp : point) : scalarField :=
  if master then
    fold_left
      (fun div kiter =>
         fold_left
           (fun div1 jiter =>
              fold_left (divStep qrswInterpRot_ nxRot nyRot (vz dp) kiter
                           jiter)
                        (seq 0 nxRot) div1)
           (seq 0 nyRot) div)
      (seq 0 (nzRot - 1)) (replicate (nxRot * nyRot * nzRot) 0)
  else [].

End CalcLAI.

(** ** Leaf and grass temperature iterations *)

Module FieldOps.

(** [min(f)] and [max(f)] of a field: folded from the first entry, the
    extreme scalar for an empty field. *)
Definition minField (f : scalarField) : scalar :=
  match f with
  | [] => VGREAT
  | x :: rest => fold_left Rmin rest x
  end.

Definition maxField (f : scalarField) : scalar :=
  match f with
  | [] => - VGREAT
  | x :: rest => fold_left Rmax rest x
  end.

(** [gMax(mag(a - b))] and [gMax(mag(a))], seen from one process. *)
Definition maxMagDiff (a b : scalarField) : scalar :=
  maxField (zip_with (fun x y => Rabs (x - y)) a b).

Definition maxMag (a : scalarField) : scalar := maxField (map Rabs a).

(** [(1-relax)*old + relax*new], entry by entry. *)
Definition relax (relaxFactor : scalar) (old new : scalarField)
  : scalarField :=
  zip_with (fun o n => (1 - relaxFactor) * o + relaxFactor * n) old new.

(** Saturation vapour pressure (ASHRAE 1.2), [calc_evsat] and the entries
    of [calc_pvsat]. *)
Definition pws (T : scalar) : scalar :=
  exp (- 5.8002206e3 / T
       + 1.3914993
       - 4.8640239e-2 * T
       + 4.1764768e-5 * T ^ 2
       - 1.4452093e-8 * T ^ 3
       + 6.5459673 * ln T).

End FieldOps.
Import FieldOps.

Module SimplifiedVegetation.

Definition calc_evsat (T : scalar) : scalar := pws T.
Definition calc_rhosat (T : scalar) : scalar := calc_evsat T / (461.5 * T).

Definition p_ : scalar := 101325.
Definition rhoa_ : scalar := 1.225.
Definition cpa_ : scalar := 1003.5.
Definition lambda_ : scalar := 2500000.
Definition Tl_min : scalar := 250.0.
Definition Tl_max : scalar := 400.0.
Definition maxIter : nat := 100.
Definition msgBounding : string := "Warning, bounding Tl...".

(** The fields of one cell that the iteration reads: [LAD_], the air
    temperature [T] and humidity [q], and [Rn_], [Rg_], [ra_], [rs_] as
    [radiation()] and [resistance()] leave them. *)
Record cell : Type := mkCell {
  LAD : scalar;
  T : scalar;
  q : scalar;
  Rn : scalar;
  Rg : scalar;
  ra : scalar;
  rs : scalar
}.

#[global] Instance cell_inhabited : Inhabited cell :=
  populate (mkCell 0 0 0 0 0 0 0).

(** The leaf energy balance: the value assigned to [new_Tl[cellI]]
    before it is bounded. *)
Definition leafBalance (nEvapSides : scalar) (c : cell) (Tl : scalar)
  : scalar :=
  let evsat := calc_evsat Tl in
  let qsat := 0.621945 * (evsat / (p_ - evsat)) in
  let E := pos (Rg c - SMALL) * nEvapSides * LAD c * rhoa_
           * (qsat - q c) / (ra c + rs c) in
  let Qlat := lambda_ * E in
  T c + (Rn c - Qlat) * (ra c / (2.0 * rhoa_ * cpa_ * LAD c)).

(** The test on [new_Tl[cellI]] and the two assignments under it. *)
Definition boundTemperature (new_Tl : scalar) : scalar * bool :=
  if Rltb new_Tl Tl_min || Rgtb new_Tl Tl_max
  then (Rmax (Rmin new_Tl Tl_max) Tl_min, true)
  else (new_Tl, false).

(** The body of [forAll(LAD_, cellI)]. *)
Definition updateCell (nEvapSides : scalar) (cells : list cell)
  (Tl_ : scalarField) (acc : scalarField * bool) (cellI : nat)
  : scalarField * bool :=
  let '(new_Tl, boundTl) := acc in
  let c := cells !!! cellI in
  if Rgtb (LAD c) (10 * SMALL)
  then
    let '(v, b) := boundTemperature (leafBalance nEvapSides c (Tl_ !!! cellI))
    in (<[ cellI := v ]> new_Tl, boundTl || b)
  else (new_Tl, boundTl).

Definition sweep (nEvapSides : scalar) (cells : list cell)
  (Tl_ new_Tl : scalarField) : scalarField * bool :=
  fold_left (updateCell nEvapSides cells Tl_) (seq 0 (length cells))
            (new_Tl, false).

(** What the loop carries from one iteration to the next. *)
Record iterState : Type := mkIter {
  Tl_ : scalarField;
  new_Tl : scalarField;
  warnings : list string
}.

(** One pass of the [for] loop up to the convergence test: the new state
    and [maxRelError]. *)
Definition iteration (nEvapSides Tl_relax : scalar) (cells : list cell)
  (s : iterState) : iterState * scalar :=
  let '(new_Tl1, boundTl) := sweep nEvapSides cells (Tl_ s) (new_Tl s) in
  let warnings1 :=
    if boundTl then warnings s ++ [msgBounding] else warnings s in
  let maxError := maxMagDiff new_Tl1 (Tl_ s) in
  let maxRelError := maxError / maxMag new_Tl1 in
  (mkIter (relax Tl_relax (Tl_ s) new_Tl1) new_Tl1 warnings1, maxRelError).

(** [for (i=1; i<=maxIter; i++)] with its [break]; [left] counts the
    passes that remain, the second component is the number of passes
    made. *)
Fixpoint loop (nEvapSides Tl_relax Tl_residualControl : scalar)
  (cells : list cell) (left : nat) (done : nat) (s : iterState)
  : iterState * nat :=
  match left with
  | O => (s, done)
  | S left' =>
      let '(s1, maxRelError) := iteration nEvapSides Tl_relax cells s in
      if Rltb maxRelError Tl_residualControl
      then (s1, S done)
      else loop nEvapSides Tl_relax Tl_residualControl cells left' (S done)
             s1
  end.


(** *** radiation() *)

(** [gSum(vegiPatch.magSf() * vegiPatchQr)], seen from one process. *)
Definition integrateQr (magSf vegiPatchQr : scalarField) : scalar :=
  sumList (zip_with Rmult magSf vegiPatchQr).

(** [gSum(pos(LAD_ - 10*SMALL)*mesh_.V())], seen from one process. *)
Definition vegiVolume (LAD_ V : scalarField) : scalar :=
  sumList (zip_with (fun lad v => pos (lad - 10 * SMALL) * v) LAD_ V).

(** [divqrsw[lo]*(1-hi_fraction) + divqrsw[hi]*(hi_fraction)]. *)
Definition divqrswi (divqrsw : list scalarList) (lo hi : nat)
  (hi_fraction : scalar) : scalarList :=
  zip_with Rplus
    (map (fun x => x * (1 - hi_fraction)) (divqrsw !!! lo))
    (map (fun x => x * hi_fraction) (divqrsw !!! hi)).

(** The body of [forAll(LAD_, cellI)] in [radiation()]. *)
Definition radiationStep (LAD_ divqrswi : scalarField)
  (integrateQr vegiVolume : scalar) (acc : scalarField * scalarField)
  (cellI : nat) : scalarField * scalarField :=
  if Rgtb (LAD_ !!! cellI) (10 * SMALL)
  then (<[ cellI := - divqrswi !!! cellI + integrateQr / vegiVolume ]>
          acc.1,
        <[ cellI := - divqrswi !!! cellI / LAD_ !!! cellI ]> acc.2)
  else acc.

(** [radiation()]: the fields [Rn_] and [Rg_] it leaves.  The range of
    the time in [sunPosVector] is searched by the loop of
    [directAndDiffuse]. *)
Definition radiation (time : scalar) (sunPosVector_x : list scalar)
  (divqrsw : list scalarList) (magSf vegiPatchQr LAD_ V : scalarField)
  (Rn_ Rg_ : scalarField) : scalarField * scalarField :=
  let lo := (DirectAndDiffuse.findRange time sunPosVector_x).1 in
  let hi := (DirectAndDiffuse.findRange time sunPosVector_x).2 in
  let hi_fraction := DirectAndDiffuse.hi_fraction time sunPosVector_x in
  fold_left
    (radiationStep LAD_ (divqrswi divqrsw lo hi hi_fraction)
       (integrateQr magSf vegiPatchQr) (vegiVolume LAD_ V))
    (seq 0 (length LAD_)) (Rn_, Rg_).

(** *** resistance() *)

(** The fields that [resistance()] writes. *)
Record resistanceFields : Type := mkResistance {
  ra_ : scalarField;
  ev_ : scalarField;
  evsat_ : scalarField;
  VPD_ : scalarField;
  rs_ : scalarField
}.

(** The two factors of the stomatal resistance. *)
Definition f1 (Rg : scalar) : scalar :=
  7.119 * exp (-0.05004 * Rg) + 0.6174 * exp (0.0006336 * Rg).

Definition f2 (VPD : scalar) : scalar :=
  if Rltb VPD 0 then 0.4372 else 0.4372 * Rpower (VPD + 1) 0.204.

(** The body of [forAll(LAD_, cellI)] in [resistance()]; [pow] of a
    positive base is [Rpower]. *)
Definition resistanceStep (C_ l_ rsMin_ : scalar)
  (LAD_ magU T q Rg_ : scalarField) (s : resistanceFields) (cellI : nat)
  : resistanceFields :=
  if Rgtb (LAD_ !!! cellI) (10 * SMALL)
  then
    let ra := C_ * Rpower (l_ / magU !!! cellI) 0.5 in
    let ev := p_ * q !!! cellI / (0.621945 + q !!! cellI) in
    let evsat := calc_evsat (T !!! cellI) in
    let VPD := evsat - ev in
    mkResistance (<[ cellI := ra ]> (ra_ s)) (<[ cellI := ev ]> (ev_ s))
      (<[ cellI := evsat ]> (evsat_ s)) (<[ cellI := VPD ]> (VPD_ s))
      (<[ cellI := rsMin_ * f1 (Rg_ !!! cellI) * f2 VPD ]> (rs_ s))
  else s.

Definition resistance (C_ l_ rsMin_ : scalar)
  (LAD_ magU T q Rg_ : scalarField) (s : resistanceFields)
  : resistanceFields :=
  fold_left (resistanceStep C_ l_ rsMin_ LAD_ magU T q Rg_)
            (seq 0 (length LAD_)) s.

(** *** The fluxes after the iteration *)

(** The body of the last [forAll(LAD_, cellI)] of [calculate]: [E_],
    [Qlat_] and [Qsen_] of a vegetated cell with leaf temperature
    [Tl]. *)
Definition finalFluxes (nEvapSides : scalar) (c : cell) (Tl : scalar)
  : scalar * scalar * scalar :=
  let evsat := calc_evsat Tl in
  let qsat := 0.621945 * (evsat / (p_ - evsat)) in
  let E := pos (Rg c - SMALL) * nEvapSides * LAD c * rhoa_
           * (qsat - q c) / (ra c + rs c) in
  let Qlat := lambda_ * E in
  let Qsen := 2.0 * rhoa_ * cpa_ * LAD c * (Tl - T c) / ra c in
  (E, Qlat, Qsen).

End SimplifiedVegetation.

Module SimpleGrass.

Definition lambda : scalar := 2500000.
Definition Tg_min : scalar := 250.0.
Definition Tg_max : scalar := 400.0.
Definition maxIter : nat := 100.
Definition msgBounding : string := "Warning, bounding Tg...".

(** The patch-face values that the iteration reads. *)
Record face : Type := mkFace {
  Tc : scalar;
  pv : scalar;
  Ts : scalar;
  qr : scalar;
  Qs_abs : scalar;
  h_ch : scalar;
  h_cm : scalar
}.

#[global] Instance face_inhabited : Inhabited face :=
  populate (mkFace 0 0 0 0 0 0 0).

(** [Tg_new] of one face, before it is bounded. *)
Definition grassBalance (nEvapSides LAI : scalar) (f : face) (Tg : scalar)
  : scalar :=
  let pvsat := pws Tg in
  let E := pos (Qs_abs f - SMALL) * nEvapSides * h_cm f * (pvsat - pv f) in
  let Qlat := lambda * E * LAI in
  let Qr2surrounding := qr f in
  let Qr2substrate := 6 * (Ts f - Tg) in
  Tc f + (Qr2surrounding + Qr2substrate + Qs_abs f - Qlat)
         / (h_ch f * LAI).

(** The test on the whole field and the bounding of every entry. *)
Definition boundField (Tg_new : scalarField) : scalarField * bool :=
  if Rltb (minField Tg_new) Tg_min || Rgtb (maxField Tg_new) Tg_max
  then (map (fun x => Rmax (Rmin x Tg_max) Tg_min) Tg_new, true)
  else (Tg_new, false).

Record iterState : Type := mkIter {
  Tg : scalarField;
  warnings : list string
}.

(** What one pass of the loop computes before the convergence test:
    [Tg] as used in the pass (initialised from [Tc] in the first pass
    if necessary), the bounded [Tg_new], the warnings so far and
    [maxRelError]. *)
Record pass : Type := mkPass {
  TgUsed : scalarField;
  Tg_new : scalarField;
  warned : list string;
  maxRelError : scalar
}.

Definition iteration (nEvapSides LAI : scalar) (faces : list face)
  (i : nat) (s : iterState) : pass :=
  let Tg0 :=
    if Nat.eqb i 1 && Rltb (minField (Tg s)) SMALL
    then map Tc faces else Tg s in
  let Tg_new := zip_with (grassBalance nEvapSides LAI) faces Tg0 in
  let '(Tg_new1, boundTg) := boundField Tg_new in
  let warnings1 :=
    if boundTg then warnings s ++ [msgBounding] else warnings s in
  let maxError := maxMagDiff Tg_new1 Tg0 in
  mkPass Tg0 Tg_new1 warnings1 (maxError / maxMag Tg_new1).

(** [for (label i=1; i<=maxIter; i++)]: on convergence the loop is left
    with [Tg] as it was, otherwise [Tg] is relaxed towards [Tg_new];
    the second component is the number of passes made. *)
Fixpoint loop (nEvapSides LAI Tg_relax Tg_residualControl : scalar)
  (faces : list face) (left : nat) (i : nat) (s : iterState)
  : iterState * nat :=
  match left with
  | O => (s, (i - 1)%nat)
  | S left' =>
      let p := iteration nEvapSides LAI faces i s in
      if Rltb (maxRelError p) Tg_residualControl
      then (mkIter (TgUsed p) (warned p), i)
      else loop nEvapSides LAI Tg_relax Tg_residualControl faces left'
             (S i)
             (mkIter (relax Tg_relax (TgUsed p) (Tg_new p)) (warned p))
  end.


(** *** initialise() *)

(** [polyBoundaryMesh::findPatchID]: the index of the first patch with
    the name, or -1. *)
Fixpoint findPatchIDFrom (i : nat) (boundaryMesh : list string)
  (name : string) : label :=
  match boundaryMesh with
  | [] => (-1)%Z
  | p :: rest =>
      if String.eqb p name then Z.of_nat i
      else findPatchIDFrom (S i) rest name
  end.

Definition findPatchID (boundaryMesh : list string) (name : string)
  : label :=
  findPatchIDFrom 0 boundaryMesh name.

Definition msgNotFound (name : string) : string :=
  "Grass patch named " +:+ name +:+ " not found.".

(** The body of [forAll(grassPatches, i)]; a write behind the end of
    [selectedPatches_] is an error. *)
Definition initialiseStep (boundaryMesh : list string)
  (acc : result (labelList * nat)) (name : string)
  : result (labelList * nat) :=
  match acc with
  | Fatal m => Fatal m
  | Ok (selectedPatches_, count) =>
      let grassPatchID := findPatchID boundaryMesh name in
      if Z.ltb grassPatchID 0 then Fatal (msgNotFound name)
      else if Nat.ltb count (length selectedPatches_)
      then Ok (<[ count := grassPatchID ]> selectedPatches_, S count)
      else Fatal "index out of range"
  end.

(** The patch part of [initialise()]: [selectedPatches_] has one entry
    -1 for every patch of the mesh before the loop and is resized to
    [count] after it. *)
Definition initialise (boundaryMesh grassPatches : list string)
  : result labelList :=
  match fold_left (initialiseStep boundaryMesh) grassPatches
          (Ok (replicate (length boundaryMesh) (-1)%Z, 0%nat)) with
  | Fatal m => Fatal m
  | Ok (selectedPatches_, count) => Ok (take count selectedPatches_)
  end.

(** *** The coefficients of a patch face and the source terms *)

Definition p_ : scalar := 101325.
Definition rhoa : scalar := 1.225.
Definition cpa : scalar := 1003.5.
Definition Ra : scalar := 287.042.
Definition Rv : scalar := 461.524.
Definition C_ : scalar := 131.035.

(** The entries of [simpleGrassCoeffs] that [calculate] uses. *)
Record dictionary : Type := mkDict {
  dict_nEvapSides : option scalar;
  dict_Cd : option scalar;
  dict_beta : option scalar;
  dict_LAI : option scalar;
  dict_l : option scalar;
  dict_albedoSoil : option scalar;
  dict_rs : option scalar;
  dict_ra : option scalar
}.

(** The members that [initialise()] reads from the dictionary. *)
Record properties : Type := mkProperties {
  nEvapSides_ : scalar;
  Cd_ : scalar;
  beta_ : scalar;
  LAI_ : scalar;
  l_ : scalar;
  albedoSoil_ : scalar;
  rs : scalar;
  ra : scalar
}.

Definition readCoeffs (coeffs_ : dictionary) : properties :=
  mkProperties
    (lookupOrDefault (dict_nEvapSides coeffs_) 1)
    (lookupOrDefault (dict_Cd coeffs_) 0.2)
    (lookupOrDefault (dict_beta coeffs_) 0.78)
    (lookupOrDefault (dict_LAI coeffs_) 2.0)
    (lookupOrDefault (dict_l coeffs_) 0.1)
    (lookupOrDefault (dict_albedoSoil coeffs_) 0.2366)
    (lookupOrDefault (dict_rs coeffs_) 200)
    (lookupOrDefault (dict_ra coeffs_) (-1)).

(** What [calculate] reads on a face of a grass patch: the cell values
    [Tc], [wc] and [mag(Uc)], the surface temperature [Ts], the fluxes
    [qr] and [qs] and [deltaCoeffs]. *)
Record patchFace : Type := mkPatchFace {
  face_Tc : scalar;
  face_wc : scalar;
  face_magUc : scalar;
  face_Ts : scalar;
  face_qr : scalar;
  face_qs : scalar;
  face_deltaCoeffs : scalar
}.

(** [ra_]: the given [ra], or the computed one when [ra < 0]; [pow] of a
    positive base is [Rpower]. *)
Definition aerodynamicResistance (pr : properties) (magUc : scalar)
  : scalar :=
  if Rltb (ra pr) 0
  then C_ * Rpower (l_ pr / Rmax magUc SMALL) 0.5
  else ra pr.

(** [Qs_abs] of a face with incoming short-wave flux [qs]. *)
Definition absorbedShortWave (pr : properties) (qs : scalar) : scalar :=
  qs * (1 - exp (- beta_ pr * LAI_ pr)
        + albedoSoil_ pr * exp (- beta_ pr * LAI_ pr)).

(** The face values that the iteration reads: [h_ch], [h_cm], [pv] and
    [Qs_abs] as [calculate] computes them before the loop. *)
Definition faceOf (pr : properties) (pf : patchFace) : face :=
  let ra_ := aerodynamicResistance pr (face_magUc pf) in
  mkFace (face_Tc pf)
    (p_ * face_wc pf / (Ra / Rv + face_wc pf))
    (face_Ts pf) (face_qr pf)
    (absorbedShortWave pr (face_qs pf))
    ((2 * rhoa * cpa) / ra_)
    ((rhoa * Ra) / (p_ * Rv * (ra_ + rs pr))).

(** [E] of a face in a pass of the loop with grass temperature [Tg]. *)
Definition transpiration (nEvapSides : scalar) (f : face) (Tg : scalar)
  : scalar :=
  pos (Qs_abs f - SMALL) * nEvapSides * h_cm f * (pws Tg - pv f).

(** The entries of [Sh_], [Sw_] and [Cf_] written for a face under
    "update fields". *)
Definition sourceTerms (pr : properties) (f : face) (deltaCoeffs : scalar)
  (Tg E : scalar) : scalar * scalar * scalar :=
  (h_ch f * (Tg - Tc f) * (LAI_ pr * (deltaCoeffs / 2)),
   E * (LAI_ pr * (deltaCoeffs / 2)),
   Cd_ pr * (LAI_ pr * (deltaCoeffs / 2))).

End SimpleGrass.

(** ** The base classes of the vegetation and grass models *)

Module VegetationModel.

(** The members of [vegetationModel] ([grassModel] has the same, with
    [grass_] for [vegetation_]) that [correct] reads and writes. *)
Record model : Type := mkModel {
  vegetation_ : bool;
  solverFreq_ : label;
  firstIter_ : bool
}.

(** [initialise()]; [solverFreq] is the entry of the dictionary. *)
Definition initialise (solverFreq : option label) (m : model) : model :=
  if vegetation_ m
  then mkModel (vegetation_ m) (Z.max 1 (lookupOrDefault solverFreq 1%Z))
         (firstIter_ m)
  else m.

(** The constructor without a model type. *)
Definition nullModel (solverFreq : option label) : model :=
  initialise solverFreq (mkModel false 0 true).

(** The constructor with a model type: [headerOk] tells whether the
    properties dictionary was found (otherwise [readOpt()] is
    [NO_READ]), [vegetation] is its entry of that name. *)
Definition construct (headerOk : bool) (vegetation : option bool)
  (solverFreq : option label) : model :=
  let m := mkModel (lookupOrDefault vegetation true) 1 true in
  let m1 := if negb headerOk
            then mkModel false (solverFreq_ m) (firstIter_ m) else m in
  initialise solverFreq m1.

(** [correct] at time index [timeIndex]: the new members, and whether
    [calculate] was called.  [%] of two labels is the remainder of the
    truncated division. *)
Definition correct (m : model) (timeIndex : label) : model * bool :=
  if negb (vegetation_ m) then (m, false)
  else if firstIter_ m || Z.eqb (Z.rem timeIndex (solverFreq_ m)) 0
  then (mkModel (vegetation_ m) (solverFreq_ m) false, true)
  else (m, false).

(** A run of calls of [correct]: the members after it and, in order,
    whether each call did calculate. *)
Definition run (m : model) (timeIndices : list label)
  : model * list bool :=
  fold_left (fun '(m1, calls) t =>
               let '(m2, c) := correct m1 t in (m2, calls ++ [c]))
            timeIndices (m, []).

End VegetationModel.

(** ** The temperature boundary condition of a solid under grass *)

Module CFDHAMsolidTemperatureCoupledMixed.

(** "Grass adjustments" of [updateCoeffs] for a face of a patch covered
    with grass: the new [qrNbr] and [qsNbr], with [LAI], [beta] and
    [albedoSoil] read from the coefficients of the grass model. *)
Definition grassAdjustments (coeffs : SimpleGrass.dictionary)
  (TgNbr Tp qsNbr : scalar) : scalar * scalar :=
  let LAI := lookupOrDefault (SimpleGrass.dict_LAI coeffs) 2.0 in
  let beta := lookupOrDefault (SimpleGrass.dict_beta coeffs) 0.78 in
  let albedoSoil :=
    lookupOrDefault (SimpleGrass.dict_albedoSoil coeffs) 0.0 in
  (6 * (TgNbr - Tp), qsNbr * exp (- beta * LAI) * (1 - albedoSoil)).

End CFDHAMsolidTemperatureCoupledMixed.

(** ** Vocabulary of the properties *)

(** The lines that a step added to [Info]. *)
Definition newLines (w w' : world) : list string :=
  drop (length (info w)) (info w').

(** What the first update under constant optical properties does with a
    cache file [f] that it finds: [C] is the matrix assembled in this
    update, [st] and [w] the members and the world before, [st'] and [w']
    after. *)
Definition cachePolicy (lu : LUroutines) (totalNCoarseFaces : label)
  (C : scalarSquareMatrix) (f : CLUfile)
  (st : solverState) (w : world) (st' : solverState) (w' : world) : Prop :=
  (storedN f = totalNCoarseFaces ->
   CLU_ st' = storedCLU f
   /\ pivotIndices_ st' = storedPivots f
   /\ newLines w w' = [LUCache.msgRead; LUCache.msgBacksubstitute]
   /\ files w' = files w)
  /\ (storedN f <> totalNCoarseFaces ->
      (CLU_ st', pivotIndices_ st') = LUDecompose lu C (pivotIndices_ st)
      /\ newLines w w'
         = [LUCache.msgWarning; LUCache.msgDecomposing;
            LUCache.msgBacksubstitute])
  /\ (In LUCache.msgRead (newLines w w')
      <-> storedN f = totalNCoarseFaces).

(** What the world looks like after [readOrDecompose] decomposed. *)
Definition afterDecompose (lu : LUroutines) (fileCLU : string) (nProcs : Z) (total : Z)
  (CLU : scalarSquareMatrix) (piv : labelList) (w : world)
  (said : list string) : scalarSquareMatrix * labelList * world :=
  let '(CLU2, piv2) := LUDecompose lu CLU piv in
  (CLU2, piv2,
   mkWorld (if Z.ltb 1 nProcs
            then <[ fileCLU := mkCLUfile total CLU2 piv2 ]> (files w)
            else files w)
           (info w ++ said)).

(** A first update that decomposes the matrix. *)
Definition decomposes (w w' : world) : Prop :=
  In LUCache.msgDecomposing (newLines w w').


(** The cache file lets a first update go without decomposition. *)
Definition reusable (fs : gmap string CLUfile) (fileCLU : string)
  (totalNCoarseFaces : label) : Prop :=
  exists f, fs !! fileCLU = Some f /\ storedN f = totalNCoarseFaces.

(** Stand-ins for the dense routines, to run the solvers on examples. *)
Definition demoLU : LUroutines :=
  mkLU (fun M piv => (M, piv)) (fun _ _ q => q) (fun _ q => q).






(** The same coarse face seen from its other side. *)
Definition flipFace (cf : SolarRayTracingGen.coarseFace)
  : SolarRayTracingGen.coarseFace :=
  SolarRayTracingGen.mkCoarseFace
    (scaleV (-1) (SolarRayTracingGen.coarseSf cf))
    (SolarRayTracingGen.coarseMagSf cf)
    (SolarRayTracingGen.faceNoAll cf)
    (SolarRayTracingGen.fineFaces cf).

(** A horizontal unit face made of one fine face that sees the sun, with
    area vector (0, 0, z). *)
Definition horizontalFace (z : scalar) : SolarRayTracingGen.coarseFace :=
  SolarRayTracingGen.mkCoarseFace (mkVector 0 0 z) 1 0
    [SolarRayTracingGen.mkFineFace 0 (mkVector 0 0 z) 1 1].


(** One trapezoid of column (i, j) between layers k and k+1, and the
    cumulative LAI at depth [n] below the top layer [top]. *)
Definition trapezoid (LADInterpRot : scalarField) (nxRot nyRot : nat)
  (dz : scalar) (i j k : nat) : scalar :=
  0.5 * (LADInterpRot !!! CalcLAI.pIndex nxRot nyRot i j k
         + LADInterpRot !!! CalcLAI.pIndex nxRot nyRot i j (k + 1)) * dz.

Fixpoint depthLAI (LADInterpRot : scalarField) (nxRot nyRot : nat)
  (dz : scalar) (i j top n : nat) : scalar :=
  match n with
  | O => 0
  | S n' =>
      depthLAI LADInterpRot nxRot nyRot dz i j top n'
      + trapezoid LADInterpRot nxRot nyRot dz i j (top - S n')
  end.

(** Column (i, j) of the rotated LAD grid carries a canopy of uniform
    density [d] on the layers a .. b and nothing elsewhere. *)
Definition uniformCanopy (LADInterpRot : scalarField)
  (nxRot nyRot nzRot : nat) (i j a b : nat) (d : scalar) : Prop :=
  forall k, (k < nzRot)%nat ->
    LADInterpRot !!! CalcLAI.pIndex nxRot nyRot i j k
    = if bool_decide (a <= k <= b)%nat then d else 0.


(** The cumulative LAI, in units of [d*dz], that a uniform canopy on the
    layers a .. b leaves at layer [k]. *)
Definition canopyLayersAbove (a b k : nat) : scalar :=
  if bool_decide (b < k)%nat then 0
  else if bool_decide (a <= k)%nat then INR b - INR k + 0.5
       else INR b - INR a + 1.


(** The states from which a body [f] is run in [n] rounds starting
    from [a]. *)
Fixpoint iterTrace {A : Type} (f : A -> A) (n : nat) (a : A) : list A :=
  match n with
  | O => []
  | S n' => a :: iterTrace f n' (f a)
  end.

(** The states of the walk over the vegetation patches at which the
    body of the inner loop is entered, one per coarse face reached. *)
Definition visitsOfPatch (howMany : list nat) (rotCf : list point)
  (insideList pHitList : list bool) (s : CalcLAI.walk) (patch : nat)
  : list CalcLAI.walk :=
  let s1 := Nat.iter (patch - CalcLAI.wi s) (CalcLAI.skipPatch howMany) s in
  iterTrace (CalcLAI.visitFace rotCf insideList pHitList)
            (howMany !!! CalcLAI.wi s1 - CalcLAI.wj s1) s1.

Fixpoint walkVisits (howMany : list nat) (rotCf : list point)
  (insideList pHitList : list bool) (patches : list nat) (s : CalcLAI.walk)
  : list CalcLAI.walk :=
  match patches with
  | [] => []
  | patch :: rest =>
      visitsOfPatch howMany rotCf insideList pHitList s patch
      ++ walkVisits howMany rotCf insideList pHitList rest
           (CalcLAI.walkPatch howMany rotCf insideList pHitList s patch)
  end.

(** The states at which the faces of one sun position are reached. *)
Definition boundaryVisits (g : CalcLAI.rotGrid)
  (vegNCoarseFacesAll : nat) (vegViewFactorsPatches howMany : list nat)
  (rotCf : list point) (pHitList : list bool) : list CalcLAI.walk :=
  walkVisits howMany rotCf (map (CalcLAI.faceInBBox g) rotCf) pHitList
    vegViewFactorsPatches
    (CalcLAI.mkWalk 0 0 0 0 0 [] [] (replicate vegNCoarseFacesAll 0)).

(** [s'] is a later state of the walk than [s]: the face counter has
    not gone back, the entries below it are final, and the queue has
    only grown, by faces counted in between. *)
Definition evolves (s s' : CalcLAI.walk) : Prop :=
  (CalcLAI.wk s <= CalcLAI.wk s')%nat
  /\ length (CalcLAI.wkcLAIboundary s') = length (CalcLAI.wkcLAIboundary s)
  /\ (forall c, (c < CalcLAI.wk s)%nat ->
        CalcLAI.wkcLAIboundary s' !!! c = CalcLAI.wkcLAIboundary s !!! c)
  /\ exists dI dP,
       CalcLAI.wptempIndexDyn s' = CalcLAI.wptempIndexDyn s ++ dI
       /\ CalcLAI.wptempDyn s' = CalcLAI.wptempDyn s ++ dP
       /\ length dI = length dP
       /\ (forall c, c ∈ dI ->
             (CalcLAI.wk s <= c < CalcLAI.wk s')%nat)
       /\ NoDup dI.


(** A one-cell rotated grid with box [0, 1]^3, for examples. *)
Definition unitGrid : CalcLAI.rotGrid :=
  CalcLAI.mkRotGrid (replicate 8 3) 2 2 (mkVector 0 0 0) (mkVector 1 1 1)
    (mkVector 1 1 1).




(** A cell that carries vegetation. *)
Definition vegetated (c : SimplifiedVegetation.cell) : Prop :=
  SimplifiedVegetation.LAD c > 10 * SMALL.




(** Successive updates of the two radiosity solvers with constant
    emissivity (albedo), on the master; every update comes with the
    fields of its time step. *)
Definition updatesLW (lu : LUroutines) (nProcs : Z) (total : label)
  (casePath : string) (sigma : scalar) (Fmatrix : scalarSquareMatrix)
  (inputs : list (scalarField * scalarField * scalarField))
  (st : solverState) (w : world) : solverState * world :=
  fold_left
    (fun '(st1, w1) '(T4, E, qrExt) =>
       let r := ViewFactorSky.calculate lu true nProcs true total casePath
                  sigma T4 E qrExt Fmatrix st1 w1 in
       (r.1.2, r.2))
    inputs (st, w).

Definition updatesSW (lu : LUroutines) (nProcs : Z) (total : label)
  (casePath : string) (sunPosVector_x : list scalar)
  (sky sun : list scalarList) (Fmatrix : scalarSquareMatrix)
  (inputs : list (scalar * scalarField * scalarField))
  (st : solverState) (w : world) : solverState * world :=
  fold_left
    (fun '(st1, w1) '(time, A, qsExt) =>
       let r := DirectAndDiffuse.calculate lu true nProcs true total
                  casePath time sunPosVector_x sky sun A qsExt Fmatrix
                  st1 w1 in
       (r.1.2, r.2))
    inputs (st, w).

(** Component-wise order of points, and a point inside a box. *)
Definition leV (a b : point) : Prop :=
  vx a <= vx b /\ vy a <= vy b /\ vz a <= vz b.

Definition inBox (pmin pmax p : point) : Prop := leV pmin p /\ leV p pmax.

(** The nodes ((k, j), i) of a grid in the order of the loops over k,
    over j and over i. *)
Definition gridNodes (nx ny nz : nat) : list (nat * nat * nat) :=
  flat_map (fun kj => map (pair kj) (seq 0 nx))
    (flat_map (fun k => map (pair k) (seq 0 ny)) (seq 0 nz)).

(** Node (i, j, k) of the grid with origin [pmin] and spacing [dp], and
    the test under which [interpfvMeshToCartesian] stores the LAD of the
    mesh cell that holds a point. *)
Definition nodeOf (pmin dp : point) (i j k : nat) : point :=
  mkVector (vx pmin + INR i * vx dp) (vy pmin + INR j * vy dp)
           (vz pmin + INR k * vz dp).

Definition storesLAD (findCell : point -> Z) (LAD : scalarField)
  (p : point) : bool :=
  negb (Z.eqb (findCell p) (-1)) && Rgtb (LAD !!! Z.to_nat (findCell p)) 0.

(** The angle between a face and the sky after the fold
    [90 - (deg - 90)] of its upper half. *)
Definition foldedAngle (deg : scalar) : scalar :=
  if Rgtb deg 90 && Rleb deg 180 then 90 - (deg - 90) else deg.

(** The patches whose coarse faces solarRayTracingGen numbers (walls,
    and patches on which qr is fixedValue, with at least one face), the
    walls among them, and the entry of howManyCoarseFacesPerPatch of a
    patch. *)
Definition isCounted (p : boundaryPatch) : bool :=
  (isWall p || isFixedValue p) && Z.ltb 0 (fineSize p).

Definition isCountedWall (p : boundaryPatch) : bool :=
  isWall p && Z.ltb 0 (fineSize p).

Definition coarseFacesOf (p : boundaryPatch) : label :=
  if isCounted p then coarseSize p else 0%Z.

(** The local maps 0, 1, ..., n-1 of processes with [ns] coarse faces. *)
Definition localMaps (ns : list nat) : list labelList :=
  map (fun n => map Z.of_nat (seq 0 n)) ns.

(** ** Proof steps *)

(** Decide the scalar comparisons of a goal over concrete numbers. *)
Ltac decide_cmp :=
  repeat match goal with
    | |- context [Rlt_dec ?a ?b] => destruct (Rlt_dec a b); try lra
    | |- context [Rle_dec ?a ?b] => destruct (Rle_dec a b); try lra
    | H : context [Rlt_dec ?a ?b] |- _ => destruct (Rlt_dec a b); try lra
    | H : context [Rle_dec ?a ?b] |- _ => destruct (Rle_dec a b); try lra
    end.

(** Decimal constants are quotients of integers. *)
Ltac decimals :=
  unfold Q2R in *; cbn [QArith_base.Qnum QArith_base.Qden] in *.

(* ===================================================================== *)
(** * Part II: properties                                                 *)
(* ===================================================================== *)

(** ** Lists and comparisons *)

Lemma Rltb_true (a b : R) : Rltb a b = true <-> a < b.
Proof. unfold Rltb. destruct (Rlt_dec a b); split; intros; try lra; done. Qed.

Lemma Rltb_false (a b : R) : Rltb a b = false <-> b <= a.
Proof. unfold Rltb. destruct (Rlt_dec a b); split; intros; try lra; done. Qed.

Lemma Rleb_true (a b : R) : Rleb a b = true <-> a <= b.
Proof. unfold Rleb. destruct (Rle_dec a b); split; intros; try lra; done. Qed.

Lemma Rleb_false (a b : R) : Rleb a b = false <-> b < a.
Proof. unfold Rleb. destruct (Rle_dec a b); split; intros; try lra; done. Qed.

Lemma Rgtb_true (a b : R) : Rgtb a b = true <-> a > b.
Proof. unfold Rgtb. rewrite Rltb_true. lra. Qed.

Lemma Rgtb_false (a b : R) : Rgtb a b = false <-> a <= b.
Proof. unfold Rgtb. rewrite Rltb_false. lra. Qed.

Lemma Rgeb_true (a b : R) : Rgeb a b = true <-> a >= b.
Proof. unfold Rgeb. rewrite Rleb_true. lra. Qed.

Lemma Rgeb_false (a b : R) : Rgeb a b = false <-> a < b.
Proof. unfold Rgeb. rewrite Rleb_false. lra. Qed.

Lemma lookup_total_map {A B : Type} `{Inhabited A, Inhabited B}
  (f : A -> B) (l : list A) (i : nat) :
  (i < length l)%nat -> map f l !!! i = f (l !!! i).
Proof.
  revert i. induction l as [|a l IH]; intros [|i] Hi; simpl in *;
    try lia; [done|]. apply IH. lia.
Qed.

Lemma lookup_map_Some {A B : Type} (f : A -> B) (l : list A) (i : nat)
  (a : A) :
  l !! i = Some a -> map f l !! i = Some (f a).
Proof.
  revert i. induction l as [|x l IH]; intros [|i] Hi; simpl in *;
    try done; [by inversion Hi | by apply IH].
Qed.

Lemma lookup_total_of_Some {A : Type} `{Inhabited A} (l : list A)
  (i : nat) (a : A) :
  l !! i = Some a -> l !!! i = a.
Proof. intros Hl. by rewrite list_lookup_total_alt, Hl. Qed.

Lemma entry_fillMatrix (n : nat) (f : nat -> nat -> R) (i j : nat) :
  (i < n)%nat -> (j < n)%nat -> entry (fillMatrix n f) i j = f i j.
Proof.
  intros Hi Hj. unfold entry, fillMatrix.
  rewrite lookup_total_map by (by rewrite length_seq).
  rewrite lookup_total_map by (by rewrite length_seq).
  by rewrite !lookup_total_seq_lt.
Qed.

Lemma fold_left_Rplus_scale (c : R) (l : list R) (a : R) :
  fold_left Rplus (map (fun x => x * c) l) (a * c)
  = fold_left Rplus l a * c.
Proof.
  revert a. induction l as [|x l IH]; intros a; simpl; [done|].
  rewrite <- IH. f_equal. lra.
Qed.

Lemma sumList_scale (c : R) (l : list R) :
  sumList (map (fun x => x * c) l) = sumList l * c.
Proof.
  unfold sumList. rewrite <- fold_left_Rplus_scale. f_equal. lra.
Qed.

(** ** The radiosity coefficient matrices *)

(** C1. For all element indices i, j below the element count, the
    long-wave matrix built by viewFactorSky has
    C[i][j] = 1/E[j] - (1/E[j] - 1) F[i][j] on the diagonal and
    (1 - 1/E[j]) F[i][j] off the diagonal; the short-wave matrix built by
    directAndDiffuse has the same entries with 1/(1 - A[j]) in place of
    1/E[j] (the albedo of element j being different from 1, so that the
    quotient exists). *)
Theorem C1_coefficient_matrix_entries
  (n : nat) (E A : scalarField) (F : scalarSquareMatrix) (i j : nat) :
  (i < n)%nat -> (j < n)%nat -> A !!! j <> 1 ->
  entry (ViewFactorSky.coeffMatrix n E F) i j
  = (if decide (i = j)
     then 1 / E !!! j - (1 / E !!! j - 1) * entry F i j
     else (1 - 1 / E !!! j) * entry F i j)
  /\ entry (DirectAndDiffuse.coeffMatrix n A F) i j
     = (if decide (i = j)
        then 1 / (1 - A !!! j) - (1 / (1 - A !!! j) - 1) * entry F i j
        else (1 - 1 / (1 - A !!! j)) * entry F i j).
Proof.
  intros Hi Hj HA.
  unfold ViewFactorSky.coeffMatrix, DirectAndDiffuse.coeffMatrix.
  rewrite !entry_fillMatrix by done.
  unfold ViewFactorSky.Cij, DirectAndDiffuse.Cij.
  destruct (decide (i = j)) as [->|Hne].
  - rewrite Nat.eqb_refl. split; [done|]. field. lra.
  - apply Nat.eqb_neq in Hne. rewrite Hne. split; [done|]. field. lra.
Qed.

Lemma C1_coefficient_matrix_entries_witness :
  entry (ViewFactorSky.coeffMatrix 2 [0.9; 0.8] [[0; 1]; [1; 0]]) 0 1
  = (1 - 1 / 0.8) * 1
  /\ entry (DirectAndDiffuse.coeffMatrix 2 [0.2; 0.3] [[0; 1]; [1; 0]]) 0 1
     = (1 - 1 / (1 - 0.3)) * 1.
Proof.
  apply (C1_coefficient_matrix_entries 2 [0.9; 0.8] [0.2; 0.3]
           [[0; 1]; [1; 0]] 0 1); [lia | lia | cbn; lra].
Defined.

(** ** Smoothing of the view-factor matrix *)

Lemma smooth_row_directAndDiffuse (F : scalarSquareMatrix) (i : nat)
  (row : list R) :
  F !! i = Some row ->
  DirectAndDiffuse.smooth true F !!! i = DirectAndDiffuse.smoothRow row.
Proof.
  intros Hrow. apply lookup_total_of_Some. simpl.
  by apply lookup_map_Some.
Qed.

Lemma smooth_row_viewFactorSky (F : scalarSquareMatrix) (i : nat)
  (row : list R) :
  F !! i = Some row ->
  ViewFactorSky.smooth true F !!! i = ViewFactorSky.smoothRow row.
Proof.
  intros Hrow. apply lookup_total_of_Some. simpl.
  by apply lookup_map_Some.
Qed.

(** The row sum that the long-wave smoothing leaves. *)
Lemma viewFactorSky_smoothRow_sum (row : list R) :
  sumList row + 0.001 <> 0 ->
  sumList (ViewFactorSky.smoothRow row)
  = 1.001 * sumList row / (sumList row + 0.001).
Proof.
  intros Hs. unfold ViewFactorSky.smoothRow. cbv zeta.
  rewrite sumList_scale. decimals. field. lra.
Qed.

Lemma directAndDiffuse_smoothRow_sum (row : list R) :
  sumList row <> 0 ->
  sumList (DirectAndDiffuse.smoothRow row) = 1.
Proof.
  intros Hs. unfold DirectAndDiffuse.smoothRow. cbv zeta.
  rewrite sumList_scale. field. exact Hs.
Qed.

(** C2, as the code has it.  With smoothing enabled, every entry of row
    i is scaled by one factor computed from the row sum s before
    scaling.  In directAndDiffuse the factor is 1 - (s - 1)/s and the row
    sum becomes 1 (for s different from 0).  In viewFactorSky the factor
    is 1 - (s - 1)/(s + 0.001) and the row sum becomes
    1.001 s/(s + 0.001), which is 1 only for a row that summed to 1
    already. *)
Theorem C2_smoothing_rows (F : scalarSquareMatrix) (i : nat)
  (row : list R) :
  F !! i = Some row ->
  let s := sumList row in
  (s <> 0 ->
   DirectAndDiffuse.smooth true F !!! i
   = map (fun Fij => Fij * (1 - (s - 1) / s)) row
   /\ sumList (DirectAndDiffuse.smooth true F !!! i) = 1)
  /\ (s + 0.001 <> 0 ->
      ViewFactorSky.smooth true F !!! i
      = map (fun Fij => Fij * (1 - (s - 1) / (s + 0.001))) row
      /\ sumList (ViewFactorSky.smooth true F !!! i)
         = 1.001 * s / (s + 0.001)
      /\ (sumList (ViewFactorSky.smooth true F !!! i) = 1 <-> s = 1)).
Proof.
  intros Hrow s. split.
  - intros Hs. rewrite (smooth_row_directAndDiffuse F i row Hrow).
    split; [done|]. by apply directAndDiffuse_smoothRow_sum.
  - intros Hs. rewrite (smooth_row_viewFactorSky F i row Hrow).
    split; [done|]. rewrite viewFactorSky_smoothRow_sum by done.
    split; [done|]. fold s. split.
    + intros Heq. apply (Rmult_eq_compat_r (s + 0.001)) in Heq.
      unfold Rdiv in Heq. rewrite Rmult_assoc, Rinv_l in Heq by done. lra.
    + intros ->. decimals. field.
Qed.

Lemma C2_smoothing_rows_witness :
  let F := [[0; 0.5]; [0.25; 0]] in
  let s := sumList [0; 0.5] in
  (s <> 0 ->
   DirectAndDiffuse.smooth true F !!! 0%nat
   = map (fun Fij => Fij * (1 - (s - 1) / s)) [0; 0.5]
   /\ sumList (DirectAndDiffuse.smooth true F !!! 0%nat) = 1)
  /\ (s + 0.001 <> 0 ->
      ViewFactorSky.smooth true F !!! 0%nat
      = map (fun Fij => Fij * (1 - (s - 1) / (s + 0.001))) [0; 0.5]
      /\ sumList (ViewFactorSky.smooth true F !!! 0%nat)
         = 1.001 * s / (s + 0.001)
      /\ (sumList (ViewFactorSky.smooth true F !!! 0%nat) = 1 <-> s = 1)).
Proof.
  exact (C2_smoothing_rows [[0; 0.5]; [0.25; 0]] 0 [0; 0.5] eq_refl).
Defined.

(** C2, as stated, fails for viewFactorSky: a row [0, 0.001] is scaled
    by 500.5 and not by 1 - (s - 1)/s = 1000, and its sum after smoothing
    is 0.5005, not 1. *)
Lemma C2_smoothing_counterexample :
  let F := [[0; 0.001]; [0.001; 0]] in
  let F' := ViewFactorSky.smooth true F in
  let s := sumList (F !!! 0%nat) in
  entry F' 0 1 = entry F 0 1 * 500.5
  /\ entry F' 0 1 <> entry F 0 1 * (1 - (s - 1) / s)
  /\ sumList (F' !!! 0%nat) = 0.5005
  /\ Rabs (sumList (F' !!! 0%nat) - 1) > 0.49.
Proof.
  cbn. unfold ViewFactorSky.smoothRow, sumList. cbn.
  assert (H1 : 0.001 * (1 - (0 + 0 + 0.001 - 1) / (0 + 0 + 0.001 + 0.001))
               = 0.5005) by (decimals; field; lra).
  assert (H2 : 0.001 * (1 - (0 + 0 + 0.001 - 1) / (0 + 0 + 0.001)) = 1)
    by (decimals; field; lra).
  unfold entry. cbn.
  rewrite H1, H2.
  assert (H0 : 0 * (1 - (0 + 0 + 0.001 - 1) / (0 + 0 + 0.001 + 0.001)) = 0)
    by lra.
  rewrite H0.
  repeat split; try lra.
  rewrite Rabs_left; lra.
Qed.

(** ** Interpolation between the stored sun positions *)

Section SunPositionRange.
Import DirectAndDiffuse.

(** The range found when the query time is the m-th entry of a strictly
    increasing remainder [xs] of the table that starts at index [i]. *)
Lemma rangeLoop_at_stamp (t : R) (xs : list R) :
  forall (m i lo hi : nat),
    StronglySorted Rlt xs -> xs !! m = Some t ->
    rangeLoop t xs i lo hi
    = ((i + m)%nat,
       if bool_decide (S m < length xs)%nat then S (i + m) else (i + m)%nat).
Proof.
  induction xs as [|x xs IH]; intros m i lo hi Hsort Hm; [done|].
  apply StronglySorted_inv in Hsort as [Hsort Hall].
  destruct m as [|m]; simpl in Hm.
  - inversion Hm; subst x. simpl.
    assert (Hge : Rgeb t t = true) by (apply Rgeb_true; lra).
    rewrite Hge. rewrite Nat.add_0_r.
    destruct xs as [|y ys]; [done|].
    assert (Hlt : Rgeb t y = false).
    { apply Rgeb_false. by inversion Hall. }
    rewrite bool_decide_eq_true_2 by (simpl; lia).
    simpl. by rewrite Hlt.
  - simpl.
    assert (Hge : Rgeb t x = true).
    { apply Rgeb_true. apply Rgt_ge.
      rewrite List.Forall_forall in Hall. apply Hall.
      apply list_elem_of_In. by eapply list_elem_of_lookup_2. }
    rewrite Hge. rewrite (IH m (S i) i i Hsort Hm).
    replace (S i + m)%nat with (i + S m)%nat by lia.
    f_equal. destruct (decide (S m < length xs)%nat).
    + rewrite !bool_decide_eq_true_2 by lia. done.
    + rewrite !bool_decide_eq_false_2 by lia. done.
Qed.

Lemma findRange_at_stamp (t : R) (x : list R) (k : nat) :
  StronglySorted Rlt x -> x !! k = Some t ->
  findRange t x
  = (k, if bool_decide (S k < length x)%nat then S k else k).
Proof.
  intros Hsort Hk. unfold findRange.
  by rewrite (rangeLoop_at_stamp t x k 0 0 0 Hsort Hk).
Qed.

Lemma hi_fraction_at_stamp (t : R) (x : list R) (k : nat) :
  StronglySorted Rlt x -> x !! k = Some t -> hi_fraction t x = 0.
Proof.
  intros Hsort Hk. unfold hi_fraction.
  rewrite (findRange_at_stamp t x k Hsort Hk).
  destruct (Nat.eqb k _); [done|].
  rewrite (lookup_total_of_Some x k t Hk). unfold Rdiv. lra.
Qed.

End SunPositionRange.

(** C7. With strictly increasing time stamps, a query time equal to the
    k-th stamp gives lo = k and hi_fraction = 0, and every interpolated
    coefficient (the irradiance Isol of the right-hand side in both
    branches, the coarse sun coefficient and the fine-face sun load of the
    wall-face correction) is the value stored at stamp k. *)
Theorem C7_query_at_time_stamp
  (sunPosVector_x : list R) (k : nat) (t : R)
  (sky sun fine : list scalarList) (j : nat) :
  StronglySorted Rlt sunPosVector_x ->
  sunPosVector_x !! k = Some t ->
  let lo := fst (DirectAndDiffuse.findRange t sunPosVector_x) in
  let hi := snd (DirectAndDiffuse.findRange t sunPosVector_x) in
  let frac := DirectAndDiffuse.hi_fraction t sunPosVector_x in
  lo = k
  /\ frac = 0
  /\ DirectAndDiffuse.Isol sky sun lo hi frac j
     = (sky !!! k) !!! j + (sun !!! k) !!! j
  /\ DirectAndDiffuse.IsolLo sky sun lo j
     = (sky !!! k) !!! j + (sun !!! k) !!! j
  /\ DirectAndDiffuse.interpolated sun lo hi frac j
     = (sun !!! k) !!! j
  /\ DirectAndDiffuse.interpolated fine lo hi frac j
     = (fine !!! k) !!! j.
Proof.
  intros Hsort Hk lo hi frac.
  assert (Hlo : lo = k).
  { unfold lo. by rewrite (findRange_at_stamp t _ k Hsort Hk). }
  assert (Hfrac : frac = 0) by (by apply (hi_fraction_at_stamp t _ k)).
  rewrite Hlo, Hfrac.
  unfold DirectAndDiffuse.Isol, DirectAndDiffuse.IsolLo,
    DirectAndDiffuse.interpolated.
  repeat split; lra.
Qed.

Lemma C7_query_at_time_stamp_witness :
  let x := [0; 3600; 7200] in
  let sky := [[10; 11]; [20; 21]; [30; 31]] in
  let sun := [[100; 110]; [200; 210]; [300; 310]] in
  let fine := [[1; 2]; [3; 4]; [5; 6]] in
  let lo := fst (DirectAndDiffuse.findRange 3600 x) in
  let hi := snd (DirectAndDiffuse.findRange 3600 x) in
  let frac := DirectAndDiffuse.hi_fraction 3600 x in
  lo = 1%nat
  /\ frac = 0
  /\ DirectAndDiffuse.Isol sky sun lo hi frac 0 = 20 + 200
  /\ DirectAndDiffuse.IsolLo sky sun lo 0 = 20 + 200
  /\ DirectAndDiffuse.interpolated sun lo hi frac 0 = 200
  /\ DirectAndDiffuse.interpolated fine lo hi frac 0 = 3.
Proof.
  apply (C7_query_at_time_stamp [0; 3600; 7200] 1 3600
           [[10; 11]; [20; 21]; [30; 31]]
           [[100; 110]; [200; 210]; [300; 310]]
           [[1; 2]; [3; 4]; [5; 6]] 0).
  - repeat (constructor; [|repeat (constructor; try lra)]). constructor.
  - reflexivity.
Defined.

(** At a stored time stamp the flux written to a fine wall face uses
    the coarse sun coefficient and the fine-face sun load stored at that
    stamp. *)
Lemma qsWallFace_at_time_stamp (x : list R) (k : nat) (t : R)
  (q A : scalarField) (sun fine : list scalarList)
  (globalCoarse globalFine : nat) :
  StronglySorted Rlt x -> x !! k = Some t ->
  DirectAndDiffuse.qsWallFace q A sun fine
    (DirectAndDiffuse.findRange t x).1
    (DirectAndDiffuse.findRange t x).2
    (DirectAndDiffuse.hi_fraction t x) globalCoarse globalFine
  = q !!! globalCoarse
    - (sun !!! k) !!! globalCoarse * (1 - A !!! globalCoarse)
    + (fine !!! k) !!! globalFine * (1 - A !!! globalCoarse).
Proof.
  intros Hsort Hk.
  rewrite (findRange_at_stamp t x k Hsort Hk),
    (hi_fraction_at_stamp t x k Hsort Hk).
  unfold DirectAndDiffuse.qsWallFace,
    DirectAndDiffuse.interpolated. simpl. lra.
Qed.

(** ** The cached factorisation *)

Section CachedFactorisation.
Import LUCache.
Context (lu : LUroutines).

Lemma readOrDecompose_cases (fileCLU : string) (nProcs total : Z)
  (CLU : scalarSquareMatrix) (piv : labelList) (w : world) :
  (0 <= total)%Z ->
  readOrDecompose lu fileCLU nProcs total CLU piv w
  = match files w !! fileCLU with
    | Some f =>
        if Z.eqb (storedN f) total
        then (storedCLU f, storedPivots f, say w msgRead)
        else afterDecompose lu fileCLU nProcs total CLU piv w
               [msgWarning; msgDecomposing]
    | None =>
        afterDecompose lu fileCLU nProcs total CLU piv w [msgDecomposing]
    end.
Proof.
  intros Htotal. unfold readOrDecompose, afterDecompose.
  destruct (files w !! fileCLU) as [f|].
  - destruct (Z.eqb (storedN f) total) eqn:Heq.
    + apply Z.eqb_eq in Heq.
      assert (Hne : Z.eqb (storedN f) (-1) = false)
        by (apply Z.eqb_neq; lia).
      by rewrite Hne.
    + simpl. destruct (LUDecompose lu CLU piv) as [CLU2 piv2].
      destruct (Z.ltb 1 nProcs); unfold say; simpl;
        by rewrite <- app_assoc.
  - simpl. destruct (LUDecompose lu CLU piv) as [CLU2 piv2].
    by destruct (Z.ltb 1 nProcs).
Qed.

Lemma viewFactorSky_first_update (nProcs total : Z) (casePath : string)
  (sigma : R) (T4 E qrExt : scalarField) (F : scalarSquareMatrix)
  (st : solverState) (w : world) :
  iterCounter_ st = 0%Z ->
  ViewFactorSky.calculate lu true nProcs true total casePath
    sigma T4 E qrExt F st w
  = let '(CLU1, piv1, w1) :=
      readOrDecompose lu (ViewFactorSky.fileCLU casePath) nProcs
        total (ViewFactorSky.coeffMatrix (Z.to_nat total) E F)
        (pivotIndices_ st) w in
    (LUBacksubstitute lu CLU1 piv1
       (ViewFactorSky.rhs (Z.to_nat total) sigma T4 qrExt F),
     mkState CLU1 piv1 1, say w1 msgBacksubstitute).
Proof.
  intros Hiter. unfold ViewFactorSky.calculate.
  rewrite Hiter. simpl. by destruct (readOrDecompose _ _ _ _ _ _ _) as [[? ?] ?].
Qed.

Lemma directAndDiffuse_first_update (nProcs total : Z) (casePath : string)
  (time : R) (x : list R) (sky sun : list scalarList)
  (A qsExt : scalarField) (F : scalarSquareMatrix)
  (st : solverState) (w : world) :
  iterCounter_ st = 0%Z ->
  DirectAndDiffuse.calculate lu true nProcs true total casePath
    time x sky sun A qsExt F st w
  = let '(CLU1, piv1, w1) :=
      readOrDecompose lu (DirectAndDiffuse.fileCLU casePath)
        nProcs total (DirectAndDiffuse.coeffMatrix (Z.to_nat total) A F)
        (pivotIndices_ st) w in
    (LUBacksubstitute lu CLU1 piv1
       (DirectAndDiffuse.rhs (Z.to_nat total)
          (DirectAndDiffuse.Isol sky sun
             (fst (DirectAndDiffuse.findRange time x))
             (snd (DirectAndDiffuse.findRange time x))
             (DirectAndDiffuse.hi_fraction time x)) qsExt),
     mkState CLU1 piv1 1, say w1 msgBacksubstitute).
Proof.
  intros Hiter. unfold DirectAndDiffuse.calculate.
  rewrite Hiter. destruct (DirectAndDiffuse.findRange time x).
  simpl. by destruct (readOrDecompose _ _ _ _ _ _ _) as [[? ?] ?].
Qed.

Lemma newLines_app (w : world) (fs : gmap string CLUfile)
  (said : list string) :
  newLines w (mkWorld fs (info w ++ said)) = said.
Proof. unfold newLines. simpl. by rewrite drop_app_length. Qed.

(** The policy holds for whatever follows [readOrDecompose] by one more
    line on [Info]. *)
Lemma cachePolicy_readOrDecompose (fileCLU : string) (nProcs total : Z)
  (C : scalarSquareMatrix) (f : CLUfile) (st : solverState) (w : world)
  (CLU1 : scalarSquareMatrix) (piv1 : labelList) (w1 : world) :
  (0 <= total)%Z ->
  files w !! fileCLU = Some f ->
  readOrDecompose lu fileCLU nProcs total C (pivotIndices_ st) w
  = (CLU1, piv1, w1) ->
  cachePolicy lu total C f st w (mkState CLU1 piv1 1)
    (say w1 msgBacksubstitute).
Proof.
  intros Htotal Hfile Hrun.
  rewrite readOrDecompose_cases, Hfile in Hrun by done.
  unfold cachePolicy.
  destruct (Z.eqb (storedN f) total) eqn:Heq.
  - apply Z.eqb_eq in Heq. inversion Hrun; subst CLU1 piv1 w1. clear Hrun.
    assert (Hlines : newLines w (say (say w msgRead) msgBacksubstitute)
                     = [msgRead; msgBacksubstitute]).
    { unfold say. simpl. rewrite <- app_assoc. apply newLines_app. }
    rewrite Hlines. repeat split; try done.
    intros _. by left.
  - apply Z.eqb_neq in Heq. unfold afterDecompose in Hrun.
    destruct (LUDecompose lu C (pivotIndices_ st)) as [CLU2 piv2].
    inversion Hrun; subst CLU1 piv1 w1. clear Hrun.
    assert (Hlines :
             newLines w
               (say (mkWorld
                       (if Z.ltb 1 nProcs
                        then <[ fileCLU := mkCLUfile total CLU2 piv2 ]>
                               (files w)
                        else files w)
                       (info w ++ [msgWarning; msgDecomposing]))
                    msgBacksubstitute)
             = [msgWarning; msgDecomposing; msgBacksubstitute]).
    { unfold say. simpl. rewrite <- app_assoc. apply newLines_app. }
    rewrite Hlines. repeat split; try done.
    intros [H|[H|[H|[]]]]; discriminate H.
Qed.

End CachedFactorisation.

Section CachePolicy.
Import LUCache.
Context (lu : LUroutines).





End CachePolicy.

(** C4. On the first update under constant optical properties, with a
    cache file present, the master reuses the stored factorisation and
    pivot indices (and neither decomposes nor writes) when the stored
    element count equals the current one, and otherwise prints the
    warning, decomposes the matrix assembled in this update and keeps
    that; the stored factorisation is read if and only if the counts
    agree.  This holds for the long-wave and for the short-wave solver. *)
Theorem C4_cache_reused_iff_count_matches
  (lu : LUroutines) (nProcs total : Z) (casePath : string)
  (sigma : R) (T4 E qrExt : scalarField)
  (time : R) (x : list R) (sky sun : list scalarList)
  (A qsExt : scalarField) (F : scalarSquareMatrix)
  (st : solverState) (w : world) :
  (0 <= total)%Z ->
  iterCounter_ st = 0%Z ->
  (forall fr qr str wr,
     files w !! ViewFactorSky.fileCLU casePath = Some fr ->
     ViewFactorSky.calculate lu true nProcs true total casePath
       sigma T4 E qrExt F st w = (qr, str, wr) ->
     cachePolicy lu total (ViewFactorSky.coeffMatrix (Z.to_nat total) E F)
       fr st w str wr)
  /\ (forall fs qs sts ws,
        files w !! DirectAndDiffuse.fileCLU casePath = Some fs ->
        DirectAndDiffuse.calculate lu true nProcs true total
          casePath time x sky sun A qsExt F st w = (qs, sts, ws) ->
        cachePolicy lu total
          (DirectAndDiffuse.coeffMatrix (Z.to_nat total) A F)
          fs st w sts ws).
Proof.
  intros Htotal Hiter. split.
  - intros fr qr str wr Hfr Hr.
    rewrite viewFactorSky_first_update in Hr by done.
    destruct (LUCache.readOrDecompose _ _ _ _ _ _ _) as [[CLU1 piv1] w1]
      eqn:Hrun.
    inversion Hr; subst. by eapply cachePolicy_readOrDecompose.
  - intros fs qs sts ws Hfs Hs.
    rewrite directAndDiffuse_first_update in Hs by done.
    destruct (LUCache.readOrDecompose _ _ _ _ _ _ _) as [[CLU1 piv1] w1]
      eqn:Hrun.
    inversion Hs; subst. by eapply cachePolicy_readOrDecompose.
Qed.

Lemma C4_cache_reused_iff_count_matches_witness :
  let F := [[0; 1]; [1; 0]] in
  let fr := mkCLUfile 2 [[1; 0]; [0; 1]] [0%Z; 1%Z] in
  let fs := mkCLUfile 3 [] [] in
  let w := mkWorld
             (<[ ViewFactorSky.fileCLU "case" := fr ]>
                (<[ DirectAndDiffuse.fileCLU "case" := fs ]> ∅))
             [] in
  let st := mkState [] [] 0 in
  let r := ViewFactorSky.calculate demoLU true 4 true 2 "case"
             1 [1; 1] [0.9; 0.8] [0; 0] F st w in
  let s := DirectAndDiffuse.calculate demoLU true 4 true 2 "case"
             3600 [0; 3600] [[1; 1]; [1; 1]] [[1; 1]; [1; 1]]
             [0.2; 0.3] [0; 0] F st w in
  cachePolicy demoLU 2 (ViewFactorSky.coeffMatrix 2 [0.9; 0.8] F)
    fr st w r.1.2 r.2
  /\ cachePolicy demoLU 2 (DirectAndDiffuse.coeffMatrix 2 [0.2; 0.3] F)
       fs st w s.1.2 s.2.
Proof.
  intros F fr fs w st r s.
  destruct (C4_cache_reused_iff_count_matches demoLU 4 2 "case"
              1 [1; 1] [0.9; 0.8] [0; 0]
              3600 [0; 3600] [[1; 1]; [1; 1]] [[1; 1]; [1; 1]]
              [0.2; 0.3] [0; 0] F st w) as [Hr Hs];
    [lia | reflexivity |].
  split.
  - apply (Hr fr r.1.1).
    + apply lookup_insert_eq.
    + change (r = (r.1.1, r.1.2, r.2)). clearbody r.
      by destruct r as [[? ?] ?].
  - apply (Hs fs s.1.1).
    + unfold w. simpl. rewrite lookup_insert_ne.
      * apply lookup_insert_eq.
      * intros Heq. discriminate Heq.
    + change (s = (s.1.1, s.1.2, s.2)). clearbody s.
      by destruct s as [[? ?] ?].
Defined.



(** In a parallel run a first update that decomposes writes the file,
    keyed by the current element count. *)
Lemma parallel_run_persists (lu : LUroutines) (fileCLU : string)
  (nProcs total : Z) (C : scalarSquareMatrix) (piv : labelList)
  (w : world) (CLU1 : scalarSquareMatrix) (piv1 : labelList) (w1 : world) :
  (0 <= total)%Z -> (1 < nProcs)%Z ->
  ~ reusable (files w) fileCLU total ->
  LUCache.readOrDecompose lu fileCLU nProcs total C piv w = (CLU1, piv1, w1) ->
  files w1 !! fileCLU = Some (mkCLUfile total CLU1 piv1).
Proof.
  intros Htotal Hpar Hno Hrun.
  rewrite readOrDecompose_cases in Hrun by done.
  assert (Hlt : Z.ltb 1 nProcs = true) by (apply Z.ltb_lt; lia).
  unfold afterDecompose in Hrun. rewrite Hlt in Hrun.
  destruct (files w !! fileCLU) as [f|] eqn:Hfile.
  - destruct (Z.eqb (storedN f) total) eqn:Heq.
    + exfalso. apply Hno. exists f. split; [done|]. by apply Z.eqb_eq.
    + destruct (LUDecompose lu C piv). inversion Hrun; subst. simpl.
      apply lookup_insert_eq.
  - destruct (LUDecompose lu C piv). inversion Hrun; subst. simpl.
    apply lookup_insert_eq.
Qed.

(** ** solarRayTracingGen *)

Section SunCoefficient.
Import SolarRayTracingGen.

Lemma SMALL_pos : 0 < SMALL.
Proof. unfold SMALL. lra. Qed.

Lemma fold_left_Rplus_acc (l : list R) (a : R) :
  fold_left Rplus l a = a + fold_left Rplus l 0.
Proof.
  revert a. induction l as [|x l IH]; intros a; simpl; [lra|].
  rewrite (IH (a + x)), (IH (0 + x)). lra.
Qed.




Lemma dot_flip (a b : vector) : dot (scaleV (-1) a) b = - dot a b.
Proof. unfold dot, scaleV. simpl. lra. Qed.

Lemma magV_flip (a : vector) : magV (scaleV (-1) a) = magV a.
Proof. unfold magV. f_equal. unfold dot, scaleV. simpl. lra. Qed.







End SunCoefficient.





Section CoefficientTables.
Import SolarRayTracingGen.
Context (vegetation : bool) (kcLAIboundary : scalarList).
Context (sunPos skyPos : vector) (IDN Idif : R).

#[local] Abbreviation step :=
  (tableStep vegetation kcLAIboundary sunPos skyPos IDN Idif).

Lemma fillTables_frame (fs : list coarseFace) (t : coeffs) (k : nat) :
  k ∉ map faceNoAll fs ->
  length (sunViewCoeff (fold_left step fs t)) = length (sunViewCoeff t)
  /\ sunViewCoeff (fold_left step fs t) !!! k = sunViewCoeff t !!! k.
Proof.
  revert t. induction fs as [|c0 fs IH]; intros t Hk; [done|].
  simpl in Hk. apply not_elem_of_cons in Hk as [Hne Hk].
  simpl. destruct (IH (step t c0) Hk) as [Hl Hv].
  rewrite Hl, Hv. unfold tableStep. simpl. rewrite length_insert.
  split; [done|]. by apply list_lookup_total_insert_ne.
Qed.

(** The entry of the sun table at the index of a coarse face of the
    walk is the coefficient of that face. *)
Lemma fillTables_sunViewCoeff (nCoarseFacesAll nFineFaces : nat)
  (fs : list coarseFace) (cf : coarseFace) :
  NoDup (map faceNoAll fs) -> cf ∈ fs ->
  (faceNoAll cf < nCoarseFacesAll)%nat ->
  sunViewCoeff (fillTables nCoarseFacesAll nFineFaces vegetation
                  kcLAIboundary sunPos skyPos IDN Idif fs)
  !!! faceNoAll cf
  = sunViewCoeffFace vegetation (kcLAIboundary !!! faceNoAll cf) sunPos
      IDN cf.
Proof.
  intros Hnd Hin Hlt. unfold fillTables.
  assert (Hgen : forall t,
             length (sunViewCoeff t) = nCoarseFacesAll ->
             sunViewCoeff (fold_left step fs t) !!! faceNoAll cf
             = sunViewCoeffFace vegetation
                 (kcLAIboundary !!! faceNoAll cf) sunPos IDN cf).
  { induction fs as [|c0 fs IH]; intros t Hlen;
      [by apply elem_of_nil in Hin|].
    simpl in Hnd. apply NoDup_cons in Hnd as [Hc0 Hnd].
    apply elem_of_cons in Hin as [-> | Hin]; simpl.
    - destruct (fillTables_frame fs (step t c0) (faceNoAll c0) Hc0)
        as [_ ->].
      unfold tableStep. simpl. apply list_lookup_total_insert_eq. lia.
    - apply IH; [done|done|]. unfold tableStep. simpl.
      by rewrite length_insert. }
  apply Hgen. simpl. apply length_replicate.
Qed.

End CoefficientTables.

(** C9. With a vegetation region configured and the kcLAIboundary file
    of calcLAI not found, the generator stops with the fatal message
    that names the file and the missing step; no coefficient table is
    produced. *)
Theorem C9_missing_kcLAIboundary_is_fatal
  (nCoarseFacesAll nFineFaces : nat)
  (vegNames : list string) (sunPosVector_y : list vector)
  (IDN_y Idif_y : list R) (skyPos : vector)
  (faces : list (list SolarRayTracingGen.coarseFace)) :
  vegNames <> [] ->
  SolarRayTracingGen.fillCoefficients nCoarseFacesAll nFineFaces vegNames
    None sunPosVector_y IDN_y Idif_y skyPos faces
  = Fatal "File kcLAIboundary not found! Did you not run calcLAI before?"
  /\ forall tables,
       SolarRayTracingGen.fillCoefficients nCoarseFacesAll nFineFaces
         vegNames None sunPosVector_y IDN_y Idif_y skyPos faces
       <> Ok tables.
Proof.
  intros Hveg. unfold SolarRayTracingGen.fillCoefficients.
  destruct vegNames as [|name names]; [done|]. simpl. split; done.
Qed.

Lemma C9_missing_kcLAIboundary_is_fatal_witness :
  SolarRayTracingGen.fillCoefficients 1 1 ["vegetation"] None
    [mkVector 0 0 1] [800] [100] (mkVector 0 0 1) [[horizontalFace (-1)]]
  = Fatal "File kcLAIboundary not found! Did you not run calcLAI before?"
  /\ forall tables,
       SolarRayTracingGen.fillCoefficients 1 1 ["vegetation"] None
         [mkVector 0 0 1] [800] [100] (mkVector 0 0 1)
         [[horizontalFace (-1)]] <> Ok tables.
Proof.
  apply (C9_missing_kcLAIboundary_is_fatal 1 1 ["vegetation"]).
  discriminate.
Defined.

(** Without a vegetation region, or with the file present, the tables
    are produced. *)
Lemma fillCoefficients_runs (nCoarseFacesAll nFineFaces : nat)
  (vegNames : list string)
  (kcLAIboundaryList : option (list scalarList))
  (sunPosVector_y : list vector) (IDN_y Idif_y : list R) (skyPos : vector)
  (faces : list (list SolarRayTracingGen.coarseFace)) :
  vegNames = [] \/ is_Some kcLAIboundaryList ->
  exists tables,
    SolarRayTracingGen.fillCoefficients nCoarseFacesAll nFineFaces
      vegNames kcLAIboundaryList sunPosVector_y IDN_y Idif_y skyPos faces
    = Ok tables
    /\ length tables = length sunPosVector_y.
Proof.
  intros Hcase. unfold SolarRayTracingGen.fillCoefficients.
  assert (Hgo : Nat.ltb 0 (length vegNames)
                && negb (SolarRayTracingGen.typeHeaderOk kcLAIboundaryList)
                = false).
  { destruct Hcase as [-> | [kc ->]]; [done|]. simpl.
    by rewrite andb_false_r. }
  rewrite Hgo. eexists. split; [done|].
  by rewrite length_map, length_seq.
Qed.

(** ** calcLAI: the integration of the leaf-area density *)

Section Integration.
Import CalcLAI.
Context (LAD : scalarField) (nx ny nz : nat) (dz : R).

Lemma pIndex_inj (i j k i' j' k' : nat) :
  (i < nx)%nat -> (i' < nx)%nat -> (j < ny)%nat -> (j' < ny)%nat ->
  pIndex nx ny i j k = pIndex nx ny i' j' k' ->
  i = i' /\ j = j' /\ k = k'.
Proof.
  intros Hi Hi' Hj Hj'. unfold pIndex. intros Heq.
  assert (H1 : (nx * (ny * k + j) + i = nx * (ny * k' + j') + i')%nat)
    by lia.
  apply Nat.div_mod_unique in H1 as [H2 H3]; [|lia|lia].
  apply Nat.div_mod_unique in H2 as [H4 H5]; [|lia|lia].
  done.
Qed.

Lemma pIndex_bound (i j k : nat) :
  (i < nx)%nat -> (j < ny)%nat -> (k < nz)%nat ->
  (pIndex nx ny i j k < nx * ny * nz)%nat.
Proof.
  intros Hi Hj Hk. unfold pIndex.
  assert (H1 : (nx * ny * k + j * nx + i < nx * ny * k + nx * ny)%nat).
  { assert ((j * nx + i < nx * ny)%nat); [|lia].
    assert ((S j * nx <= ny * nx)%nat) by (apply Nat.mul_le_mono_r; lia).
    lia. }
  assert (H2 : (nx * ny * k + nx * ny <= nx * ny * nz)%nat).
  { replace (nx * ny * k + nx * ny)%nat with (nx * ny * S k)%nat by lia.
    apply Nat.mul_le_mono_l. lia. }
  lia.
Qed.

Lemma depthLAI_shift (i j m n : nat) :
  (n <= m)%nat ->
  depthLAI LAD nx ny dz i j (S m) (S n)
  = trapezoid LAD nx ny dz i j m + depthLAI LAD nx ny dz i j m n.
Proof.
  induction n as [|n IH]; intros Hn.
  - simpl. replace (m - 0)%nat with m by lia. lra.
  - change (depthLAI LAD nx ny dz i j (S m) (S (S n)))
      with (depthLAI LAD nx ny dz i j (S m) (S n)
            + trapezoid LAD nx ny dz i j (S m - S (S n))).
    rewrite IH by lia. simpl.
    replace (m - S n)%nat with (S m - S (S n))%nat by lia. lra.
Qed.

(** One column: the layers below [m] get the value at layer [m] plus the
    trapezoids in between, every other entry is left as it was. *)
Lemma integrate_layers (i j : nat) :
  (i < nx)%nat -> (j < ny)%nat ->
  forall (m : nat) (LAI : scalarField),
    (pIndex nx ny i j m < length LAI)%nat ->
    let LAI' := fold_left (integrateStep LAD nx ny dz i j)
                          (rev (seq 0 m)) LAI in
    length LAI' = length LAI
    /\ (forall p, (forall k, (k < m)%nat -> p <> pIndex nx ny i j k) ->
                  LAI' !!! p = LAI !!! p)
    /\ (forall k, (k <= m)%nat ->
                  LAI' !!! pIndex nx ny i j k
                  = LAI !!! pIndex nx ny i j m
                    + depthLAI LAD nx ny dz i j m (m - k)).
Proof.
  intros Hi Hj. induction m as [|m IH]; intros LAI Hlen.
  - simpl. split; [done|]. split; [done|].
    intros k Hk. replace k with 0%nat by lia. simpl. lra.
  - rewrite seq_S, rev_app_distr. simpl.
    set (LAI1 := integrateStep LAD nx ny dz i j LAI m).
    assert (Hpm : (pIndex nx ny i j m < pIndex nx ny i j (S m))%nat)
      by (unfold pIndex; nia).
    assert (Hlen1 : length LAI1 = length LAI)
      by (unfold LAI1, integrateStep; apply length_insert).
    destruct (IH LAI1) as (Hl & Hframe & Hval); [lia|].
    split; [lia|]. split.
    + intros p Hp. rewrite Hframe by (intros k Hk; apply Hp; lia).
      unfold LAI1, integrateStep.
      apply list_lookup_total_insert_ne. intros Heq.
      apply (Hp m); [lia | done].
    + intros k Hk. destruct (decide (k = S m)) as [->|Hne].
      * rewrite Hframe.
        -- unfold LAI1, integrateStep.
           rewrite list_lookup_total_insert_ne by lia.
           rewrite Nat.sub_diag. simpl. lra.
        -- intros k Hk' Heq.
           apply pIndex_inj in Heq as (_ & _ & Heq); [lia|done..].
      * rewrite Hval by lia.
        replace (S m - k)%nat with (S (m - k)) by lia.
        rewrite depthLAI_shift by lia.
        unfold LAI1, integrateStep.
        rewrite list_lookup_total_insert_eq by lia.
        unfold trapezoid. replace (m + 1)%nat with (S m) by lia. lra.
Qed.

Lemma integrateColumn_frame (i j : nat) (LAI : scalarField) (p : nat) :
  (i < nx)%nat -> (j < ny)%nat -> (0 < nz)%nat ->
  (pIndex nx ny i j (nz - 1) < length LAI)%nat ->
  (forall k, (k < nz)%nat -> p <> pIndex nx ny i j k) ->
  integrateColumn LAD nx ny nz dz i j LAI !!! p = LAI !!! p.
Proof.
  intros Hi Hj Hnz Hlen Hp. unfold integrateColumn, downward.
  destruct (integrate_layers i j Hi Hj (nz - 1) LAI Hlen) as (_ & Hf & _).
  apply Hf. intros k Hk. apply Hp. lia.
Qed.

Lemma integrateColumn_value (i j : nat) (LAI : scalarField) (k : nat) :
  (i < nx)%nat -> (j < ny)%nat -> (k < nz)%nat ->
  (pIndex nx ny i j (nz - 1) < length LAI)%nat ->
  integrateColumn LAD nx ny nz dz i j LAI !!! pIndex nx ny i j k
  = LAI !!! pIndex nx ny i j (nz - 1)
    + depthLAI LAD nx ny dz i j (nz - 1) (nz - 1 - k).
Proof.
  intros Hi Hj Hk Hlen. unfold integrateColumn, downward.
  destruct (integrate_layers i j Hi Hj (nz - 1) LAI Hlen) as (_ & _ & Hv).
  apply Hv. lia.
Qed.

Lemma integrateColumn_length (i j : nat) (LAI : scalarField) :
  (i < nx)%nat -> (j < ny)%nat ->
  (pIndex nx ny i j (nz - 1) < length LAI)%nat ->
  length (integrateColumn LAD nx ny nz dz i j LAI) = length LAI.
Proof.
  intros Hi Hj Hlen. unfold integrateColumn, downward.
  by destruct (integrate_layers i j Hi Hj (nz - 1) LAI Hlen) as (Hl & _).
Qed.

End Integration.

Section IntegrationGrid.
Import CalcLAI.
Context (LAD : scalarField) (nx ny nz : nat) (dz : R).
Context (Hnz : (0 < nz)%nat).

#[local] Abbreviation column := (integrateColumn LAD nx ny nz dz).
#[local] Abbreviation depth := (depthLAI LAD nx ny dz).

(** The columns (i, j) for [j] in a duplicate-free list. *)
Lemma integrate_row (i : nat) (js : list nat) :
  (i < nx)%nat -> NoDup js -> (forall j, j ∈ js -> (j < ny)%nat) ->
  forall LAI : scalarField,
    (nx * ny * nz <= length LAI)%nat ->
    let LAI' := fold_left (fun L j => column i j L) js LAI in
    length LAI' = length LAI
    /\ (forall p,
          (forall j k, j ∈ js -> (k < nz)%nat -> p <> pIndex nx ny i j k) ->
          LAI' !!! p = LAI !!! p)
    /\ (forall j k, j ∈ js -> (k < nz)%nat ->
          LAI' !!! pIndex nx ny i j k
          = LAI !!! pIndex nx ny i j (nz - 1)
            + depth i j (nz - 1) (nz - 1 - k)).
Proof.
  intros Hi. induction js as [|j0 js IH]; intros Hnd Hjs LAI Hlen.
  - simpl. split; [done|]. split; [done|]. intros j k Hj. by inversion Hj.
  - apply NoDup_cons in Hnd as [Hj0 Hnd].
    assert (Hj0' : (j0 < ny)%nat) by (apply Hjs; by left).
    assert (Htop : forall j, (j < ny)%nat ->
                     (pIndex nx ny i j (nz - 1) < length LAI)%nat).
    { intros j Hj. pose proof (pIndex_bound nx ny nz i j (nz - 1) Hi Hj).
      lia. }
    assert (Hjs' : forall j, j ∈ js -> (j < ny)%nat)
      by (intros j Hj; apply Hjs; by right).
    simpl.
    set (LAI1 := column i j0 LAI).
    assert (Hlen1 : length LAI1 = length LAI)
      by (apply integrateColumn_length; auto).
    destruct (IH Hnd Hjs' LAI1) as (Hl & Hframe & Hval); [lia|].
    split; [lia|]. split.
    + intros p Hp.
      rewrite Hframe by (intros j k Hj Hk; apply Hp; [by right | done]).
      apply integrateColumn_frame; auto.
      intros k Hk. apply Hp; [by left | done].
    + intros j k Hj Hk. apply elem_of_cons in Hj as [-> | Hj].
      * rewrite Hframe.
        -- apply integrateColumn_value; auto.
        -- intros j k' Hj Hk' Heq.
           apply (pIndex_inj nx ny) in Heq as (_ & <- & _); eauto.
      * rewrite Hval by done. f_equal.
        apply integrateColumn_frame; auto.
        intros k' Hk' Heq.
        apply (pIndex_inj nx ny) in Heq as (_ & -> & _); eauto.
Qed.

(** The columns (i, j) for [i] in a duplicate-free list and all [j]. *)
Lemma integrate_rows (rows : list nat) :
  NoDup rows -> (forall i, i ∈ rows -> (i < nx)%nat) ->
  forall LAI : scalarField,
    (nx * ny * nz <= length LAI)%nat ->
    let LAI' :=
      fold_left (fun L i => fold_left (fun L' j => column i j L')
                                      (seq 0 ny) L) rows LAI in
    length LAI' = length LAI
    /\ (forall p,
          (forall i j k, i ∈ rows -> (j < ny)%nat -> (k < nz)%nat ->
                         p <> pIndex nx ny i j k) ->
          LAI' !!! p = LAI !!! p)
    /\ (forall i j k, i ∈ rows -> (j < ny)%nat -> (k < nz)%nat ->
          LAI' !!! pIndex nx ny i j k
          = LAI !!! pIndex nx ny i j (nz - 1)
            + depth i j (nz - 1) (nz - 1 - k)).
Proof.
  assert (Hseq : forall j, j ∈ seq 0 ny <-> (j < ny)%nat).
  { intros j. rewrite list_elem_of_In, in_seq. lia. }
  induction rows as [|i0 rows IH]; intros Hnd His LAI Hlen.
  - simpl. split; [done|]. split; [done|]. intros i j k Hi. by inversion Hi.
  - apply NoDup_cons in Hnd as [Hi0 Hnd].
    assert (Hi0' : (i0 < nx)%nat) by (apply His; by left).
    assert (His' : forall i, i ∈ rows -> (i < nx)%nat)
      by (intros i Hi; apply His; by right).
    simpl.
    destruct (integrate_row i0 (seq 0 ny) Hi0' (NoDup_seq 0 ny)
                (fun j Hj => proj1 (Hseq j) Hj) LAI Hlen)
      as (Hl1 & Hf1 & Hv1).
    set (LAI1 := fold_left (fun L' j => column i0 j L') (seq 0 ny) LAI)
      in *.
    destruct (IH Hnd His' LAI1) as (Hl & Hframe & Hval); [lia|].
    split; [lia|]. split.
    + intros p Hp.
      rewrite Hframe
        by (intros i j k Hi Hj Hk; apply Hp; [by right | done..]).
      apply Hf1. intros j k Hj Hk. apply Hp; [by left | by apply Hseq | done].
    + intros i j k Hi Hj Hk. apply elem_of_cons in Hi as [-> | Hi].
      * rewrite Hframe.
        -- apply Hv1; [by apply Hseq | done].
        -- intros i j' k' Hi Hj' Hk' Heq.
           apply (pIndex_inj nx ny) in Heq as (<- & _ & _); eauto.
      * rewrite Hval by done. f_equal.
        apply Hf1. intros j' k' Hj' Hk' Heq.
        apply (pIndex_inj nx ny) in Heq as (-> & _ & _); eauto.
        by apply Hseq.
Qed.

End IntegrationGrid.

(** [integrateLAD] on a fresh field: every node holds the trapezoid sum
    of its column from the top layer down to it. *)
Lemma integrateLAD_value (LAD : scalarField) (nx ny nz : nat) (dp : point)
  (i j k : nat) :
  (i < nx)%nat -> (j < ny)%nat -> (k < nz)%nat ->
  CalcLAI.integrateLAD true LAD nx ny nz dp [] !!! CalcLAI.pIndex nx ny i j k
  = depthLAI LAD nx ny (vz dp) i j (nz - 1) (nz - 1 - k).
Proof.
  intros Hi Hj Hk. unfold CalcLAI.integrateLAD.
  assert (Hlen : length (CalcLAI.setSize (nx * ny * nz) [])
                 = (nx * ny * nz)%nat).
  { unfold CalcLAI.setSize. rewrite take_nil. simpl.
    rewrite length_replicate. lia. }
  destruct (integrate_rows LAD nx ny nz (vz dp) ltac:(lia) (seq 0 nx)
              (NoDup_seq 0 nx)) with
    (LAI := CalcLAI.setSize (nx * ny * nz) []) as (_ & _ & Hv).
  - intros i' Hi'. apply list_elem_of_In, in_seq in Hi'. lia.
  - lia.
  - rewrite Hv; [|apply list_elem_of_In, in_seq; lia|done..].
    unfold CalcLAI.setSize. rewrite take_nil. simpl. rewrite Nat.sub_0_r.
    rewrite lookup_total_replicate_2; [lra|].
    apply pIndex_bound; auto. lia.
Qed.



(** The trapezoid sums of a column with a uniform canopy. *)
Lemma canopy_depthLAI (LAD : scalarField) (nx ny nz : nat) (dz : R)
  (i j a b : nat) (d : R) :
  (a <= b)%nat -> (b + 1 < nz)%nat ->
  uniformCanopy LAD nx ny nz i j a b d ->
  forall n, (n <= nz - 1)%nat ->
    depthLAI LAD nx ny dz i j (nz - 1) n
    = d * dz * canopyLayersAbove a b (nz - 1 - n).
Proof.
  intros Hab Hb Hprof. unfold canopyLayersAbove.
  induction n as [|n IH]; intros Hn.
  - simpl. rewrite bool_decide_eq_true_2 by lia. lra.
  - simpl. rewrite IH by lia. unfold trapezoid.
    rewrite !Hprof by lia.
    set (k' := (nz - 1 - S n)%nat).
    replace (nz - 1 - n)%nat with (S k') by lia.
    replace (k' + 1)%nat with (S k') by lia.
    rewrite S_INR.
    repeat case_bool_decide; try lia; try lra.
    + assert (k' = b) as -> by lia. lra.
    + assert (S k' = a) as <- by lia. rewrite S_INR. lra.
Qed.

(** At the lowest canopy layer itself half a layer is still missing. *)
Lemma canopy_lowest_layer_LAI (LAD : scalarField) (nx ny nz : nat)
  (dp : point) (i j a b : nat) (d : R) :
  (i < nx)%nat -> (j < ny)%nat -> (a <= b)%nat -> (b + 1 < nz)%nat ->
  uniformCanopy LAD nx ny nz i j a b d ->
  CalcLAI.integrateLAD true LAD nx ny nz dp [] !!! CalcLAI.pIndex nx ny i j a
  = d * ((INR (b - a) + 0.5) * vz dp).
Proof.
  intros Hi Hj Hab Hb Hprof.
  rewrite integrateLAD_value by (try done; lia).
  rewrite (canopy_depthLAI LAD nx ny nz (vz dp) i j a b d) by (try done; lia).
  replace (nz - 1 - (nz - 1 - a))%nat with a by lia.
  unfold canopyLayersAbove.
  rewrite bool_decide_eq_false_2 by lia.
  rewrite bool_decide_eq_true_2 by lia.
  rewrite minus_INR by lia. lra.
Qed.

(** A column that carries the density [d] on every layer. *)
Lemma uniform_column_LAI (LAD : scalarField) (nx ny nz : nat)
  (dp : point) (i j : nat) (d : R) :
  (i < nx)%nat -> (j < ny)%nat -> (0 < nz)%nat ->
  (forall k, (k < nz)%nat -> LAD !!! CalcLAI.pIndex nx ny i j k = d) ->
  CalcLAI.integrateLAD true LAD nx ny nz dp [] !!! CalcLAI.pIndex nx ny i j 0
  = d * (INR (nz - 1) * vz dp).
Proof.
  intros Hi Hj Hnz Hprof.
  rewrite integrateLAD_value by done.
  rewrite Nat.sub_0_r.
  assert (Hall : forall n, (n <= nz - 1)%nat ->
                   depthLAI LAD nx ny (vz dp) i j (nz - 1) n
                   = d * (INR n * vz dp)).
  { induction n as [|n IH]; intros Hn; [simpl; lra|].
    change (depthLAI LAD nx ny (vz dp) i j (nz - 1) (S n))
      with (depthLAI LAD nx ny (vz dp) i j (nz - 1) n
            + trapezoid LAD nx ny (vz dp) i j (nz - 1 - S n)).
    rewrite IH by lia. unfold trapezoid. rewrite !Hprof by lia.
    rewrite S_INR. lra. }
  by apply Hall.
Qed.



(** ** calcLAI: shadowed and sunlit mesh cells *)

Lemma fold_left_seq_S {A : Type} (f : A -> nat -> A) (n : nat) (a : A) :
  fold_left f (seq 0 (S n)) a = f (fold_left f (seq 0 n) a) n.
Proof. by rewrite seq_S, fold_left_app. Qed.

Lemma NoDup_lookup_total_ne (l : list nat) (i j : nat) :
  NoDup l -> (i < length l)%nat -> (j < length l)%nat -> i <> j ->
  l !!! i <> l !!! j.
Proof.
  intros Hnd Hi Hj Hne Heq. apply Hne.
  apply (NoDup_lookup l i j (l !!! i)); [done|..].
  - by apply list_lookup_lookup_total_lt.
  - rewrite Heq. by apply list_lookup_lookup_total_lt.
Qed.

Section WriteBack.
Import CalcLAI.
Context (idx : list nat) (vals : list R) (L : list R).
Context (Hnd : NoDup idx).

Lemma writeBack_prefix (n : nat) :
  (n <= length idx)%nat ->
  let L' := fold_left (writeStep idx vals) (seq 0 n) L in
  length L' = length L
  /\ (forall c, (forall i, (i < n)%nat -> idx !!! i <> c) ->
                L' !!! c = L !!! c)
  /\ (forall i, (i < n)%nat -> (idx !!! i < length L)%nat ->
                L' !!! (idx !!! i) = vals !!! i).
Proof.
  induction n as [|n IH]; intros Hn.
  - simpl. split; [done|]. split; [done|]. intros i Hi. lia.
  - rewrite fold_left_seq_S.
    destruct IH as (Hlen & Hframe & Hval); [lia|].
    set (Ln := fold_left (writeStep idx vals) (seq 0 n) L) in *.
    unfold writeStep at 1. simpl. split; [by rewrite length_insert|]. split.
    + intros c Hc. rewrite list_lookup_total_insert_ne by (apply Hc; lia).
      apply Hframe. intros i Hi. apply Hc. lia.
    + intros i Hi Hlt. destruct (decide (i = n)) as [->|Hne].
      * rewrite list_lookup_total_insert_eq by lia. done.
      * rewrite list_lookup_total_insert_ne
          by (apply NoDup_lookup_total_ne; [done|lia..]).
        apply Hval; [lia|done].
Qed.

Lemma writeBack_frame (c : nat) :
  length vals = length idx -> c ∉ idx ->
  writeBack idx vals L !!! c = L !!! c.
Proof.
  intros Hlen Hc. unfold writeBack.
  destruct (writeBack_prefix (length vals)) as (_ & Hf & _); [lia|].
  apply Hf. intros i Hi Heq. apply Hc. rewrite <- Heq.
  apply list_elem_of_lookup_total_2. lia.
Qed.

Lemma writeBack_value (i : nat) :
  length vals = length idx -> (i < length idx)%nat ->
  (idx !!! i < length L)%nat ->
  writeBack idx vals L !!! (idx !!! i) = vals !!! i.
Proof.
  intros Hlen Hi Hlt. unfold writeBack.
  destruct (writeBack_prefix (length vals)) as (_ & _ & Hv); [lia|].
  apply Hv; [lia|done].
Qed.

End WriteBack.

Section HitLoop.
Import CalcLAI.
Context (LAD : scalarField) (pmeshCRot : list point).
Context (inside : list nat) (pHitList : list bool) (L : list R).
Context (Hnd : NoDup inside).

#[local] Abbreviation vegetated c := (Rgtb (LAD !!! c) (10 * SMALL)).

Lemma hitLoop_prefix (n : nat) :
  (n <= length inside)%nat ->
  let st := fold_left (hitStep LAD pmeshCRot inside pHitList) (seq 0 n)
                      ([], [], L) in
  st.1.1 = map (fun c => pmeshCRot !!! c) st.1.2
  /\ (forall c, c ∈ st.1.2 <->
                exists r, (r < n)%nat /\ inside !!! r = c
                          /\ pHitList !!! r = false)
  /\ NoDup st.1.2
  /\ length st.2 = length L
  /\ (forall c,
        (forall r, (r < n)%nat -> inside !!! r = c ->
                   pHitList !!! r = true -> vegetated c = false) ->
        st.2 !!! c = L !!! c)
  /\ (forall r, (r < n)%nat -> pHitList !!! r = true ->
                vegetated (inside !!! r) = true ->
                (inside !!! r < length L)%nat ->
                st.2 !!! (inside !!! r) = 1000).
Proof.
  induction n as [|n IH]; intros Hn.
  - simpl. split; [done|]. split.
    { intros c. split; [by intros H%elem_of_nil|]. intros (r & Hr & _). lia. }
    split; [constructor|]. split; [done|]. split; [done|].
    intros r Hr. lia.
  - rewrite fold_left_seq_S.
    destruct IH as (HP & HI & HndI & Hlen & Hframe & Hmark); [lia|].
    destruct (fold_left (hitStep LAD pmeshCRot inside pHitList) (seq 0 n)
                ([], [], L)) as [[P I] Ln].
    simpl in HP, HI, HndI, Hlen, Hframe, Hmark.
    unfold hitStep.
    destruct (pHitList !!! n) eqn:Hhit; simpl.
    + (* the ray of cell [inside !!! n] is obstructed *)
      destruct (vegetated (inside !!! n)) eqn:Hveg; simpl.
      * split; [done|]. split.
        { intros c. rewrite HI. split.
          - intros (r & Hr & Hc & Hh). exists r. split; [lia|done].
          - intros (r & Hr & Hc & Hh). exists r.
            destruct (decide (r = n)) as [->|]; [congruence|].
            split; [lia|done]. }
        split; [done|]. split; [by rewrite length_insert|]. split.
        { intros c Hc.
          rewrite list_lookup_total_insert_ne.
          - apply Hframe. intros r Hr. apply Hc. lia.
          - intros Heq. specialize (Hc n ltac:(lia) Heq Hhit).
            rewrite <- Heq in Hc. congruence. }
        intros r Hr Hh Hv Hlt. destruct (decide (r = n)) as [->|Hne].
        -- rewrite list_lookup_total_insert_eq by lia. done.
        -- rewrite list_lookup_total_insert_ne
             by (apply NoDup_lookup_total_ne; [done|lia..]).
           apply Hmark; [lia|done..].
      * split; [done|]. split.
        { intros c. rewrite HI. split.
          - intros (r & Hr & Hc & Hh). exists r. split; [lia|done].
          - intros (r & Hr & Hc & Hh). exists r.
            destruct (decide (r = n)) as [->|]; [congruence|].
            split; [lia|done]. }
        split; [done|]. split; [done|]. split.
        { intros c Hc. apply Hframe. intros r Hr. apply Hc. lia. }
        intros r Hr Hh Hv Hlt. destruct (decide (r = n)) as [->|Hne].
        -- congruence.
        -- apply Hmark; [lia|done..].
    + (* the ray is free: the cell is queued *)
      split; [by rewrite map_app, HP|]. split.
      { intros c. rewrite elem_of_app, HI, list_elem_of_singleton. split.
        - intros [(r & Hr & Hc & Hh) | ->].
          + exists r. split; [lia|done].
          + exists n. split; [lia|done].
        - intros (r & Hr & Hc & Hh).
          destruct (decide (r = n)) as [->|]; [by right|].
          left. exists r. split; [lia|done]. }
      split.
      { apply NoDup_app. split; [done|]. split; [|apply NoDup_singleton].
        intros c Hc Hc'. apply list_elem_of_singleton in Hc'. subst c.
        apply HI in Hc as (r & Hr & Heq & _).
        revert Heq. apply NoDup_lookup_total_ne; [done|lia..]. }
      split; [done|]. split.
      { intros c Hc. apply Hframe. intros r Hr. apply Hc. lia. }
      intros r Hr Hh Hv Hlt. destruct (decide (r = n)) as [->|Hne].
      * congruence.
      * apply Hmark; [lia|done..].
Qed.

End HitLoop.

Section CellLAI.
Import CalcLAI.
Context (g : rotGrid) (pmeshMinRot : point).
Context (LAD : scalarField) (pmeshCRot : list point) (pHitList : list bool).

#[local] Abbreviation insideCells :=
  (insideCellIList g pmeshMinRot LAD pmeshCRot).

Lemma insideCellIList_NoDup : NoDup insideCells.
Proof. apply NoDup_filter, NoDup_seq. Qed.

Lemma insideCellIList_bound (rayI : nat) :
  (rayI < length insideCells)%nat ->
  (insideCells !!! rayI < length LAD)%nat
  /\ cellInBBox g pmeshMinRot (pmeshCRot !!! (insideCells !!! rayI)) = true.
Proof.
  intros Hr.
  assert (Hin : insideCells !!! rayI ∈ insideCells)
    by (by apply list_elem_of_lookup_total_2).
  apply list_elem_of_filter in Hin as [Hbox Hin].
  apply list_elem_of_In, in_seq in Hin. split; [lia|done].
Qed.

(** What the cell loop leaves for the cell of ray [rayI]. *)
Lemma cellLAI_cases (rayI : nat) :
  length pHitList = length insideCells ->
  (rayI < length insideCells)%nat ->
  let cellI := insideCells !!! rayI in
  let LAI := cellLAI true g pmeshMinRot LAD pmeshCRot pHitList in
  (pHitList !!! rayI = false ->
   LAI !!! cellI = interpLAI g (pmeshCRot !!! cellI))
  /\ (pHitList !!! rayI = true -> LAD !!! cellI > 10 * SMALL ->
      LAI !!! cellI = 1000)
  /\ (pHitList !!! rayI = true -> LAD !!! cellI <= 10 * SMALL ->
      LAI !!! cellI = 0).
Proof.
  intros Hlen Hr cellI LAI.
  pose proof insideCellIList_NoDup as Hnd.
  destruct (insideCellIList_bound rayI Hr) as [Hcell _].
  fold cellI in Hcell.
  unfold LAI, cellLAI, hitLoop. rewrite Hlen.
  destruct (hitLoop_prefix LAD pmeshCRot insideCells pHitList
              (replicate (length LAD) 0) Hnd (length insideCells))
    as (HP & HI & HndI & HlenL & Hframe & Hmark); [lia|].
  destruct (fold_left (hitStep LAD pmeshCRot insideCells pHitList)
              (seq 0 (length insideCells))
              ([], [], replicate (length LAD) 0)) as [[P I] L1].
  simpl in HP, HI, HndI, HlenL, Hframe, Hmark.
  rewrite length_replicate in HlenL.
  assert (Hvals : length (map (interpLAI g) P) = length I)
    by (by rewrite HP, !length_map).
  assert (Hhit : pHitList !!! rayI = true -> cellI ∉ I).
  { intros Hh Hin. apply HI in Hin as (r & Hr' & Heq & Hfree).
    destruct (decide (r = rayI)) as [->|Hne]; [congruence|].
    revert Heq. apply NoDup_lookup_total_ne; [done|lia..]. }
  assert (Hfree' : pHitList !!! rayI = false -> cellI ∈ I)
    by (intros Hfree; apply HI; by exists rayI).
  assert (Hmark' : pHitList !!! rayI = true ->
                   Rgtb (LAD !!! cellI) (10 * SMALL) = true ->
                   L1 !!! cellI = 1000).
  { intros Hh Hv. apply Hmark; [done|done|done|].
    rewrite length_replicate. done. }
  clear Hmark. clearbody cellI.
  split; [|split].
  - intros Hfree.
    apply Hfree' in Hfree as Hin.
    apply list_elem_of_lookup in Hin as [i Hi].
    assert (Hi' : (i < length I)%nat) by (by eapply lookup_lt_Some).
    rewrite <- (lookup_total_of_Some I i cellI Hi) at 1.
    rewrite writeBack_value; [|done|done|done|].
    + rewrite lookup_total_map by (rewrite HP, length_map; lia).
      rewrite HP, lookup_total_map by lia.
      by rewrite (lookup_total_of_Some I i cellI Hi).
    + rewrite (lookup_total_of_Some I i cellI Hi). lia.
  - intros Hh Hveg. rewrite writeBack_frame by auto.
    apply Hmark'; [done|]. apply Rgtb_true. done.
  - intros Hh Hveg. rewrite writeBack_frame by auto.
    rewrite Hframe.
    + apply lookup_total_replicate_2. lia.
    + intros r Hr' Heq _. apply Rgtb_false. done.
Qed.

(** Below the horizon every cell keeps LAI 0. *)
Lemma cellLAI_night (cellI : nat) :
  cellLAI false g pmeshMinRot LAD pmeshCRot pHitList !!! cellI = 0.
Proof.
  unfold cellLAI. destruct (decide (cellI < length LAD)%nat).
  - by apply lookup_total_replicate_2.
  - rewrite list_lookup_total_alt, lookup_ge_None_2; [done|].
    rewrite length_replicate. lia.
Qed.

End CellLAI.

(** ** calcLAI: shadowed and sunlit boundary faces *)

Section BoundaryWalk.
Import CalcLAI.
Context (howMany : list nat) (rotCf : list point).
Context (insideList pHitList : list bool).

#[local] Abbreviation visit := (visitFace rotCf insideList pHitList).
#[local] Abbreviation skip := (skipPatch howMany).

Lemma evolves_same_queue (s s' : walk) :
  (wk s <= wk s')%nat ->
  length (wkcLAIboundary s') = length (wkcLAIboundary s) ->
  (forall c, (c < wk s)%nat ->
             wkcLAIboundary s' !!! c = wkcLAIboundary s !!! c) ->
  wptempIndexDyn s' = wptempIndexDyn s ->
  wptempDyn s' = wptempDyn s ->
  evolves s s'.
Proof.
  intros Hk Hl Hf HI HP. unfold evolves.
  split; [done|]. split; [done|]. split; [done|].
  exists [], []. rewrite !app_nil_r.
  split; [done|]. split; [done|]. split; [done|]. split.
  - intros c Hc. by apply elem_of_nil in Hc.
  - constructor.
Qed.

Lemma evolves_refl (s : walk) : evolves s s.
Proof. by apply evolves_same_queue. Qed.

Lemma evolves_trans (s1 s2 s3 : walk) :
  evolves s1 s2 -> evolves s2 s3 -> evolves s1 s3.
Proof.
  intros (Hk1 & Hl1 & Hf1 & dI1 & dP1 & HI1 & HP1 & Hd1 & Hr1 & Hn1)
         (Hk2 & Hl2 & Hf2 & dI2 & dP2 & HI2 & HP2 & Hd2 & Hr2 & Hn2).
  unfold evolves. split; [lia|]. split; [congruence|]. split.
  { intros c Hc. rewrite Hf2 by lia. by apply Hf1. }
  exists (dI1 ++ dI2), (dP1 ++ dP2).
  split; [by rewrite HI2, HI1, app_assoc|].
  split; [by rewrite HP2, HP1, app_assoc|].
  split; [rewrite !length_app; lia|]. split.
  - intros c Hc. apply elem_of_app in Hc as [Hc|Hc].
    + apply Hr1 in Hc. lia.
    + apply Hr2 in Hc. lia.
  - apply NoDup_app. split; [done|]. split; [|done].
    intros c Hc Hc'. apply Hr1 in Hc. apply Hr2 in Hc'. lia.
Qed.

Lemma evolves_skip (s : walk) : evolves s (skip s).
Proof. apply evolves_same_queue; simpl; try done. lia. Qed.

Lemma evolves_visit (s : walk) : evolves s (visit s).
Proof.
  unfold visitFace.
  destruct (insideList !!! wfaceNo s) eqn:Hin;
    [destruct (pHitList !!! winsideFaceI s) eqn:Hhit|]; simpl.
  - apply evolves_same_queue; simpl; try done; [lia| |].
    + by rewrite length_insert.
    + intros c Hc. apply list_lookup_total_insert_ne. lia.
  - unfold evolves. simpl.
    split; [lia|]. split; [done|]. split; [done|].
    exists [wk s], [rotCf !!! wfaceNo s].
    split; [done|]. split; [done|]. split; [done|]. split.
    + intros c Hc. apply list_elem_of_singleton in Hc. lia.
    + apply NoDup_singleton.
  - apply evolves_same_queue; simpl; try done. lia.
Qed.

Lemma iter_shift {A : Type} (f : A -> A) (n : nat) (a : A) :
  Nat.iter (S n) f a = Nat.iter n f (f a).
Proof. induction n as [|n IH]; [done|]. simpl in *. by rewrite IH. Qed.

Lemma evolves_iter (f : walk -> walk) (n : nat) (s : walk) :
  (forall s', evolves s' (f s')) -> evolves s (Nat.iter n f s).
Proof.
  intros Hf. revert s. induction n as [|n IH]; intros s.
  - apply evolves_refl.
  - rewrite iter_shift. eapply evolves_trans; [apply Hf | apply IH].
Qed.

Lemma evolves_trace (f : walk -> walk) (n : nat) (s s0 : walk) :
  (forall s', evolves s' (f s')) ->
  s0 ∈ iterTrace f n s ->
  evolves s s0 /\ evolves (f s0) (Nat.iter n f s).
Proof.
  intros Hf. revert s. induction n as [|n IH]; intros s Hin.
  - by apply elem_of_nil in Hin.
  - rewrite iter_shift. simpl in Hin.
    apply elem_of_cons in Hin as [-> | Hin].
    + split; [apply evolves_refl | by apply evolves_iter].
    + apply IH in Hin as [H1 H2]. split; [|done].
      eapply evolves_trans; [apply Hf | done].
Qed.

Lemma evolves_walkPatch (s : walk) (patch : nat) :
  evolves s (walkPatch howMany rotCf insideList pHitList s patch).
Proof.
  unfold walkPatch. eapply evolves_trans.
  - apply (evolves_iter skip); apply evolves_skip.
  - apply (evolves_iter visit); apply evolves_visit.
Qed.

Lemma evolves_walk (patches : list nat) (s : walk) :
  evolves s (fold_left (walkPatch howMany rotCf insideList pHitList)
                       patches s).
Proof.
  revert s. induction patches as [|p ps IH]; intros s.
  - apply evolves_refl.
  - simpl. eapply evolves_trans; [apply evolves_walkPatch | apply IH].
Qed.

(** Every state at which the body is entered lies between the start and
    the end of the walk. *)
Lemma walkVisits_evolves (patches : list nat) (s s0 : walk) :
  s0 ∈ walkVisits howMany rotCf insideList pHitList patches s ->
  evolves s s0
  /\ evolves (visit s0)
             (fold_left (walkPatch howMany rotCf insideList pHitList)
                        patches s).
Proof.
  revert s. induction patches as [|p ps IH]; intros s Hin.
  - by apply elem_of_nil in Hin.
  - simpl in Hin. apply elem_of_app in Hin as [Hin | Hin].
    + unfold visitsOfPatch in Hin.
      apply (evolves_trace visit) in Hin as [H1 H2];
        [|apply evolves_visit].
      split.
      * eapply evolves_trans; [|exact H1].
        apply (evolves_iter skip); apply evolves_skip.
      * simpl. eapply evolves_trans; [exact H2|]. apply evolves_walk.
    + apply IH in Hin as [H1 H2]. split; [|done].
      eapply evolves_trans; [apply evolves_walkPatch | done].
Qed.

End BoundaryWalk.

Section BoundaryLAI.
Import CalcLAI.
Context (g : rotGrid) (kc : R) (vegNCoarseFacesAll : nat).
Context (vegViewFactorsPatches howMany : list nat).
Context (rotCf : list point) (pHitList : list bool).

#[local] Abbreviation insideList := (map (faceInBBox g) rotCf).
#[local] Abbreviation start :=
  (mkWalk 0 0 0 0 0 [] [] (replicate vegNCoarseFacesAll 0)).
#[local] Abbreviation final :=
  (fold_left (walkPatch howMany rotCf insideList pHitList)
             vegViewFactorsPatches start).

(** What the face walk and the write-back leave for the coarse face
    reached in state [s0]. *)
Lemma boundaryKcLAI_cases (s0 : walk) :
  s0 ∈ boundaryVisits g vegNCoarseFacesAll vegViewFactorsPatches howMany
         rotCf pHitList ->
  insideList !!! wfaceNo s0 = true ->
  (wk s0 < vegNCoarseFacesAll)%nat ->
  let kcLAIboundary :=
    boundaryKcLAI true g kc vegNCoarseFacesAll vegViewFactorsPatches
      howMany rotCf pHitList in
  (pHitList !!! winsideFaceI s0 = true -> kcLAIboundary !!! wk s0 = 1000)
  /\ (pHitList !!! winsideFaceI s0 = false ->
      kcLAIboundary !!! wk s0 = kc * interpLAI g (rotCf !!! wfaceNo s0)).
Proof.
  intros Hin Hbox Hk kcLAIboundary.
  apply walkVisits_evolves in Hin as [E1 E2].
  pose proof (evolves_walk howMany rotCf insideList pHitList
                vegViewFactorsPatches start) as E.
  destruct E as (_ & HlenF & _ & dI & dP & HI & HP & Hd & _ & HndF).
  simpl in HlenF, HI, HP. rewrite length_replicate in HlenF.
  destruct E1 as (_ & Hlen0 & _ & dI0 & dP0 & HI0 & HP0 & Hd0 & Hr0 & _).
  simpl in Hlen0, HI0, HP0, Hr0. rewrite length_replicate in Hlen0.
  unfold kcLAIboundary, boundaryKcLAI.
  assert (Hvals : length (map (fun ptemp => kc * interpLAI g ptemp)
                              (wptempDyn final))
                  = length (wptempIndexDyn final))
    by (rewrite length_map, HI, HP; lia).
  rewrite <- HI in HndF.
  split.
  - (* obstructed: the entry written in the walk survives *)
    intros Hhit.
    destruct E2 as (_ & _ & Hf2 & dI2 & dP2 & HI2 & _ & _ & Hr2 & _).
    unfold visitFace in Hf2, HI2, Hr2.
    rewrite Hbox, Hhit in Hf2, HI2, Hr2. simpl in Hf2, HI2, Hr2.
    rewrite writeBack_frame; [|done|done|].
    + rewrite Hf2 by lia. apply list_lookup_total_insert_eq. lia.
    + rewrite HI2, HI0. intros Hc.
      apply elem_of_app in Hc as [Hc|Hc].
      * apply Hr0 in Hc. lia.
      * apply Hr2 in Hc. lia.
  - (* free: the face is queued and gets the interpolated value *)
    intros Hfree.
    destruct E2 as (_ & _ & _ & dI2 & dP2 & HI2 & HP2 & _ & _ & _).
    unfold visitFace in HI2, HP2.
    rewrite Hbox, Hfree in HI2, HP2. simpl in HI2, HP2.
    rewrite <- app_assoc in HI2, HP2. simpl in HI2, HP2.
    assert (Hi : wptempIndexDyn final !! length (wptempIndexDyn s0)
                 = Some (wk s0))
      by (rewrite HI2; by apply list_lookup_middle).
    assert (Hp : wptempDyn final !! length (wptempIndexDyn s0)
                 = Some (rotCf !!! wfaceNo s0)).
    { rewrite HP2. apply list_lookup_middle. rewrite HI0, HP0. lia. }
    assert (Hlt : (length (wptempIndexDyn s0)
                   < length (wptempIndexDyn final))%nat)
      by (by eapply lookup_lt_Some).
    rewrite <- (lookup_total_of_Some _ _ _ Hi) at 1.
    rewrite writeBack_value; [|done|done|done|].
    + rewrite lookup_total_map by (rewrite length_map in Hvals; lia).
      by rewrite (lookup_total_of_Some _ _ _ Hp).
    + rewrite (lookup_total_of_Some _ _ _ Hi). lia.
Qed.

End BoundaryLAI.

(** ** calcLAI: interpolation and saturation *)

(** On a field with one value everywhere the interpolation returns that
    value. *)
Lemma interp3D_constant (ptemp : point) (valInterp : scalarField)
  (nx ny : nat) (pmin dp : point) (v : R) :
  (forall i, valInterp !!! i = v) ->
  CalcLAI.interp3D ptemp valInterp nx ny pmin dp = v.
Proof.
  intros Hv. unfold CalcLAI.interp3D. cbv beta zeta. rewrite !Hv.
  generalize ((vx ptemp
               - (vx pmin + IZR (Zfloor ((vx ptemp - vx pmin) / vx dp))
                            * vx dp)) / vx dp).
  generalize ((vy ptemp
               - (vy pmin + IZR (Zfloor ((vy ptemp - vy pmin) / vy dp))
                            * vy dp)) / vy dp).
  generalize ((vz ptemp
               - (vz pmin
                  + IZR (Z.max 0 (Zfloor ((vz ptemp - vz pmin) / vz dp)))
                    * vz dp)) / vz dp).
  intros zd yd xd. ring.
Qed.

(** At the origin of the grid the interpolation returns the first
    node. *)
Lemma interp3D_at_origin (valInterp : scalarField) (nx ny : nat)
  (pmin dp : point) :
  CalcLAI.interp3D pmin valInterp nx ny pmin dp = valInterp !!! 0%nat.
Proof.
  assert (HZ : Zfloor 0 = 0%Z) by apply (ZfloorZ 0).
  unfold CalcLAI.interp3D. cbv beta zeta.
  replace (vx pmin - vx pmin) with 0 by lra.
  replace (vy pmin - vy pmin) with 0 by lra.
  replace (vz pmin - vz pmin) with 0 by lra.
  replace (0 / vx dp) with 0 by (unfold Rdiv; lra).
  replace (0 / vy dp) with 0 by (unfold Rdiv; lra).
  replace (0 / vz dp) with 0 by (unfold Rdiv; lra).
  rewrite !HZ.
  replace (Z.max 0 0) with 0%Z by done.
  replace (Z.of_nat nx * Z.of_nat ny * 0 + 0 * Z.of_nat nx + 0)%Z
    with 0%Z by lia.
  change (Z.to_nat 0) with 0%nat.
  unfold Rdiv. ring.
Qed.

(** The saturating value: with attenuation exponent x > 0 the factor
    exp(-x) is below 1/(1 + x); for x = 1000 it is below 1/1001. *)
Lemma transmittance_small (x : R) :
  0 < x -> 0 < exp (- x) < 1 / (1 + x).
Proof.
  intros Hx. split; [apply exp_pos|].
  rewrite exp_Ropp. unfold Rdiv. rewrite Rmult_1_l.
  apply Rinv_lt_contravar.
  - apply Rmult_lt_0_compat; [lra | apply exp_pos].
  - apply exp_ineq1. lra.
Qed.

(** C6, as the code has it.  With the sun above the horizon:
    - a mesh cell inside the vegetation box whose ray is free gets the
      LAI interpolated trilinearly from the rotated cumulative-LAI grid;
    - a cell whose ray is obstructed gets LAI 1000 when it carries
      vegetation (LAD above 10 SMALL), and keeps LAI 0 when it does not;
    - a coarse boundary face inside the box that the walk reaches gets
      kcLAIboundary = 1000 when its ray is obstructed, and kc times the
      interpolated LAI when it is free;
    - the saturating value makes the Beer-Lambert factor exp(-k LAI)
      smaller than 1/(1 + 1000 k). *)
Theorem C6_shadowed_and_sunlit_elements
  (g : CalcLAI.rotGrid) (pmeshMinRot : point) (LAD : scalarField)
  (pmeshCRot : list point) (pHitList : list bool) (rayI : nat)
  (kc : R) (vegNCoarseFacesAll : nat)
  (vegViewFactorsPatches howMany : list nat) (rotCf : list point)
  (vegCoarseFacePHitList : list bool) (s0 : CalcLAI.walk) :
  let inside := CalcLAI.insideCellIList g pmeshMinRot LAD pmeshCRot in
  length pHitList = length inside ->
  (rayI < length inside)%nat ->
  s0 ∈ boundaryVisits g vegNCoarseFacesAll vegViewFactorsPatches howMany
         rotCf vegCoarseFacePHitList ->
  map (CalcLAI.faceInBBox g) rotCf !!! CalcLAI.wfaceNo s0 = true ->
  (CalcLAI.wk s0 < vegNCoarseFacesAll)%nat ->
  let cellI := inside !!! rayI in
  let LAI := CalcLAI.cellLAI true g pmeshMinRot LAD pmeshCRot pHitList in
  let kcLAIboundary :=
    CalcLAI.boundaryKcLAI true g kc vegNCoarseFacesAll
      vegViewFactorsPatches howMany rotCf vegCoarseFacePHitList in
  (pHitList !!! rayI = false ->
   LAI !!! cellI = CalcLAI.interpLAI g (pmeshCRot !!! cellI))
  /\ (pHitList !!! rayI = true -> LAD !!! cellI > 10 * SMALL ->
      LAI !!! cellI = 1000)
  /\ (pHitList !!! rayI = true -> LAD !!! cellI <= 10 * SMALL ->
      LAI !!! cellI = 0)
  /\ (vegCoarseFacePHitList !!! CalcLAI.winsideFaceI s0 = true ->
      kcLAIboundary !!! CalcLAI.wk s0 = 1000)
  /\ (vegCoarseFacePHitList !!! CalcLAI.winsideFaceI s0 = false ->
      kcLAIboundary !!! CalcLAI.wk s0
      = kc * CalcLAI.interpLAI g (rotCf !!! CalcLAI.wfaceNo s0))
  /\ (forall k, 0 < k ->
        0 < exp (- (k * 1000)) < 1 / (1 + k * 1000)).
Proof.
  intros inside Hlen Hr Hvisit Hbox Hk cellI LAI kcLAIboundary.
  destruct (cellLAI_cases g pmeshMinRot LAD pmeshCRot pHitList rayI Hlen Hr)
    as (Hfree & Hveg & Hbare).
  destruct (boundaryKcLAI_cases g kc vegNCoarseFacesAll
              vegViewFactorsPatches howMany rotCf vegCoarseFacePHitList
              s0 Hvisit Hbox Hk) as (Hshadow & Hsun).
  repeat split; try done.
  - apply transmittance_small. nra.
  - apply transmittance_small. nra.
Qed.

Section Examples.
Import CalcLAI.

Lemma unitGrid_origin_inside :
  cellInBBox unitGrid (mkVector 0 0 0) (mkVector 0 0 0) = true
  /\ faceInBBox unitGrid (mkVector 0 0 0) = true.
Proof.
  unfold cellInBBox, faceInBBox, Rgeb, Rleb. simpl.
  split; decide_cmp; done.
Qed.

Lemma unitGrid_one_cell (LAD0 : R) :
  insideCellIList unitGrid (mkVector 0 0 0) [LAD0] [mkVector 0 0 0]
  = [0%nat].
Proof.
  unfold insideCellIList. simpl.
  rewrite filter_cons_True; [done|].
  apply unitGrid_origin_inside.
Qed.

End Examples.

Lemma C6_shadowed_and_sunlit_elements_witness :
  let start := CalcLAI.mkWalk 0 0 0 0 0 [] [] [0] in
  let LAI := CalcLAI.cellLAI true unitGrid (mkVector 0 0 0) [2]
               [mkVector 0 0 0] [true] in
  let kcLAIboundary :=
    CalcLAI.boundaryKcLAI true unitGrid 0.5 1 [0%nat] [1%nat]
      [mkVector 0 0 0] [false] in
  ([true] !!! 0%nat = false ->
   LAI !!! 0%nat = CalcLAI.interpLAI unitGrid (mkVector 0 0 0))
  /\ ([true] !!! 0%nat = true -> 2 > 10 * SMALL -> LAI !!! 0%nat = 1000)
  /\ ([true] !!! 0%nat = true -> 2 <= 10 * SMALL -> LAI !!! 0%nat = 0)
  /\ ([false] !!! 0%nat = true -> kcLAIboundary !!! 0%nat = 1000)
  /\ ([false] !!! 0%nat = false ->
      kcLAIboundary !!! 0%nat
      = 0.5 * CalcLAI.interpLAI unitGrid (mkVector 0 0 0))
  /\ (forall k, 0 < k ->
        0 < exp (- (k * 1000)) < 1 / (1 + k * 1000)).
Proof.
  intros start LAI kcLAIboundary.
  pose proof (C6_shadowed_and_sunlit_elements unitGrid (mkVector 0 0 0)
                [2] [mkVector 0 0 0] [true] 0 0.5 1 [0%nat] [1%nat]
                [mkVector 0 0 0] [false] start) as H.
  cbv zeta in H. rewrite unitGrid_one_cell in H.
  apply H.
  - reflexivity.
  - simpl. lia.
  - unfold boundaryVisits. simpl. apply list_elem_of_here.
  - simpl. apply unitGrid_origin_inside.
  - simpl. lia.
Defined.

(** C6, as stated, fails for a cell without vegetation: its ray hits an
    obstruction and its LAI stays 0 instead of 1000. *)
Lemma C6_bare_cell_counterexample :
  CalcLAI.insideCellIList unitGrid (mkVector 0 0 0) [0] [mkVector 0 0 0]
  = [0%nat]
  /\ [true] !!! 0%nat = true
  /\ CalcLAI.cellLAI true unitGrid (mkVector 0 0 0) [0] [mkVector 0 0 0]
       [true] !!! 0%nat = 0
  /\ CalcLAI.cellLAI true unitGrid (mkVector 0 0 0) [0] [mkVector 0 0 0]
       [true] !!! 0%nat <> 1000.
Proof.
  pose proof (cellLAI_cases unitGrid (mkVector 0 0 0) [0] [mkVector 0 0 0]
                [true] 0) as H.
  cbv zeta in H. rewrite unitGrid_one_cell in H.
  destruct H as (_ & _ & Hbare); [done | simpl; lia |].
  simpl in Hbare.
  assert (H0 : CalcLAI.cellLAI true unitGrid (mkVector 0 0 0) [0]
                 [mkVector 0 0 0] [true] !!! 0%nat = 0).
  { apply Hbare; [done|]. unfold SMALL. lra. }
  split; [apply unitGrid_one_cell|]. split; [done|]. split; [done|].
  rewrite H0. lra.
Qed.

(** ** The leaf-temperature iteration *)



Section LeafTemperature.
Import SimplifiedVegetation.
Context (nEvapSides : R) (cells : list cell) (Tl0 Tn0 : scalarField).

#[local] Abbreviation balance c :=
  (leafBalance nEvapSides (cells !!! c) (Tl0 !!! c)).



End LeafTemperature.

Section LeafLoop.
Import SimplifiedVegetation.
Context (nEvapSides Tl_relax Tl_residualControl : R) (cells : list cell).



End LeafLoop.

(** ** The grass-temperature iteration *)





Section GrassLoop.
Import SimpleGrass.
Context (nEvapSides LAI Tg_relax Tg_residualControl : R).
Context (faces : list face).




End GrassLoop.




(** ** The right-hand sides of the radiosity systems *)

Lemma sumList_snoc (l : list R) (x : R) : sumList (l ++ [x]) = sumList l + x.
Proof. unfold sumList. by rewrite fold_left_app. Qed.

Lemma sumList_cons (x : R) (l : list R) : sumList (x :: l) = x + sumList l.
Proof. unfold sumList. simpl. rewrite fold_left_Rplus_acc. lra. Qed.

(** A loop that adds [a j] on the diagonal and [b j] elsewhere. *)
Lemma fold_left_diagonal (i n : nat) (a b : nat -> R) :
  fold_left (fun qi j => if Nat.eqb i j then qi + a j else qi + b j)
            (seq 0 n) 0
  = sumList (map b (seq 0 n))
    + (if bool_decide (i < n)%nat then a i - b i else 0).
Proof.
  induction n as [|n IH]; [simpl; unfold sumList; simpl; lra|].
  rewrite fold_left_seq_S, IH, seq_S, map_app. cbn [map].
  rewrite sumList_snoc. simpl.
  destruct (Nat.eqb_spec i n) as [->|Hne].
  - rewrite bool_decide_eq_false_2 by lia.
    rewrite bool_decide_eq_true_2 by lia. lra.
  - destruct (decide (i < n)%nat).
    + rewrite !bool_decide_eq_true_2 by lia. lra.
    + rewrite !bool_decide_eq_false_2 by lia. lra.
Qed.

(** X1. directAndDiffuse::calculate: the right-hand side of element i is
    its own irradiance Isol(i) minus the sum of the external fluxes
    qsExt of all elements, since the loop over j subtracts qsExt[j] on
    and off the diagonal. *)
Theorem X1_shortwave_rhs_closed_form (n : nat) (isol : nat -> R)
  (qsExt : scalarField) (i : nat) :
  (i < n)%nat ->
  DirectAndDiffuse.rhs n isol qsExt !!! i
  = isol i - sumList (map (fun j => qsExt !!! j) (seq 0 n)).
Proof.
  intros Hi. unfold DirectAndDiffuse.rhs.
  rewrite lookup_total_map by (by rewrite length_seq).
  rewrite lookup_total_seq_lt by done. simpl.
  rewrite (fold_left_diagonal i n
             (fun j => (-1) * (- isol j) - qsExt !!! j)
             (fun j => 0 - qsExt !!! j)).
  rewrite bool_decide_eq_true_2 by done.
  assert (Hs : forall l : list nat,
             sumList (map (fun j => 0 - qsExt !!! j) l)
             = - sumList (map (fun j => qsExt !!! j) l)).
  { induction l as [|x l IHl]; [unfold sumList; simpl; lra|].
    simpl. rewrite !sumList_cons, IHl. lra. }
  rewrite Hs. lra.
Qed.

Lemma X1_shortwave_rhs_closed_form_witness :
  DirectAndDiffuse.rhs 2 (fun j => INR j) [5; 7] !!! 1%nat
  = INR 1 - sumList (map (fun j => [5; 7] !!! j) (seq 0 2)).
Proof. apply (X1_shortwave_rhs_closed_form 2 (fun j => INR j) [5; 7] 1). lia.
Defined.

(** The long-wave right-hand side as a sum. *)
Lemma longwave_rhs_sum (n : nat) (sigma : R) (T4 qrExt : scalarField)
  (Fmatrix : scalarSquareMatrix) (i : nat) :
  (i < n)%nat ->
  ViewFactorSky.rhs n sigma T4 qrExt Fmatrix !!! i
  = sumList (map (fun j => entry Fmatrix i j * (sigma * T4 !!! j))
                 (seq 0 n))
    - sigma * T4 !!! i - qrExt !!! i.
Proof.
  intros Hi. unfold ViewFactorSky.rhs.
  rewrite lookup_total_map by (by rewrite length_seq).
  rewrite lookup_total_seq_lt by done. simpl.
  rewrite (fold_left_diagonal i n
             (fun j => (entry Fmatrix i j - 1) * (sigma * T4 !!! j)
                       - qrExt !!! j)
             (fun j => entry Fmatrix i j * (sigma * T4 !!! j))).
  rewrite bool_decide_eq_true_2 by done. lra.
Qed.

(** X2. viewFactorSky::calculate: in an enclosure at uniform temperature
    (T4[j] = t4 for every element) the right-hand side of an element
    whose view-factor row sums to 1 is minus its external flux: the
    emitted and the received black-body radiation cancel. *)
Theorem X2_isothermal_enclosure_rhs (n : nat) (sigma t4 : R)
  (T4 qrExt : scalarField) (Fmatrix : scalarSquareMatrix) (i : nat) :
  (i < n)%nat ->
  (forall j, (j < n)%nat -> T4 !!! j = t4) ->
  sumList (map (fun j => entry Fmatrix i j) (seq 0 n)) = 1 ->
  ViewFactorSky.rhs n sigma T4 qrExt Fmatrix !!! i = - qrExt !!! i.
Proof.
  intros Hi HT Hrow. rewrite longwave_rhs_sum by done.
  assert (Hs : sumList (map (fun j => entry Fmatrix i j * (sigma * T4 !!! j))
                            (seq 0 n))
               = sumList (map (fun j => entry Fmatrix i j) (seq 0 n))
                 * (sigma * t4)).
  { rewrite <- sumList_scale, map_map. f_equal.
    apply map_ext_in. intros j Hj. apply in_seq in Hj.
    rewrite HT by lia. done. }
  rewrite Hs, Hrow, HT by done. lra.
Qed.

Lemma X2_isothermal_enclosure_rhs_witness :
  ViewFactorSky.rhs 2 1 [16; 16] [3; 4] [[0.25; 0.75]; [0.5; 0.5]] !!! 0%nat
  = - [3; 4] !!! 0%nat.
Proof.
  apply (X2_isothermal_enclosure_rhs 2 1 16 [16; 16] [3; 4]
           [[0.25; 0.75]; [0.5; 0.5]] 0).
  - lia.
  - intros [|[|j]] Hj; try lia; reflexivity.
  - unfold sumList, entry. simpl. lra.
Defined.

(** ** The search for the sun-position range *)

Section RangeSearch.
Import DirectAndDiffuse.

(** The loop on a table whose first entries [pre] are all at or before
    the query time and whose next entry, if any, is after it. *)
Lemma rangeLoop_split (t : R) (pre post : list R) :
  forall (i lo hi : nat),
    (forall xi, xi ∈ pre -> t >= xi) ->
    match post with [] => True | y :: _ => t < y end ->
    rangeLoop t (pre ++ post) i lo hi
    = match pre, post with
      | [], [] => (lo, hi)
      | [], _ :: _ => (lo, i)
      | _ :: _, [] => ((i + length pre - 1)%nat, (i + length pre - 1)%nat)
      | _ :: _, _ :: _ => ((i + length pre - 1)%nat, (i + length pre)%nat)
      end.
Proof.
  induction pre as [|x pre IH]; intros i lo hi Hpre Hpost.
  - destruct post as [|y post]; [done|]. simpl.
    assert (Hlt : Rgeb t y = false) by (by apply Rgeb_false).
    by rewrite Hlt.
  - simpl.
    assert (Hge : Rgeb t x = true).
    { apply Rgeb_true. apply Hpre. by left. }
    rewrite Hge, IH; [|intros xi Hxi; apply Hpre; by right|done].
    destruct pre as [|x' pre], post as [|y post]; simpl;
      f_equal; lia.
Qed.

Lemma findRange_before (t x0 : R) (rest : list R) :
  t < x0 -> findRange t (x0 :: rest) = (0%nat, 0%nat).
Proof.
  intros Hlt. unfold findRange.
  apply (rangeLoop_split t [] (x0 :: rest) 0%nat 0%nat 0%nat); [|done].
  intros xi Hxi. inversion Hxi.
Qed.

Lemma findRange_after (t : R) (x : list R) :
  (forall xi, xi ∈ x -> t >= xi) ->
  findRange t x = ((length x - 1)%nat, (length x - 1)%nat).
Proof.
  intros Hall. unfold findRange.
  rewrite <- (app_nil_r x) at 1.
  rewrite (rangeLoop_split t x [] 0 0 0) by done.
  destruct x; simpl; [done|]. f_equal; lia.
Qed.

Lemma Forall_elem_of_take_sorted (x : list R) (k : nat) (a : R) :
  StronglySorted Rlt x -> x !! k = Some a ->
  forall xi, xi ∈ take (S k) x -> xi <= a.
Proof.
  revert k. induction x as [|y x IH]; intros k Hs Hk xi Hxi; [done|].
  apply StronglySorted_inv in Hs as [Hs Hall].
  destruct k as [|k]; simpl in *.
  - inversion Hk; subst. rewrite take_0 in Hxi.
    apply list_elem_of_singleton in Hxi. lra.
  - apply elem_of_cons in Hxi as [->|Hxi].
    + rewrite List.Forall_forall in Hall.
      apply Rlt_le, Hall, list_elem_of_In.
      by eapply list_elem_of_lookup_2.
    + by apply (IH k).
Qed.

Lemma findRange_between (t a b : R) (x : list R) (k : nat) :
  StronglySorted Rlt x -> x !! k = Some a -> x !! S k = Some b ->
  a <= t < b ->
  findRange t x = (k, S k).
Proof.
  intros Hs Hk HSk [Hat Htb]. unfold findRange.
  rewrite <- (take_drop (S k) x).
  assert (Hpost : exists post, drop (S k) x = b :: post).
  { exists (drop (S (S k)) x). by apply drop_S. }
  destruct Hpost as [post Hpost]. rewrite Hpost.
  assert (Hlen : length (take (S k) x) = S k).
  { rewrite length_take. apply lookup_lt_Some in HSk. lia. }
  rewrite (rangeLoop_split t (take (S k) x) (b :: post) 0 0 0).
  - destruct (take (S k) x) as [|y pre] eqn:E; simpl in *; [lia|].
    f_equal; lia.
  - intros xi Hxi. apply Rle_ge.
    apply Rle_trans with a; [|done].
    by apply (Forall_elem_of_take_sorted x k a).
  - done.
Qed.

End RangeSearch.

(** X3. The range search of directAndDiffuse::calculate and of
    simplifiedVegetation::radiation clamps a query time outside the
    table: before the first time stamp lo = hi = 0, at or after every
    stamp lo = hi = the last index; in both cases hi_fraction is 0 and
    the irradiance is the one stored at that entry. *)
Theorem X3_time_outside_table_is_clamped (t x0 : R) (rest : list R)
  (sky sun : list scalarList) (j : nat) :
  let x := x0 :: rest in
  let lo := (DirectAndDiffuse.findRange t x).1 in
  let hi := (DirectAndDiffuse.findRange t x).2 in
  let frac := DirectAndDiffuse.hi_fraction t x in
  (t < x0 ->
   lo = 0%nat /\ hi = 0%nat /\ frac = 0
   /\ DirectAndDiffuse.Isol sky sun lo hi frac j
      = (sky !!! 0%nat) !!! j + (sun !!! 0%nat) !!! j)
  /\ ((forall xi, xi ∈ x -> t >= xi) ->
      lo = length rest /\ hi = length rest /\ frac = 0
      /\ DirectAndDiffuse.Isol sky sun lo hi frac j
         = (sky !!! length rest) !!! j + (sun !!! length rest) !!! j).
Proof.
  intros x lo hi frac. split.
  - intros Hlt.
    assert (Hr : DirectAndDiffuse.findRange t x = (0%nat, 0%nat))
      by (by apply findRange_before).
    unfold lo, hi, frac, DirectAndDiffuse.hi_fraction. rewrite Hr. simpl.
    repeat split; try done. unfold DirectAndDiffuse.Isol. lra.
  - intros Hall.
    assert (Hr : DirectAndDiffuse.findRange t x
                 = (length rest, length rest)).
    { rewrite (findRange_after t x Hall). simpl.
      by rewrite Nat.sub_0_r. }
    unfold lo, hi, frac, DirectAndDiffuse.hi_fraction. rewrite Hr. simpl.
    rewrite Nat.eqb_refl.
    repeat split; try done. unfold DirectAndDiffuse.Isol. lra.
Qed.

Lemma X3_time_outside_table_is_clamped_witness :
  (DirectAndDiffuse.findRange (-5) [0; 3600]).1 = 0%nat
  /\ (DirectAndDiffuse.findRange 9000 [0; 3600]).1 = 1%nat.
Proof.
  split.
  - apply (proj1 (X3_time_outside_table_is_clamped (-5) 0 [3600] [] [] 0)).
    lra.
  - apply (proj2 (X3_time_outside_table_is_clamped 9000 0 [3600] [] [] 0)).
    intros xi Hxi. apply elem_of_cons in Hxi as [->|Hxi]; [lra|].
    apply list_elem_of_singleton in Hxi. lra.
Defined.

(** X4. Between two consecutive time stamps a <= t < b of a strictly
    increasing table the range search gives lo = k and hi = k + 1,
    hi_fraction is (t - a)/(b - a), a number in [0, 1), and an
    interpolated coefficient lies between the two stored values. *)
Theorem X4_time_between_stamps_interpolates (t a b : R) (x : list R)
  (k : nat) (coeff : list scalarList) (j : nat) :
  StronglySorted Rlt x -> x !! k = Some a -> x !! S k = Some b ->
  a <= t < b ->
  let frac := DirectAndDiffuse.hi_fraction t x in
  let v := DirectAndDiffuse.interpolated coeff k (S k) frac j in
  DirectAndDiffuse.findRange t x = (k, S k)
  /\ frac = (t - a) / (b - a)
  /\ 0 <= frac < 1
  /\ Rmin ((coeff !!! k) !!! j) ((coeff !!! S k) !!! j) <= v
     <= Rmax ((coeff !!! k) !!! j) ((coeff !!! S k) !!! j).
Proof.
  intros Hs Hk HSk Hab frac v.
  assert (Hr : DirectAndDiffuse.findRange t x = (k, S k))
    by (by apply (findRange_between t a b)).
  assert (Hf : frac = (t - a) / (b - a)).
  { unfold frac, DirectAndDiffuse.hi_fraction. rewrite Hr.
    replace (Nat.eqb k (S k)) with false
      by (symmetry; apply Nat.eqb_neq; lia).
    by rewrite (lookup_total_of_Some x k a Hk),
         (lookup_total_of_Some x (S k) b HSk). }
  assert (Hrange : 0 <= frac < 1).
  { rewrite Hf. split.
    - apply Rmult_le_pos; [lra|]. left. apply Rinv_0_lt_compat. lra.
    - apply Rmult_lt_reg_r with (b - a); [lra|].
      unfold Rdiv. rewrite Rmult_assoc, Rinv_l by lra. lra. }
  repeat split; try done; try lra.
  - unfold v, DirectAndDiffuse.interpolated.
    set (c0 := (coeff !!! k) !!! j). set (c1 := (coeff !!! S k) !!! j).
    generalize dependent frac. intros frac _ _ Hrange.
    unfold Rmin. destruct (Rle_dec c0 c1); nra.
  - unfold v, DirectAndDiffuse.interpolated.
    set (c0 := (coeff !!! k) !!! j). set (c1 := (coeff !!! S k) !!! j).
    generalize dependent frac. intros frac _ _ Hrange.
    unfold Rmax. destruct (Rle_dec c0 c1); nra.
Qed.

Lemma X4_time_between_stamps_interpolates_witness :
  let x := [0; 3600; 7200] in
  let coeff := [[10]; [30]; [50]] in
  let frac := DirectAndDiffuse.hi_fraction 900 x in
  let v := DirectAndDiffuse.interpolated coeff 0 1 frac 0 in
  DirectAndDiffuse.findRange 900 x = (0%nat, 1%nat)
  /\ frac = (900 - 0) / (3600 - 0)
  /\ 0 <= frac < 1
  /\ Rmin 10 30 <= v <= Rmax 10 30.
Proof.
  apply (X4_time_between_stamps_interpolates 900 0 3600 [0; 3600; 7200] 0
           [[10]; [30]; [50]] 0).
  - repeat (constructor; [|repeat (constructor; try lra)]). constructor.
  - reflexivity.
  - reflexivity.
  - lra.
Defined.

(** ** Assembling the global tables *)

Lemma fold_left_map_arg {S A B : Type} (f : S -> B -> S) (h : A -> B)
  (l : list A) (s : S) :
  fold_left f (map h l) s = fold_left (fun s a => f s (h a)) l s.
Proof. revert s. induction l as [|a l IH]; intros s; simpl; [done|apply IH]. Qed.

(** A loop nest is a loop over the pairs of its indices, in its order. *)
Lemma fold_left_nested {S A B : Type} (g : A -> S -> B -> S)
  (ys : A -> list B) (xs : list A) (s : S) :
  fold_left (fun s a => fold_left (g a) (ys a) s) xs s
  = fold_left (fun s (p : A * B) => g p.1 s p.2)
              (flat_map (fun a => map (pair a) (ys a)) xs) s.
Proof.
  revert s. induction xs as [|a xs IH]; intros s; simpl; [done|].
  rewrite fold_left_app, fold_left_map_arg. simpl. apply IH.
Qed.

Lemma elem_of_index_pairs (ys : nat -> list nat) (n : nat) (a b : nat) :
  (a, b) ∈ flat_map (fun a => map (pair a) (ys a)) (seq 0 n)
  <-> (a < n)%nat /\ b ∈ ys a.
Proof.
  rewrite list_elem_of_In, in_flat_map. split.
  - intros (a' & Ha' & Hin). apply in_map_iff in Hin as (b' & Heq & Hb').
    inversion Heq; subst. apply in_seq in Ha'.
    split; [lia|by apply list_elem_of_In].
  - intros [Ha Hb]. exists a. split; [apply in_seq; lia|].
    apply in_map_iff. exists b. split; [done|by apply list_elem_of_In].
Qed.

Lemma elem_of_seq_0 (n i : nat) : i ∈ seq 0 n <-> (i < n)%nat.
Proof. rewrite list_elem_of_In, in_seq. lia. Qed.

Section SetEntries.
Context {P : Type} (r c : P -> nat) (v : P -> R).

Lemma length_setEntry (M : list (list R)) (i j : nat) (x : R) :
  length (setEntry M i j x) = length M.
Proof. unfold setEntry. apply length_insert. Qed.

Lemma length_row_setEntry (M : list (list R)) (i j : nat) (x : R)
  (k : nat) :
  length (setEntry M i j x !!! k) = length (M !!! k).
Proof.
  unfold setEntry. destruct (decide (k = i)) as [->|Hne].
  - destruct (decide (i < length M)%nat).
    + rewrite list_lookup_total_insert_eq by done. apply length_insert.
    + by rewrite list_insert_ge by lia.
  - by rewrite list_lookup_total_insert_ne.
Qed.

Lemma entry_setEntry_eq (M : list (list R)) (i j : nat) (x : R) :
  (i < length M)%nat -> (j < length (M !!! i))%nat ->
  entry (setEntry M i j x) i j = x.
Proof.
  intros Hi Hj. unfold entry, setEntry.
  rewrite list_lookup_total_insert_eq by done.
  by rewrite list_lookup_total_insert_eq.
Qed.

Lemma entry_setEntry_ne (M : list (list R)) (i j : nat) (x : R)
  (a b : nat) :
  (a = i -> b <> j) -> entry (setEntry M i j x) a b = entry M a b.
Proof.
  intros Hne. unfold entry, setEntry.
  destruct (decide (a = i)) as [->|Hai].
  - destruct (decide (i < length M)%nat).
    + rewrite list_lookup_total_insert_eq by done.
      rewrite list_lookup_total_insert_ne; [done|].
      intros Heq. by apply Hne.
    + by rewrite list_insert_ge by lia.
  - by rewrite list_lookup_total_insert_ne.
Qed.

(** A sequence of writes [M[r p][c p] = v p]: the shape is kept, an
    entry that no write addresses is kept, and an entry that is
    addressed holds the value written if all writes to it agree. *)
Lemma fold_setEntry (ps : list P) (M : list (list R)) :
  let M' := fold_left (fun M p => setEntry M (r p) (c p) (v p)) ps M in
  length M' = length M
  /\ (forall k, length (M' !!! k) = length (M !!! k))
  /\ (forall a b, (forall p, p ∈ ps -> r p = a -> c p <> b) ->
                  entry M' a b = entry M a b)
  /\ (forall p, p ∈ ps ->
                (forall p', p' ∈ ps -> r p' = r p -> c p' = c p ->
                            v p' = v p) ->
                (r p < length M)%nat -> (c p < length (M !!! r p))%nat ->
                entry M' (r p) (c p) = v p).
Proof.
  induction ps as [|p0 ps IH] using rev_ind; simpl.
  - repeat split; try done. intros p Hp. inversion Hp.
  - rewrite fold_left_app. simpl.
    destruct IH as (Hlen & Hrow & Hframe & Hval).
    set (M1 := fold_left (fun M p => setEntry M (r p) (c p) (v p)) ps M)
      in *.
    split; [by rewrite length_setEntry|].
    split; [intros k; by rewrite length_row_setEntry|].
    split.
    + intros a b Hab. rewrite entry_setEntry_ne.
      * apply Hframe. intros p Hp. apply Hab.
        apply elem_of_app. by left.
      * intros Ha Hb. apply (Hab p0); [|done..].
        apply elem_of_app. right. by apply list_elem_of_singleton.
    + intros p Hp Hagree Hr Hc.
      destruct (decide (r p0 = r p /\ c p0 = c p)) as [[Hr0 Hc0]|Hne].
      * rewrite <- Hr0, <- Hc0, entry_setEntry_eq.
        -- apply Hagree; [|done..].
           apply elem_of_app. right. by apply list_elem_of_singleton.
        -- rewrite Hlen, Hr0. done.
        -- rewrite Hrow, Hr0, Hc0. done.
      * rewrite entry_setEntry_ne by (intros Heq Heq'; apply Hne; done).
        apply elem_of_app in Hp as [Hp|Hp].
        -- apply Hval; [done| |done..].
           intros p' Hp'. apply Hagree. apply elem_of_app. by left.
        -- apply list_elem_of_singleton in Hp. subst p0.
           exfalso. by apply Hne.
Qed.

End SetEntries.

Lemma toGlobal_inj (localSizes : list nat) (proci i i' : nat) :
  toGlobal localSizes proci i = toGlobal localSizes proci i' -> i = i'.
Proof. unfold toGlobal. lia. Qed.

Lemma insertMatrixElements_flat (gn : list nat) (proci : nat)
  (gff : list (list nat)) (vfs : list scalarList)
  (F : scalarSquareMatrix) :
  ViewFactorSky.insertMatrixElements gn proci gff vfs F
  = fold_left
      (fun M (p : nat * nat) =>
         setEntry M (toGlobal gn proci p.1) ((gff !!! p.1) !!! p.2)
           ((vfs !!! p.1) !!! p.2))
      (flat_map (fun facei =>
                   map (pair facei) (seq 0 (length (gff !!! facei))))
                (seq 0 (length vfs))) F.
Proof.
  unfold ViewFactorSky.insertMatrixElements.
  by rewrite (fold_left_nested
                (fun facei M i =>
                   setEntry M (toGlobal gn proci facei)
                     ((gff !!! facei) !!! i) ((vfs !!! facei) !!! i))
                (fun facei => seq 0 (length (gff !!! facei)))).
Qed.

(** X5. insertMatrixElements (viewFactorSky.C and directAndDiffuse.C):
    when the neighbour list of every face names each column once, the
    entry at (global number of the face, i-th neighbour) holds the i-th
    view factor of the face after the call, and an entry that no
    (face, neighbour) pair addresses keeps its value (zero in
    initialise). *)
Theorem X5_insertMatrixElements_lookup (gn : list nat) (proci : nat)
  (gff : list (list nat)) (vfs : list scalarList)
  (F : scalarSquareMatrix) :
  (forall facei, (facei < length vfs)%nat -> NoDup (gff !!! facei)) ->
  let F' := ViewFactorSky.insertMatrixElements gn proci gff vfs F in
  (forall facei i,
      (facei < length vfs)%nat -> (i < length (gff !!! facei))%nat ->
      (toGlobal gn proci facei < length F)%nat ->
      ((gff !!! facei) !!! i
       < length (F !!! toGlobal gn proci facei))%nat ->
      entry F' (toGlobal gn proci facei) ((gff !!! facei) !!! i)
      = (vfs !!! facei) !!! i)
  /\ (forall a b,
         (forall facei, (facei < length vfs)%nat ->
                        toGlobal gn proci facei = a ->
                        b ∉ gff !!! facei) ->
         entry F' a b = entry F a b).
Proof.
  intros Hnd F'. unfold F'. rewrite insertMatrixElements_flat.
  destruct (fold_setEntry
              (fun p : nat * nat => toGlobal gn proci p.1)
              (fun p : nat * nat => (gff !!! p.1) !!! p.2)
              (fun p : nat * nat => (vfs !!! p.1) !!! p.2)
              (flat_map (fun facei =>
                           map (pair facei)
                               (seq 0 (length (gff !!! facei))))
                        (seq 0 (length vfs))) F)
    as (_ & _ & Hframe & Hval).
  split.
  - intros facei i Hf Hi Hr Hc.
    apply (Hval (facei, i)); simpl; [| |done..].
    + apply elem_of_index_pairs. split; [done|]. by apply elem_of_seq_0.
    + intros [f' i'] Hp' Hr' Hc'. simpl in *.
      apply toGlobal_inj in Hr'. subst f'.
      apply elem_of_index_pairs in Hp' as [_ Hi'].
      apply elem_of_seq_0 in Hi'.
      destruct (decide (i' = i)) as [->|Hne]; [done|].
      exfalso. revert Hc'.
      apply NoDup_lookup_total_ne; [by apply Hnd|done..].
  - intros a b Hab. apply Hframe.
    intros [f i] Hp Hr Hc. simpl in *.
    apply elem_of_index_pairs in Hp as [Hf Hi].
    apply elem_of_seq_0 in Hi.
    apply (Hab f Hf Hr). rewrite <- Hc.
    by apply list_elem_of_lookup_total_2.
Qed.

Lemma X5_insertMatrixElements_lookup_witness :
  let F' := ViewFactorSky.insertMatrixElements [2%nat] 0
              [[1%nat; 0%nat]; [0%nat]] [[0.3; 0.7]; [1]]
              [[0; 0]; [0; 0]] in
  entry F' 0 1 = 0.3 /\ entry F' 1 1 = 0.
Proof.
  pose proof (X5_insertMatrixElements_lookup [2%nat] 0
                [[1%nat; 0%nat]; [0%nat]] [[0.3; 0.7]; [1]]
                [[0; 0]; [0; 0]]) as H.
  destruct H as [Hval Hframe].
  - intros [|[|f]] Hf; simpl in *; try lia.
    + apply NoDup_cons. split; [|apply NoDup_singleton].
      intros Hin. apply list_elem_of_singleton in Hin. done.
    + apply NoDup_singleton.
  - split.
    + apply (Hval 0%nat 0%nat); cbv; lia.
    + apply (Hframe 1%nat 1%nat).
      intros [|[|f]] Hf Hg; cbv in Hf, Hg; try lia. simpl.
      intros Hin. apply list_elem_of_singleton in Hin. done.
Defined.

Lemma insertScalarListListElements_flat (gn : list nat) (procI : nat)
  (sunskyMap gff : list (list nat)) (localCoeffs G : list scalarList)
  (coarseOrFine : string) :
  DirectAndDiffuse.insertScalarListListElements gn procI sunskyMap gff
    localCoeffs G coarseOrFine
  = fold_left
      (fun M (p : nat * nat) =>
         setEntry M p.1
           (if String.eqb coarseOrFine "coarse"
            then (sunskyMap !!! procI) !!! p.2
            else toGlobal gn procI p.2)
           ((localCoeffs !!! p.1) !!! p.2))
      (flat_map (fun vectorId =>
                   map (pair vectorId)
                       (seq 0 (length (localCoeffs !!! vectorId))))
                (seq 0 (length localCoeffs))) G.
Proof.
  unfold DirectAndDiffuse.insertScalarListListElements.
  rewrite (fold_left_nested
             (fun vectorId M faceI =>
                if String.eqb coarseOrFine "coarse"
                then setEntry M vectorId ((sunskyMap !!! procI) !!! faceI)
                       ((localCoeffs !!! vectorId) !!! faceI)
                else setEntry M vectorId (toGlobal gn procI faceI)
                       ((localCoeffs !!! vectorId) !!! faceI))
             (fun vectorId => seq 0 (length (localCoeffs !!! vectorId)))).
  f_equal. by destruct (String.eqb coarseOrFine "coarse").
Qed.

(** X6. insertScalarListListElements: for a table of fine faces the
    coefficient of local face faceI at sun position vectorId is found at
    the global number of that face; for a table of coarse faces it is
    found at sunskyMap[procI][faceI], provided the map of the process
    names no position twice. *)
Theorem X6_insertScalarListListElements_lookup (gn : list nat)
  (procI : nat) (sunskyMap gff : list (list nat))
  (localCoeffs G : list scalarList) (coarseOrFine : string)
  (vectorId faceI : nat) :
  let position :=
    if String.eqb coarseOrFine "coarse"
    then (sunskyMap !!! procI) !!! faceI else toGlobal gn procI faceI in
  (coarseOrFine = "coarse" ->
   NoDup (sunskyMap !!! procI)
   /\ (length (localCoeffs !!! vectorId)
       <= length (sunskyMap !!! procI))%nat) ->
  (vectorId < length localCoeffs)%nat ->
  (faceI < length (localCoeffs !!! vectorId))%nat ->
  (vectorId < length G)%nat -> (position < length (G !!! vectorId))%nat ->
  entry (DirectAndDiffuse.insertScalarListListElements gn procI sunskyMap
           gff localCoeffs G coarseOrFine) vectorId position
  = (localCoeffs !!! vectorId) !!! faceI.
Proof.
  intros position Hmap Hv Hf HvG Hpos.
  rewrite insertScalarListListElements_flat.
  destruct (fold_setEntry
              (fun p : nat * nat => p.1)
              (fun p : nat * nat =>
                 if String.eqb coarseOrFine "coarse"
                 then (sunskyMap !!! procI) !!! p.2
                 else toGlobal gn procI p.2)
              (fun p : nat * nat => (localCoeffs !!! p.1) !!! p.2)
              (flat_map (fun vectorId =>
                           map (pair vectorId)
                               (seq 0 (length (localCoeffs !!! vectorId))))
                        (seq 0 (length localCoeffs))) G)
    as (_ & _ & _ & Hval).
  apply (Hval (vectorId, faceI)); simpl; [| |done..].
  - apply elem_of_index_pairs. split; [done|]. by apply elem_of_seq_0.
  - intros [v' f'] Hp' Hr' Hc'. simpl in *. subst v'.
    apply elem_of_index_pairs in Hp' as [_ Hf'].
    apply elem_of_seq_0 in Hf'.
    destruct (String.eqb_spec coarseOrFine "coarse") as [Heq|Hne].
    + destruct (Hmap Heq) as [Hnd Hlen].
      destruct (decide (f' = faceI)) as [->|Hne]; [done|].
      exfalso. revert Hc'.
      apply NoDup_lookup_total_ne; [done|lia..|done].
    + apply toGlobal_inj in Hc'. by subst f'.
Qed.

Lemma X6_insertScalarListListElements_lookup_witness :
  entry (DirectAndDiffuse.insertScalarListListElements [3%nat] 0
           [[2%nat; 0%nat; 1%nat]] [] [[10; 20; 30]] [[0; 0; 0]] "coarse")
        0 2 = 10.
Proof.
  apply (X6_insertScalarListListElements_lookup [3%nat] 0
           [[2%nat; 0%nat; 1%nat]] [] [[10; 20; 30]] [[0; 0; 0]] "coarse"
           0 0).
  - intros _. split; [|simpl; lia].
    repeat (apply NoDup_cons; split;
            [intros Hin; repeat (apply elem_of_cons in Hin as [Hin|Hin];
                                 [discriminate|]); inversion Hin|]).
    apply NoDup_nil_2.
  - simpl. lia.
  - simpl. lia.
  - simpl. lia.
  - simpl. lia.
Defined.

(** ** The selection of the patches in initialise *)

Section PatchSelection.

(** The patches on which the radiation field is fixedValue. *)
#[local] Abbreviation fixedOf ps :=
  (filter (fun p => isFixedValue p = true) ps).

Lemma fixedOf_snoc (ps : list boundaryPatch) (p : boundaryPatch) :
  fixedOf (ps ++ [p])
  = if isFixedValue p then fixedOf ps ++ [p] else fixedOf ps.
Proof.
  rewrite filter_app. destruct (isFixedValue p) eqn:E.
  - by rewrite filter_cons_True, filter_nil.
  - rewrite filter_cons_False, filter_nil, app_nil_r; [done|].
    rewrite E. done.
Qed.

Lemma length_fixedOf_le (ps : list boundaryPatch) :
  (length (fixedOf ps) <= length ps)%nat.
Proof. apply length_filter. Qed.

(** The state of the loop of directAndDiffuse::initialise after the
    patches [ps] of a mesh with [n] patches. *)
Lemma directAndDiffuse_selectStep_prefix (n : nat)
  (ps : list boundaryPatch) :
  (length ps <= n)%nat ->
  exists nWall nFine,
    fold_left DirectAndDiffuse.selectStep ps
      (replicate n (-1)%Z, replicate n 0%Z, 0%Z, 0%Z, 0%Z, 0%nat)
    = (map patchIndex (fixedOf ps)
         ++ replicate (n - length (fixedOf ps)) (-1)%Z,
       map (fun p => if isWall p then 1%Z else 0%Z) (fixedOf ps)
         ++ replicate (n - length (fixedOf ps)) 0%Z,
       fold_left Z.add (map coarseSize (fixedOf ps)) 0%Z,
       nWall, nFine, length (fixedOf ps)).
Proof.
  induction ps as [|p ps IH] using rev_ind; intros Hn.
  - exists 0%Z, 0%Z. simpl. by rewrite Nat.sub_0_r.
  - rewrite length_app in Hn. simpl in Hn.
    destruct IH as (nWall & nFine & IH); [lia|].
    rewrite fold_left_app, IH. simpl. rewrite fixedOf_snoc.
    pose proof (length_fixedOf_le ps) as Hle.
    unfold DirectAndDiffuse.selectStep.
    destruct (isFixedValue p); [|by exists nWall, nFine].
    set (k := length (fixedOf ps)) in *.
    assert (Hins : forall (A : Type) (l : list A) (d x : A),
               length l = k ->
               <[ k := x ]> (l ++ replicate (n - k) d)
               = (l ++ [x]) ++ replicate (n - S k) d).
    { intros A l d x Hl.
      replace (n - k)%nat with (S (n - S k)) by lia. simpl.
      rewrite insert_app_r_alt by lia.
      rewrite Hl, Nat.sub_diag. simpl. by rewrite <- app_assoc. }
    destruct (isWall p) eqn:Ew.
    + eexists _, _. rewrite !map_app, !length_app. simpl.
      rewrite Ew, fold_left_app. simpl.
      rewrite !Hins by (by rewrite length_map).
      rewrite !Nat.add_1_r. reflexivity.
    + eexists _, _. rewrite !map_app, !length_app. simpl.
      rewrite Ew, fold_left_app. simpl.
      rewrite Hins by (by rewrite length_map).
      rewrite !Nat.add_1_r.
      f_equal. f_equal. f_equal. f_equal.
      replace (n - k)%nat with (S (n - S k)) by lia.
      f_equal. simpl. by rewrite <- app_assoc.
Qed.

End PatchSelection.

(** X7. directAndDiffuse::initialise: with at least one patch on which
    qs is fixedValue, selectedPatches_ ends as the indices of these
    patches in mesh order and nLocalCoarseFaces_ as the sum of their
    coarse sizes, while wallPatchOrNot_ is cut by the second
    resize(count--) to one entry fewer: the wall flag of the last
    selected patch is dropped. *)
Theorem X7_wall_flags_one_entry_short (patches : list boundaryPatch) :
  let fixed := filter (fun p => isFixedValue p = true) patches in
  fixed <> [] ->
  exists s,
    DirectAndDiffuse.selectPatches patches = Ok s
    /\ DirectAndDiffuse.selectedPatches_ s = map patchIndex fixed
    /\ DirectAndDiffuse.wallPatchOrNot_ s
       = take (length fixed - 1)
              (map (fun p => if isWall p then 1%Z else 0%Z) fixed)
    /\ S (length (DirectAndDiffuse.wallPatchOrNot_ s))
       = length (DirectAndDiffuse.selectedPatches_ s)
    /\ DirectAndDiffuse.nLocalCoarseFaces_ s
       = fold_left Z.add (map coarseSize fixed) 0%Z.
Proof.
  intros fixed Hne.
  destruct (directAndDiffuse_selectStep_prefix (length patches) patches)
    as (nWall & nFine & Hfold); [done|].
  unfold DirectAndDiffuse.selectPatches. rewrite Hfold.
  fold fixed.
  assert (Hpos : (0 < length fixed)%nat)
    by (destruct fixed; [done|simpl; lia]).
  unfold resize.
  replace (Z.of_nat (length fixed) <? 0)%Z with false
    by (symmetry; apply Z.ltb_ge; lia).
  replace (Z.of_nat (length fixed) - 1 <? 0)%Z with false
    by (symmetry; apply Z.ltb_ge; lia).
  eexists. split; [reflexivity|]. simpl.
  rewrite Nat2Z.id.
  replace (Z.to_nat (Z.of_nat (length fixed) - 1))
    with (length fixed - 1)%nat by lia.
  assert (H1 : take (length fixed)
                 (map patchIndex fixed
                  ++ replicate (length patches - length fixed) (-1)%Z)
               = map patchIndex fixed).
  { rewrite take_app_le by (rewrite length_map; lia).
    apply take_ge. rewrite length_map. lia. }
  assert (H2 : take (length fixed - 1)
                 (map (fun p => if isWall p then 1%Z else 0%Z) fixed
                  ++ replicate (length patches - length fixed) 0%Z)
               = take (length fixed - 1)
                   (map (fun p => if isWall p then 1%Z else 0%Z) fixed)).
  { apply take_app_le. rewrite length_map. lia. }
  rewrite H1, H2. repeat split; try done.
  rewrite length_take, !length_map. lia.
Qed.

Lemma X7_wall_flags_one_entry_short_witness :
  exists s,
    DirectAndDiffuse.selectPatches
      [mkPatch 0 true true 2 8; mkPatch 1 false false 0 5;
       mkPatch 2 true true 3 9] = Ok s
    /\ DirectAndDiffuse.selectedPatches_ s = [0%Z; 2%Z]
    /\ DirectAndDiffuse.wallPatchOrNot_ s = [1%Z].
Proof.
  destruct (X7_wall_flags_one_entry_short
              [mkPatch 0 true true 2 8; mkPatch 1 false false 0 5;
               mkPatch 2 true true 3 9])
    as (s & Hs & Hsel & Hwall & _); [done|].
  exists s. repeat split; done.
Defined.

(** ** Area weighting over the fine faces *)

Section AreaWeighting.
Context (sf : scalarField) (fineFaces : list nat).

#[local] Abbreviation area :=
  (sumList (map (fun facei => sf !!! facei) fineFaces)).

Lemma sumList_map_div (g : nat -> R) (d : R) (l : list nat) :
  sumList (map (fun f => g f / d) l) = sumList (map g l) / d.
Proof.
  unfold Rdiv. rewrite <- sumList_scale, map_map. done.
Qed.

Lemma sumList_weighted_bounds (val : nat -> R) (lo hi : R) (l : list nat) :
  (forall f, f ∈ l -> 0 <= sf !!! f) ->
  (forall f, f ∈ l -> lo <= val f <= hi) ->
  lo * sumList (map (fun f => sf !!! f) l)
  <= sumList (map (fun f => val f * sf !!! f) l)
  <= hi * sumList (map (fun f => sf !!! f) l).
Proof.
  induction l as [|f l IH]; intros Hs Hv.
  - unfold sumList. simpl. lra.
  - simpl. rewrite !sumList_cons.
    assert (H0 : 0 <= sf !!! f) by (apply Hs; by left).
    assert (H1 : lo <= val f <= hi) by (apply Hv; by left).
    destruct IH as [IH1 IH2];
      [intros g Hg; apply Hs; by right
      |intros g Hg; apply Hv; by right|].
    split; nra.
Qed.

Lemma sumList_pos (l : list nat) :
  l <> [] -> (forall f, f ∈ l -> 0 < sf !!! f) ->
  0 < sumList (map (fun f => sf !!! f) l).
Proof.
  induction l as [|f l IH]; intros Hne Hs; [done|].
  simpl. rewrite sumList_cons.
  assert (H0 : 0 < sf !!! f) by (apply Hs; by left).
  destruct l as [|g l]; [unfold sumList; simpl; lra|].
  assert (0 < sumList (map (fun f => sf !!! f) (g :: l))); [|lra].
  apply IH; [done|]. intros h Hh. apply Hs. by right.
Qed.

(** The three accumulators of viewFactorSky::calculate as sums. *)
Lemma viewFactorSky_coarseAverages_sums (wallPatch grassPatch : bool)
  (cc Ta : R) (Tp Tg_ eb Hoi : scalarField) :
  ViewFactorSky.coarseAverages wallPatch grassPatch cc Ta Tp Tg_ eb Hoi sf
    fineFaces
  = (sumList (map (fun f =>
                     (if negb wallPatch then pow4 (ViewFactorSky.Tsky cc Ta)
                      else if grassPatch then pow4 (Tg_ !!! f)
                           else pow4 (Tp !!! f)) * sf !!! f / area)
                  fineFaces),
     sumList (map (fun f => eb !!! f * sf !!! f / area) fineFaces),
     sumList (map (fun f => Hoi !!! f * sf !!! f / area) fineFaces)).
Proof.
  unfold ViewFactorSky.coarseAverages.
  generalize area. intros A.
  assert (H : forall (l : list nat) (a b c : R),
             fold_left
               (fun '(T4ave, Eave, Hoiave) facei =>
                  (if negb wallPatch
                   then T4ave + pow4 (ViewFactorSky.Tsky cc Ta)
                                * sf !!! facei / A
                   else if grassPatch
                        then T4ave + pow4 (Tg_ !!! facei) * sf !!! facei / A
                        else T4ave + pow4 (Tp !!! facei) * sf !!! facei / A,
                   Eave + eb !!! facei * sf !!! facei / A,
                   Hoiave + Hoi !!! facei * sf !!! facei / A))
               l (a, b, c)
             = (a + sumList (map (fun f =>
                     (if negb wallPatch
                      then pow4 (ViewFactorSky.Tsky cc Ta)
                      else if grassPatch then pow4 (Tg_ !!! f)
                           else pow4 (Tp !!! f)) * sf !!! f / A) l),
                b + sumList (map (fun f => eb !!! f * sf !!! f / A) l),
                c + sumList (map (fun f => Hoi !!! f * sf !!! f / A) l))).
  { induction l as [|f l IH]; intros a b c.
    - unfold sumList. simpl. f_equal; [f_equal|]; lra.
    - simpl. rewrite IH, !sumList_cons.
      destruct (negb wallPatch), grassPatch; (f_equal; [f_equal|]); lra. }
  rewrite H. f_equal; [f_equal|]; lra.
Qed.

Lemma directAndDiffuse_coarseAverages_sums (ab Hoi : scalarField) :
  DirectAndDiffuse.coarseAverages ab Hoi sf fineFaces
  = (sumList (map (fun f => ab !!! f * sf !!! f / area) fineFaces),
     sumList (map (fun f => Hoi !!! f * sf !!! f / area) fineFaces)).
Proof.
  unfold DirectAndDiffuse.coarseAverages.
  generalize area. intros A.
  assert (H : forall (l : list nat) (a b : R),
             fold_left
               (fun '(Aave, Hoiave) faceI =>
                  (Aave + ab !!! faceI * sf !!! faceI / A,
                   Hoiave + Hoi !!! faceI * sf !!! faceI / A))
               l (a, b)
             = (a + sumList (map (fun f => ab !!! f * sf !!! f / A) l),
                b + sumList (map (fun f => Hoi !!! f * sf !!! f / A) l))).
  { induction l as [|f l IH]; intros a b.
    - unfold sumList. simpl. f_equal; lra.
    - simpl. rewrite IH, !sumList_cons. f_equal; lra. }
  rewrite H. f_equal; lra.
Qed.

Lemma weighted_average_bounds (val : nat -> R) (lo hi : R) :
  fineFaces <> [] -> (forall f, f ∈ fineFaces -> 0 < sf !!! f) ->
  (forall f, f ∈ fineFaces -> lo <= val f <= hi) ->
  lo <= sumList (map (fun f => val f * sf !!! f / area) fineFaces) <= hi.
Proof.
  intros Hne Hs Hv.
  rewrite (sumList_map_div (fun f => val f * sf !!! f)).
  pose proof (sumList_pos fineFaces Hne Hs) as Hpos.
  destruct (sumList_weighted_bounds val lo hi fineFaces) as [H1 H2];
    [intros f Hf; left; by apply Hs|done|].
  split.
  - apply Rmult_le_reg_r with area; [done|].
    unfold Rdiv. rewrite Rmult_assoc, Rinv_l by lra. lra.
  - apply Rmult_le_reg_r with area; [done|].
    unfold Rdiv. rewrite Rmult_assoc, Rinv_l by lra. lra.
Qed.

Lemma weighted_constant (x : R) :
  area <> 0 ->
  sumList (map (fun f => x * sf !!! f / area) fineFaces) = x.
Proof.
  intros Harea.
  rewrite (sumList_map_div (fun f => x * sf !!! f)).
  replace (map (fun f => x * sf !!! f) fineFaces)
    with (map (fun y => y * x) (map (fun f => sf !!! f) fineFaces)).
  - rewrite sumList_scale. field. done.
  - rewrite map_map. apply map_ext. intros f. lra.
Qed.

End AreaWeighting.

(** X8. The area weighting of viewFactorSky::calculate and
    directAndDiffuse::calculate: over a coarse face with at least one
    fine face, all of positive area, the averaged emissivity (albedo)
    lies between any two bounds that hold for the fine-face values; in
    particular an albedo below 1 on every fine face stays below 1. *)
Theorem X8_averaged_coefficient_within_bounds
  (wallPatch grassPatch : bool) (cc Ta : R)
  (Tp Tg_ val Hoi sf : scalarField) (fineFaces : list nat) (lo hi : R) :
  fineFaces <> [] ->
  (forall f, f ∈ fineFaces -> 0 < sf !!! f) ->
  (forall f, f ∈ fineFaces -> lo <= val !!! f <= hi) ->
  lo <= (ViewFactorSky.coarseAverages wallPatch grassPatch cc Ta Tp Tg_
           val Hoi sf fineFaces).1.2 <= hi
  /\ lo <= (DirectAndDiffuse.coarseAverages val Hoi sf fineFaces).1 <= hi.
Proof.
  intros Hne Hs Hv.
  rewrite viewFactorSky_coarseAverages_sums,
    directAndDiffuse_coarseAverages_sums. simpl.
  split; by apply (weighted_average_bounds sf fineFaces (fun f => val !!! f)).
Qed.

Lemma X8_averaged_coefficient_within_bounds_witness :
  0.2 <= (ViewFactorSky.coarseAverages true false 0 300 [300; 310] []
            [0.2; 0.4] [0; 0] [1; 3] [0%nat; 1%nat]).1.2 <= 0.4
  /\ 0.2 <= (DirectAndDiffuse.coarseAverages [0.2; 0.4] [0; 0] [1; 3]
               [0%nat; 1%nat]).1 <= 0.4.
Proof.
  apply (X8_averaged_coefficient_within_bounds true false 0 300 [300; 310]
           [] [0.2; 0.4] [0; 0] [1; 3] [0%nat; 1%nat] 0.2 0.4).
  - done.
  - intros f Hf. apply elem_of_cons in Hf as [->|Hf]; [simpl; lra|].
    apply list_elem_of_singleton in Hf. subst. simpl. lra.
  - intros f Hf. apply elem_of_cons in Hf as [->|Hf]; [simpl; lra|].
    apply list_elem_of_singleton in Hf. subst. simpl. lra.
Defined.

(** ** The sky temperature *)

Lemma pow4_Rpower_quarter (x : R) : 0 < x -> pow4 (Rpower x 0.25) = x.
Proof.
  intros Hx. unfold pow4, Rpower.
  rewrite <- !exp_plus.
  replace (0.25 * ln x + 0.25 * ln x + (0.25 * ln x + 0.25 * ln x))
    with (ln x) by lra.
  by apply exp_ln.
Qed.

Lemma cloudEmissivity_pos (cc Ta : R) :
  0 <= cc <= 1 -> 0 < ViewFactorSky.cloudEmissivity cc Ta.
Proof.
  intros Hcc. unfold ViewFactorSky.cloudEmissivity.
  pose proof (exp_pos (8.45 * (1 - 273 / Ta))) as He.
  assert (0 < (1 - 0.84 * cc)
              * (0.527 + 0.161 * exp (8.45 * (1 - 273 / Ta)))).
  { apply Rmult_lt_0_compat; lra. }
  lra.
Qed.

Lemma Tsky_argument_pos (cc Ta : R) :
  0 < Ta -> 0 <= cc <= 1 ->
  0 < 9.365574E-6 * (1 - cc) * Ta ^ 6
      + Ta ^ 4 * cc * ViewFactorSky.cloudEmissivity cc Ta.
Proof.
  intros HTa Hcc.
  pose proof (cloudEmissivity_pos cc Ta Hcc) as Hec.
  assert (H6 : 0 < Ta ^ 6) by (apply pow_lt; done).
  assert (H4 : 0 < Ta ^ 4) by (apply pow_lt; done).
  destruct (Rle_lt_dec 1 cc) as [H1|H1].
  - assert (cc = 1) by lra. subst cc.
    assert (0 < Ta ^ 4 * 1 * ViewFactorSky.cloudEmissivity 1 Ta).
    { apply Rmult_lt_0_compat; [lra|done]. }
    lra.
  - assert (0 < 9.365574E-6 * (1 - cc) * Ta ^ 6).
    { apply Rmult_lt_0_compat; [|done].
      apply Rmult_lt_0_compat; lra. }
    assert (0 <= Ta ^ 4 * cc * ViewFactorSky.cloudEmissivity cc Ta).
    { apply Rmult_le_pos; [|lra]. apply Rmult_le_pos; lra. }
    lra.
Qed.

(** X9. viewFactorSky::calculate on a patch that is not a wall: for a
    positive ambient temperature and a cloud cover in [0, 1] the
    averaged fourth power of the temperature of every coarse face is
    Tsky^4 = 9.365574e-6 (1 - cc) Ta^6 + cc ec Ta^4, whatever the
    surface temperatures and the areas of its fine faces (their sum
    being non-zero); under a clear sky (cc = 0) this is Swinbank's
    9.365574e-6 Ta^6. *)
Theorem X9_sky_patch_radiates_at_sky_temperature (grassPatch : bool)
  (cc Ta : R) (Tp Tg_ eb Hoi sf : scalarField) (fineFaces : list nat) :
  0 < Ta -> 0 <= cc <= 1 ->
  sumList (map (fun facei => sf !!! facei) fineFaces) <> 0 ->
  (ViewFactorSky.coarseAverages false grassPatch cc Ta Tp Tg_ eb Hoi sf
     fineFaces).1.1
  = 9.365574E-6 * (1 - cc) * Ta ^ 6
    + Ta ^ 4 * cc * ViewFactorSky.cloudEmissivity cc Ta
  /\ (cc = 0 ->
      (ViewFactorSky.coarseAverages false grassPatch cc Ta Tp Tg_ eb Hoi
         sf fineFaces).1.1 = 9.365574E-6 * Ta ^ 6).
Proof.
  intros HTa Hcc Harea.
  assert (Hmain :
    (ViewFactorSky.coarseAverages false grassPatch cc Ta Tp Tg_ eb Hoi sf
       fineFaces).1.1
    = 9.365574E-6 * (1 - cc) * Ta ^ 6
      + Ta ^ 4 * cc * ViewFactorSky.cloudEmissivity cc Ta).
  { rewrite viewFactorSky_coarseAverages_sums. cbn [fst snd negb].
    unfold ViewFactorSky.Tsky.
    rewrite pow4_Rpower_quarter by (by apply Tsky_argument_pos).
    by apply weighted_constant. }
  split; [done|]. intros ->. rewrite Hmain. lra.
Qed.

Lemma X9_sky_patch_radiates_at_sky_temperature_witness :
  (ViewFactorSky.coarseAverages false false 0 300 [] [] [] [] [1; 3]
     [0%nat; 1%nat]).1.1
  = 9.365574E-6 * (1 - 0) * 300 ^ 6
    + 300 ^ 4 * 0 * ViewFactorSky.cloudEmissivity 0 300.
Proof.
  apply (X9_sky_patch_radiates_at_sky_temperature false 0 300 [] [] [] []
           [1; 3] [0%nat; 1%nat]).
  - lra.
  - lra.
  - unfold sumList. simpl. lra.
Defined.

(** ** The fluxes of the fine faces *)

Lemma fold_insert_same (x : R) (fs : list nat) (l : list R) :
  let l' := fold_left (fun l1 f => <[ f := x ]> l1) fs l in
  length l' = length l
  /\ (forall f, f ∉ fs -> l' !!! f = l !!! f)
  /\ (forall f, f ∈ fs -> (f < length l)%nat -> l' !!! f = x).
Proof.
  induction fs as [|f0 fs IH] using rev_ind; simpl.
  - repeat split; try done. intros f Hf. inversion Hf.
  - rewrite fold_left_app. simpl.
    destruct IH as (Hlen & Hframe & Hval).
    split; [by rewrite length_insert|]. split.
    + intros f Hf. rewrite not_elem_of_app in Hf. destruct Hf as [Hf1 Hf2].
      rewrite list_lookup_total_insert_ne.
      * by apply Hframe.
      * intros ->. apply Hf2. by apply list_elem_of_singleton.
    + intros f Hf Hlt. destruct (decide (f = f0)) as [->|Hne].
      * rewrite list_lookup_total_insert_eq; [done|]. by rewrite Hlen.
      * rewrite list_lookup_total_insert_ne by done.
        apply elem_of_app in Hf as [Hf|Hf]; [by apply Hval|].
        apply list_elem_of_singleton in Hf. done.
Qed.

Section FillPatch.
Import ViewFactorSky.
Context (gn : list nat) (myProcNo : nat) (q : scalarField).
Context (coarseToFine : list (list nat)) (coarsePatchFace : list nat).

#[local] Abbreviation fineOf coarseI :=
  (coarseToFine !!! (coarsePatchFace !!! coarseI)).

Lemma fillPatch_prefix (qrp : scalarField) (g0 n : nat) :
  let r := fold_left
             (fun '(qrp, globCoarseId) coarseI =>
                (fold_left
                   (fun qrp1 facei =>
                      <[ facei := q !!! toGlobal gn myProcNo globCoarseId ]>
                        qrp1)
                   (fineOf coarseI) qrp,
                 S globCoarseId))
             (seq 0 n) (qrp, g0) in
  r.2 = (g0 + n)%nat
  /\ length r.1 = length qrp
  /\ (forall f, (forall coarseI, (coarseI < n)%nat -> f ∉ fineOf coarseI) ->
                r.1 !!! f = qrp !!! f)
  /\ (forall coarseI f,
         (coarseI < n)%nat -> f ∈ fineOf coarseI -> (f < length qrp)%nat ->
         (forall c, (coarseI < c < n)%nat -> f ∉ fineOf c) ->
         r.1 !!! f = q !!! toGlobal gn myProcNo (g0 + coarseI)).
Proof.
  induction n as [|n IH]; cbv zeta in *.
  - simpl. repeat split; try done; try lia.
  - rewrite fold_left_seq_S.
    destruct IH as (Hg & Hlen & Hframe & Hval).
    destruct (fold_left _ (seq 0 n) (qrp, g0)) as [qn gn'] eqn:E.
    simpl in *. subst gn'.
    destruct (fold_insert_same (q !!! toGlobal gn myProcNo (g0 + n))
                (fineOf n) qn) as (Hl1 & Hf1 & Hv1).
    split; [lia|]. split; [lia|]. split.
    + intros f Hf. rewrite Hf1 by (apply Hf; lia).
      apply Hframe. intros c Hc. apply Hf. lia.
    + intros c f Hc Hin Hlt Hlater.
      destruct (decide (c = n)) as [->|Hne].
      * apply Hv1; [done|lia].
      * rewrite Hf1 by (apply Hlater; lia).
        apply Hval; [lia|done..|]. intros c' Hc'. apply Hlater. lia.
Qed.

End FillPatch.

(** X10. viewFactorSky::calculate, "Scatter q and fill qr": on a
    selected patch every fine face of the coarse face met at position
    coarseI receives the flux q of the global coarse number
    globCoarseId + coarseI (when no later coarse face of the patch lists
    the same fine face), a fine face of no coarse face keeps its value,
    and the running number is advanced by the number of coarse faces of
    the patch, so that the next patch continues the numbering. *)
Theorem X10_fine_faces_receive_coarse_flux (gn : list nat)
  (myProcNo : nat) (q : scalarField) (coarseToFine : list (list nat))
  (coarsePatchFace : list nat) (qrp : scalarField) (globCoarseId : nat) :
  let r := ViewFactorSky.fillPatch gn myProcNo q coarseToFine
             coarsePatchFace (qrp, globCoarseId) in
  let fineOf coarseI := coarseToFine !!! (coarsePatchFace !!! coarseI) in
  r.2 = (globCoarseId + length coarseToFine)%nat
  /\ length r.1 = length qrp
  /\ (forall f, (forall coarseI, (coarseI < length coarseToFine)%nat ->
                                 f ∉ fineOf coarseI) ->
                r.1 !!! f = qrp !!! f)
  /\ (forall coarseI f,
         (coarseI < length coarseToFine)%nat -> f ∈ fineOf coarseI ->
         (f < length qrp)%nat ->
         (forall c, (coarseI < c < length coarseToFine)%nat ->
                    f ∉ fineOf c) ->
         r.1 !!! f = q !!! toGlobal gn myProcNo (globCoarseId + coarseI)).
Proof.
  intros r fineOf. unfold r, fineOf, ViewFactorSky.fillPatch.
  apply (fillPatch_prefix gn myProcNo q coarseToFine coarsePatchFace qrp
           globCoarseId (length coarseToFine)).
Qed.

Lemma X10_fine_faces_receive_coarse_flux_witness :
  let r := ViewFactorSky.fillPatch [4%nat] 0 [10; 20; 30; 40]
             [[0%nat; 2%nat]; [1%nat]] [1%nat; 0%nat] ([0; 0; 0], 2%nat) in
  r.2 = 4%nat /\ r.1 !!! 1%nat = 30.
Proof.
  intros r.
  destruct (X10_fine_faces_receive_coarse_flux [4%nat] 0 [10; 20; 30; 40]
              [[0%nat; 2%nat]; [1%nat]] [1%nat; 0%nat] [0; 0; 0] 2)
    as (Hg & _ & _ & Hval).
  split; [exact Hg|].
  apply (Hval 0%nat 1%nat).
  - simpl. lia.
  - simpl. apply list_elem_of_singleton. done.
  - simpl. lia.
  - intros c Hc. simpl in Hc. assert (c = 1%nat) as -> by lia. simpl.
    intros Hin. apply elem_of_cons in Hin as [Hin|Hin]; [done|].
    apply list_elem_of_singleton in Hin. done.
Defined.

(** ** Updates after the first one *)

Section LaterUpdates.
Context (lu : LUroutines) (nProcs : Z) (total : label) (casePath : string).

Lemma viewFactorSky_later_update (sigma : R)
  (T4 E qrExt : scalarField) (Fmatrix : scalarSquareMatrix)
  (st : solverState) (w : world) :
  (0 < iterCounter_ st)%Z ->
  let r := ViewFactorSky.calculate lu true nProcs true total casePath
             sigma T4 E qrExt Fmatrix st w in
  r.1.2 = mkState (CLU_ st) (pivotIndices_ st) (iterCounter_ st + 1)%Z
  /\ r.2 = LUCache.say w LUCache.msgBacksubstitute.
Proof.
  intros Hit. unfold ViewFactorSky.calculate. simpl.
  replace (iterCounter_ st =? 0)%Z with false
    by (symmetry; apply Z.eqb_neq; lia).
  done.
Qed.

Lemma directAndDiffuse_later_update (time : R) (x : list R)
  (sky sun : list scalarList) (A qsExt : scalarField)
  (Fmatrix : scalarSquareMatrix) (st : solverState) (w : world) :
  (0 < iterCounter_ st)%Z ->
  let r := DirectAndDiffuse.calculate lu true nProcs true total casePath
             time x sky sun A qsExt Fmatrix st w in
  r.1.2 = mkState (CLU_ st) (pivotIndices_ st) (iterCounter_ st + 1)%Z
  /\ r.2 = LUCache.say w LUCache.msgBacksubstitute.
Proof.
  intros Hit. unfold DirectAndDiffuse.calculate.
  destruct (DirectAndDiffuse.findRange time x) as [lo hi]. simpl.
  replace (iterCounter_ st =? 0)%Z with false
    by (symmetry; apply Z.eqb_neq; lia).
  done.
Qed.

Lemma updatesLW_later (sigma : R) (Fmatrix : scalarSquareMatrix)
  (inputs : list (scalarField * scalarField * scalarField)) :
  forall (st : solverState) (w : world),
    (0 < iterCounter_ st)%Z ->
    updatesLW lu nProcs total casePath sigma Fmatrix inputs st w
    = (mkState (CLU_ st) (pivotIndices_ st)
         (iterCounter_ st + Z.of_nat (length inputs))%Z,
       mkWorld (files w)
         (info w ++ replicate (length inputs) LUCache.msgBacksubstitute)).
Proof.
  unfold updatesLW.
  induction inputs as [|[[T4 E] qrExt] inputs IH]; intros st w Hit.
  - simpl. rewrite Z.add_0_r, app_nil_r. by destruct st, w.
  - cbn [fold_left].
    destruct (viewFactorSky_later_update sigma T4 E qrExt Fmatrix st w Hit)
      as [H1 H2].
    cbv zeta in H1, H2. rewrite H1, H2.
    rewrite IH by (simpl; lia). simpl.
    f_equal; [f_equal; lia|].
    f_equal. rewrite <- app_assoc. done.
Qed.

Lemma updatesSW_later (x : list R) (sky sun : list scalarList)
  (Fmatrix : scalarSquareMatrix)
  (inputs : list (scalar * scalarField * scalarField)) :
  forall (st : solverState) (w : world),
    (0 < iterCounter_ st)%Z ->
    updatesSW lu nProcs total casePath x sky sun Fmatrix inputs st w
    = (mkState (CLU_ st) (pivotIndices_ st)
         (iterCounter_ st + Z.of_nat (length inputs))%Z,
       mkWorld (files w)
         (info w ++ replicate (length inputs) LUCache.msgBacksubstitute)).
Proof.
  unfold updatesSW.
  induction inputs as [|[[time A] qsExt] inputs IH]; intros st w Hit.
  - simpl. rewrite Z.add_0_r, app_nil_r. by destruct st, w.
  - cbn [fold_left].
    destruct (directAndDiffuse_later_update time x sky sun A qsExt Fmatrix
                st w Hit) as [H1 H2].
    cbv zeta in H1, H2. rewrite H1, H2.
    rewrite IH by (simpl; lia). simpl.
    f_equal; [f_equal; lia|].
    f_equal. rewrite <- app_assoc. done.
Qed.

End LaterUpdates.

(** X11. With constant emissivity (albedo), once the first update has
    been made (iterCounter_ > 0), any number of further updates of
    viewFactorSky and of directAndDiffuse leaves the files of the case
    and the cached factorisation and pivots as they are, whatever the
    emissivities (albedos) handed in later; each update only counts
    itself and prints the back-substitution line. *)
Theorem X11_later_updates_keep_the_factorisation (lu : LUroutines)
  (nProcs : Z) (total : label) (casePath : string) (sigma : R)
  (x : list R) (sky sun : list scalarList) (Fmatrix : scalarSquareMatrix)
  (inputsLW : list (scalarField * scalarField * scalarField))
  (inputsSW : list (scalar * scalarField * scalarField))
  (st : solverState) (w : world) :
  (0 < iterCounter_ st)%Z ->
  let lw := updatesLW lu nProcs total casePath sigma Fmatrix inputsLW
              st w in
  let sw := updatesSW lu nProcs total casePath x sky sun Fmatrix inputsSW
              st w in
  (files lw.2 = files w /\ CLU_ lw.1 = CLU_ st
   /\ pivotIndices_ lw.1 = pivotIndices_ st
   /\ iterCounter_ lw.1 = (iterCounter_ st + Z.of_nat (length inputsLW))%Z
   /\ info lw.2
      = info w ++ replicate (length inputsLW)
                    "LU Back substitute C matrix..")
  /\ (files sw.2 = files w /\ CLU_ sw.1 = CLU_ st
      /\ pivotIndices_ sw.1 = pivotIndices_ st
      /\ iterCounter_ sw.1
         = (iterCounter_ st + Z.of_nat (length inputsSW))%Z
      /\ info sw.2
         = info w ++ replicate (length inputsSW)
                       "LU Back substitute C matrix..").
Proof.
  intros Hit lw sw. unfold lw, sw.
  rewrite updatesLW_later, updatesSW_later by done. simpl.
  repeat split; done.
Qed.

Lemma X11_later_updates_keep_the_factorisation_witness :
  let st := mkState [[2; 0]; [0; 2]] [0%Z; 1%Z] 1 in
  let w := mkWorld ∅ [] in
  let lw := updatesLW demoLU 1 2 "case" 1 [[0; 1]; [1; 0]]
              [([1; 1], [0.9; 0.9], [0; 0]); ([2; 2], [0.5; 0.5], [0; 0])]
              st w in
  files lw.2 = files w /\ CLU_ lw.1 = CLU_ st.
Proof.
  intros st w lw.
  destruct (X11_later_updates_keep_the_factorisation demoLU 1 2 "case" 1
              [] [] [] [[0; 1]; [1; 0]]
              [([1; 1], [0.9; 0.9], [0; 0]); ([2; 2], [0.5; 0.5], [0; 0])]
              [] st w) as [(Hf & Hc & _) _].
  - simpl. lia.
  - split; [exact Hf | exact Hc].
Defined.

(** ** calcLAI: the rays towards the sun *)

Section RayEndPoint.

(** The parameter of one coordinate direction is never negative for a
    start inside the box. *)
Lemma ray_parameter_nonneg (lo hi s n : R) :
  lo <= s <= hi ->
  0 <= (if Rgtb n 0 then (hi - s) / n
        else if Rltb n 0 then (lo - s) / n else VGREAT).
Proof.
  intros Hs. unfold Rgtb, Rltb.
  destruct (Rlt_dec 0 n) as [Hp|Hp].
  - apply Rmult_le_pos; [lra|]. left. by apply Rinv_0_lt_compat.
  - destruct (Rlt_dec n 0) as [Hn|Hn].
    + replace ((lo - s) / n) with ((s - lo) / (- n)) by (field; lra).
      apply Rmult_le_pos; [lra|]. left. apply Rinv_0_lt_compat. lra.
    + unfold VGREAT. lra.
Qed.

(** A step of at most that parameter stays between the bounds. *)
Lemma ray_component_inside (lo hi s n i c : R) :
  lo <= s <= hi -> 0 <= c <= 1 ->
  0 <= i <= (if Rgtb n 0 then (hi - s) / n
             else if Rltb n 0 then (lo - s) / n else VGREAT) ->
  lo <= c * i * n + s <= hi.
Proof.
  intros Hs Hc. unfold Rgtb, Rltb.
  destruct (Rlt_dec 0 n) as [Hp|Hp].
  - intros [Hi0 Hi].
    assert (Hin : i * n <= hi - s).
    { apply Rmult_le_compat_r with (r := n) in Hi; [|lra].
      replace ((hi - s) / n * n) with (hi - s) in Hi by (field; lra).
      done. }
    assert (0 <= i * n) by (apply Rmult_le_pos; lra).
    nra.
  - destruct (Rlt_dec n 0) as [Hn|Hn].
    + intros [Hi0 Hi].
      assert (Hin : i * (- n) <= s - lo).
      { apply Rmult_le_compat_r with (r := - n) in Hi; [|lra].
        replace ((lo - s) / n * - n) with (s - lo) in Hi by (field; lra).
        done. }
      assert (0 <= i * (- n)) by (apply Rmult_le_pos; lra).
      nra.
    + intros _. assert (n = 0) by lra. subst n. lra.
Qed.

End RayEndPoint.

(** X12. calcEndPoint: for a start point inside the bounding box of the
    mesh and any direction (the zero vector included), the end point of
    the ray lies inside the box, and so does the shifted start
    starti + 0.001*d that is handed to findLine. *)
Theorem X12_ray_stays_inside_the_mesh_box (start n2 pminO pmaxO : point) :
  inBox pminO pmaxO start ->
  inBox pminO pmaxO (CalcLAI.calcEndPoint start n2 pminO pmaxO)
  /\ inBox pminO pmaxO (CalcLAI.rayEnds start n2 pminO pmaxO).1.
Proof.
  intros [(Hx1 & Hy1 & Hz1) (Hx2 & Hy2 & Hz2)].
  pose proof (ray_parameter_nonneg (vx pminO) (vx pmaxO) (vx start) (vx n2)
                (conj Hx1 Hx2)) as Hix.
  pose proof (ray_parameter_nonneg (vy pminO) (vy pmaxO) (vy start) (vy n2)
                (conj Hy1 Hy2)) as Hiy.
  pose proof (ray_parameter_nonneg (vz pminO) (vz pmaxO) (vz start) (vz n2)
                (conj Hz1 Hz2)) as Hiz.
  assert (Hend : inBox pminO pmaxO
                   (CalcLAI.calcEndPoint start n2 pminO pmaxO)).
  { unfold CalcLAI.calcEndPoint.
    set (ix := if Rgtb (vx n2) 0 then _ else _) in *.
    set (iy := if Rgtb (vy n2) 0 then _ else _) in *.
    set (iz := if Rgtb (vz n2) 0 then _ else _) in *.
    set (i := Rmin ix (Rmin iy iz)).
    assert (Hi : 0 <= i /\ i <= ix /\ i <= iy /\ i <= iz).
    { unfold i, Rmin.
      destruct (Rle_dec iy iz), (Rle_dec ix _); lra. }
    destruct Hi as (Hi0 & Hi1 & Hi2 & Hi3).
    assert (Hc : 0 <= 0.999 <= 1) by lra.
    pose proof (ray_component_inside (vx pminO) (vx pmaxO) (vx start)
                  (vx n2) i 0.999 (conj Hx1 Hx2) Hc (conj Hi0 Hi1)) as Ex.
    pose proof (ray_component_inside (vy pminO) (vy pmaxO) (vy start)
                  (vy n2) i 0.999 (conj Hy1 Hy2) Hc (conj Hi0 Hi2)) as Ey.
    pose proof (ray_component_inside (vz pminO) (vz pmaxO) (vz start)
                  (vz n2) i 0.999 (conj Hz1 Hz2) Hc (conj Hi0 Hi3)) as Ez.
    unfold inBox, leV. simpl. lra. }
  split; [done|].
  unfold CalcLAI.rayEnds. cbn [fst].
  set (e := CalcLAI.calcEndPoint start n2 pminO pmaxO) in *. clearbody e.
  destruct Hend as [(Ex1 & Ey1 & Ez1) (Ex2 & Ey2 & Ez2)].
  unfold inBox, leV, addV, scaleV, subV. simpl. lra.
Qed.

Lemma X12_ray_stays_inside_the_mesh_box_witness :
  inBox (mkVector 0 0 0) (mkVector 10 10 10)
    (CalcLAI.calcEndPoint (mkVector 5 5 2) (mkVector 1 0 1)
       (mkVector 0 0 0) (mkVector 10 10 10)).
Proof.
  apply (X12_ray_stays_inside_the_mesh_box (mkVector 5 5 2)
           (mkVector 1 0 1) (mkVector 0 0 0) (mkVector 10 10 10)).
  unfold inBox, leV. simpl. lra.
Defined.

(** ** calcLAI: the bounding box of the vegetation *)

Section VegetationBox.

Lemma elem_of_map_2 {A B : Type} (f : A -> B) (l : list A) (x : A) :
  x ∈ l -> f x ∈ map f l.
Proof. intros Hx. apply list_elem_of_In, in_map. by apply list_elem_of_In. Qed.

Lemma leV_refl (a : point) : leV a a.
Proof. unfold leV. lra. Qed.

Lemma leV_trans (a b c : point) : leV a b -> leV b c -> leV a c.
Proof. unfold leV. lra. Qed.

Lemma minV_le_l (a b : point) : leV (minV a b) a.
Proof.
  unfold leV, minV. simpl.
  pose proof (Rmin_l (vx a) (vx b)). pose proof (Rmin_l (vy a) (vy b)).
  pose proof (Rmin_l (vz a) (vz b)). lra.
Qed.

Lemma minV_le_r (a b : point) : leV (minV a b) b.
Proof.
  unfold leV, minV. simpl.
  pose proof (Rmin_r (vx a) (vx b)). pose proof (Rmin_r (vy a) (vy b)).
  pose proof (Rmin_r (vz a) (vz b)). lra.
Qed.

Lemma maxV_ge_l (a b : point) : leV a (maxV a b).
Proof.
  unfold leV, maxV. simpl.
  pose proof (Rmax_l (vx a) (vx b)). pose proof (Rmax_l (vy a) (vy b)).
  pose proof (Rmax_l (vz a) (vz b)). lra.
Qed.

Lemma maxV_ge_r (a b : point) : leV b (maxV a b).
Proof.
  unfold leV, maxV. simpl.
  pose proof (Rmax_r (vx a) (vx b)). pose proof (Rmax_r (vy a) (vy b)).
  pose proof (Rmax_r (vz a) (vz b)). lra.
Qed.

Lemma fold_minV_le (l : list point) (p : point) :
  leV (fold_left minV l p) p
  /\ forall q, q ∈ l -> leV (fold_left minV l p) q.
Proof.
  revert p. induction l as [|x l IH]; intros p; simpl.
  - split; [apply leV_refl|]. intros q Hq. inversion Hq.
  - destruct (IH (minV p x)) as [H1 H2]. split.
    + eapply leV_trans; [exact H1|apply minV_le_l].
    + intros q Hq. apply elem_of_cons in Hq as [->|Hq]; [|by apply H2].
      eapply leV_trans; [exact H1|apply minV_le_r].
Qed.

Lemma fold_maxV_ge (l : list point) (p : point) :
  leV p (fold_left maxV l p)
  /\ forall q, q ∈ l -> leV q (fold_left maxV l p).
Proof.
  revert p. induction l as [|x l IH]; intros p; simpl.
  - split; [apply leV_refl|]. intros q Hq. inversion Hq.
  - destruct (IH (maxV p x)) as [H1 H2]. split.
    + eapply leV_trans; [apply maxV_ge_l|exact H1].
    + intros q Hq. apply elem_of_cons in Hq as [->|Hq]; [|by apply H2].
      eapply leV_trans; [apply maxV_ge_r|exact H1].
Qed.

Lemma gMinV_le (l : list point) (q : point) : q ∈ l -> leV (gMinV l) q.
Proof.
  destruct l as [|p l]; intros Hq; [inversion Hq|]. simpl.
  destruct (fold_minV_le l p) as [H1 H2].
  apply elem_of_cons in Hq as [->|Hq]; [done|by apply H2].
Qed.

Lemma gMaxV_ge (l : list point) (q : point) : q ∈ l -> leV q (gMaxV l).
Proof.
  destruct l as [|p l]; intros Hq; [inversion Hq|]. simpl.
  destruct (fold_maxV_ge l p) as [H1 H2].
  apply elem_of_cons in Hq as [->|Hq]; [done|by apply H2].
Qed.

(** The loop over the first [n] cells of one process. *)
Lemma calcVegBBOXlocal_prefix (pmeshC : list point) (LAD : scalarField)
  (pmin pmax : point) (n : nat) :
  let box := fold_left
               (fun '(pmin1, pmax1) cellI =>
                  if Rgtb (LAD !!! cellI) (10 * SMALL)
                  then (minV pmin1 (pmeshC !!! cellI),
                        maxV pmax1 (pmeshC !!! cellI))
                  else (pmin1, pmax1))
               (seq 0 n) (pmin, pmax) in
  leV box.1 pmin /\ leV pmax box.2
  /\ (forall cellI, (cellI < n)%nat -> LAD !!! cellI > 10 * SMALL ->
                    inBox box.1 box.2 (pmeshC !!! cellI))
  /\ ((forall cellI, (cellI < n)%nat -> ~ LAD !!! cellI > 10 * SMALL) ->
      box = (pmin, pmax)).
Proof.
  induction n as [|n IH]; cbv zeta in *.
  - simpl. repeat split; try apply leV_refl; try done; intros; lia.
  - rewrite fold_left_seq_S.
    destruct (fold_left _ (seq 0 n) (pmin, pmax)) as [p1 p2] eqn:E.
    simpl in IH. destruct IH as (H1 & H2 & H3 & H4).
    destruct (Rgtb (LAD !!! n) (10 * SMALL)) eqn:Ev; simpl.
    + split; [eapply leV_trans; [apply minV_le_l|done]|].
      split; [eapply leV_trans; [done|apply maxV_ge_l]|].
      split.
      * intros c Hc Hv. destruct (decide (c = n)) as [->|Hne].
        -- split; [apply minV_le_r|apply maxV_ge_r].
        -- destruct (H3 c ltac:(lia) Hv) as [Ha Hb]. split.
           ++ eapply leV_trans; [apply minV_le_l|done].
           ++ eapply leV_trans; [done|apply maxV_ge_l].
      * intros Hno. exfalso. apply (Hno n); [lia|].
        by apply Rgtb_true.
    + split; [done|]. split; [done|]. split.
      * intros c Hc Hv. destruct (decide (c = n)) as [->|Hne].
        -- apply Rgtb_true in Hv. congruence.
        -- by apply H3; [lia|].
      * intros Hno. apply H4. intros c Hc. apply Hno. lia.
Qed.

End VegetationBox.

(** X13. calcVegBBOX: the box returned to every process contains the
    centre of every cell, of every process, that carries vegetation
    (LAD > 10*SMALL); and when no cell of any process carries
    vegetation the box is the one handed in (in main the inverted box
    pmin = gMax, pmax = gMin of the cell centres). *)
Theorem X13_vegetation_box_contains_vegetated_cells
  (procs : list (list point * scalarField)) (pmin pmax : point) :
  let box := CalcLAI.calcVegBBOX procs pmin pmax in
  (forall pmeshC LAD cellI,
      (pmeshC, LAD) ∈ procs -> (cellI < length LAD)%nat ->
      LAD !!! cellI > 10 * SMALL ->
      inBox box.1 box.2 (pmeshC !!! cellI))
  /\ (procs <> [] ->
      (forall pmeshC LAD cellI,
          (pmeshC, LAD) ∈ procs -> (cellI < length LAD)%nat ->
          ~ LAD !!! cellI > 10 * SMALL) ->
      box = (pmin, pmax)).
Proof.
  intros box. unfold box, CalcLAI.calcVegBBOX. simpl. split.
  - intros pmeshC LAD cellI Hin Hc Hv.
    destruct (calcVegBBOXlocal_prefix pmeshC LAD pmin pmax (length LAD))
      as (_ & _ & H3 & _).
    destruct (H3 cellI Hc Hv) as [Ha Hb].
    set (f := fun '(pmeshC, LAD) =>
                CalcLAI.calcVegBBOXlocal pmeshC LAD pmin pmax).
    split.
    + eapply leV_trans; [|exact Ha].
      apply gMinV_le. rewrite map_map.
      apply (elem_of_map_2 (fun x => (f x).1) procs (pmeshC, LAD) Hin).
    + eapply leV_trans; [exact Hb|].
      apply gMaxV_ge. rewrite map_map.
      apply (elem_of_map_2 (fun x => (f x).2) procs (pmeshC, LAD) Hin).
  - intros Hne Hno.
    assert (Hall : forall pr, pr ∈ procs ->
               (let '(pmeshC, LAD) := pr in
                CalcLAI.calcVegBBOXlocal pmeshC LAD pmin pmax)
               = (pmin, pmax)).
    { intros [pmeshC LAD] Hin.
      destruct (calcVegBBOXlocal_prefix pmeshC LAD pmin pmax (length LAD))
        as (_ & _ & _ & H4).
      apply H4. intros c Hc. by apply (Hno pmeshC LAD c). }
    assert (Hmap : map (fun '(pmeshC, LAD) =>
                          CalcLAI.calcVegBBOXlocal pmeshC LAD pmin pmax)
                       procs
                   = replicate (length procs) (pmin, pmax)).
    { clear Hne Hno. induction procs as [|pr procs IH]; [done|].
      simpl. rewrite (Hall pr) by (by left).
      f_equal. apply IH. intros pr' Hpr'. apply Hall. by right. }
    rewrite Hmap. destruct procs as [|pr procs]; [done|]. simpl.
    assert (Hmin : forall n p, fold_left minV (replicate n p) p = p).
    { induction n as [|n IHn]; intros p; [done|]. simpl.
      replace (minV p p) with p; [apply IHn|].
      unfold minV. destruct p as [a b c]. simpl.
      rewrite !Rmin_left by lra. done. }
    assert (Hmax : forall n p, fold_left maxV (replicate n p) p = p).
    { induction n as [|n IHn]; intros p; [done|]. simpl.
      replace (maxV p p) with p; [apply IHn|].
      unfold maxV. destruct p as [a b c]. simpl.
      rewrite !Rmax_left by lra. done. }
    assert (Hf : forall n, map fst (replicate n (pmin, pmax))
                           = replicate n pmin).
    { induction n as [|n IHn]; simpl; [done|by f_equal]. }
    assert (Hs : forall n, map snd (replicate n (pmin, pmax))
                           = replicate n pmax).
    { induction n as [|n IHn]; simpl; [done|by f_equal]. }
    rewrite Hf, Hs, Hmin, Hmax. done.
Qed.

Lemma X13_vegetation_box_contains_vegetated_cells_witness :
  inBox
    (CalcLAI.calcVegBBOX
       [([mkVector 1 1 1; mkVector 4 2 3], [1; 1]);
        ([mkVector 0 5 2], [2])] (mkVector 9 9 9) (mkVector 0 0 0)).1
    (CalcLAI.calcVegBBOX
       [([mkVector 1 1 1; mkVector 4 2 3], [1; 1]);
        ([mkVector 0 5 2], [2])] (mkVector 9 9 9) (mkVector 0 0 0)).2
    (mkVector 4 2 3).
Proof.
  apply (proj1 (X13_vegetation_box_contains_vegetated_cells
                  [([mkVector 1 1 1; mkVector 4 2 3], [1; 1]);
                   ([mkVector 0 5 2], [2])] (mkVector 9 9 9)
                  (mkVector 0 0 0))
           [mkVector 1 1 1; mkVector 4 2 3] [1; 1] 1%nat).
  - by left.
  - simpl. lia.
  - simpl. unfold SMALL. lra.
Defined.

(** ** calcLAI: loops over the nodes of a grid *)

Lemma elem_of_pairs {A B : Type} (ys : A -> list B) (xs : list A)
  (a : A) (b : B) :
  (a, b) ∈ flat_map (fun a => map (pair a) (ys a)) xs
  <-> a ∈ xs /\ b ∈ ys a.
Proof.
  rewrite list_elem_of_In, in_flat_map. split.
  - intros (a' & Ha' & Hin). apply in_map_iff in Hin as (b' & Heq & Hb').
    inversion Heq; subst. split; by apply list_elem_of_In.
  - intros [Ha Hb]. exists a. split; [by apply list_elem_of_In|].
    apply in_map_iff. exists b. split; [done|by apply list_elem_of_In].
Qed.

Lemma elem_of_gridNodes (nx ny nz i j k : nat) :
  (k, j, i) ∈ gridNodes nx ny nz
  <-> (i < nx)%nat /\ (j < ny)%nat /\ (k < nz)%nat.
Proof.
  unfold gridNodes.
  rewrite (elem_of_pairs (fun _ => seq 0 nx)), (elem_of_pairs (fun _ => seq 0 ny)).
  rewrite !elem_of_seq_0. tauto.
Qed.

Lemma NoDup_pairs {A B : Type} (ys : A -> list B) (xs : list A) :
  NoDup xs -> (forall a, a ∈ xs -> NoDup (ys a)) ->
  NoDup (flat_map (fun a => map (pair a) (ys a)) xs).
Proof.
  induction xs as [|a xs IH]; intros Hxs Hys; simpl; [apply NoDup_nil_2|].
  apply NoDup_cons in Hxs as [Ha Hxs].
  apply NoDup_app. split; [|split].
  - assert (Hy : NoDup (ys a)) by (apply Hys; by left).
    clear -Hy. induction (ys a) as [|b l IHl]; simpl; [apply NoDup_nil_2|].
    apply NoDup_cons in Hy as [Hb Hl]. apply NoDup_cons. split; [|by apply IHl].
    intros Hin. apply list_elem_of_In, in_map_iff in Hin as (b' & Heq & Hb').
    inversion Heq; subst. by apply Hb, list_elem_of_In.
  - intros [a' b'] Hin1 Hin2.
    apply list_elem_of_In, in_map_iff in Hin1 as (b1 & Heq & _).
    inversion Heq; subst.
    apply elem_of_pairs in Hin2 as [Hin2 _]. done.
  - apply IH; [done|]. intros a' Ha'. apply Hys. by right.
Qed.

Lemma NoDup_gridNodes (nx ny nz : nat) : NoDup (gridNodes nx ny nz).
Proof.
  unfold gridNodes. apply NoDup_pairs; [|intros; apply NoDup_seq].
  apply NoDup_pairs; [apply NoDup_seq|intros; apply NoDup_seq].
Qed.

(** The loops over k, j and i as one loop over the nodes. *)
Lemma grid_loops_flat {S : Type} (body : nat -> nat -> S -> nat -> S)
  (nx ny nz : nat) (s : S) :
  fold_left
    (fun s1 k =>
       fold_left (fun s2 j => fold_left (body k j) (seq 0 nx) s2)
                 (seq 0 ny) s1)
    (seq 0 nz) s
  = fold_left (fun s1 (n : nat * nat * nat) => body n.1.1 n.1.2 s1 n.2)
              (gridNodes nx ny nz) s.
Proof.
  rewrite (fold_left_nested
             (fun k s2 j => fold_left (body k j) (seq 0 nx) s2)
             (fun _ => seq 0 ny)).
  cbv beta.
  rewrite (fold_left_nested
             (fun (kj : nat * nat) s2 i => body kj.1 kj.2 s2 i)
             (fun _ => seq 0 nx)).
  done.
Qed.

(** A sequence of writes [l[ix p] = v p]. *)
Lemma fold_insert {P : Type} (ix : P -> nat) (v : P -> R) (ps : list P)
  (l : list R) :
  let l' := fold_left (fun l1 p => <[ ix p := v p ]> l1) ps l in
  length l' = length l
  /\ (forall c, (forall p, p ∈ ps -> ix p <> c) -> l' !!! c = l !!! c)
  /\ (forall p, p ∈ ps ->
                (forall p', p' ∈ ps -> ix p' = ix p -> v p' = v p) ->
                (ix p < length l)%nat -> l' !!! ix p = v p).
Proof.
  induction ps as [|p0 ps IH] using rev_ind; simpl.
  - repeat split; try done. intros p Hp. inversion Hp.
  - rewrite fold_left_app. simpl.
    destruct IH as (Hlen & Hframe & Hval).
    split; [by rewrite length_insert|]. split.
    + intros c Hc. rewrite list_lookup_total_insert_ne.
      * apply Hframe. intros p Hp. apply Hc. apply elem_of_app. by left.
      * apply Hc. apply elem_of_app. right. by apply list_elem_of_singleton.
    + intros p Hp Hagree Hlt.
      destruct (decide (ix p0 = ix p)) as [Heq|Hne].
      * rewrite <- Heq, list_lookup_total_insert_eq.
        -- apply Hagree; [|done].
           apply elem_of_app. right. by apply list_elem_of_singleton.
        -- rewrite Hlen, Heq. done.
      * rewrite list_lookup_total_insert_ne by done.
        apply elem_of_app in Hp as [Hp|Hp].
        -- apply Hval; [done| |done].
           intros p' Hp'. apply Hagree. apply elem_of_app. by left.
        -- apply list_elem_of_singleton in Hp. by subst p0.
Qed.

(** ** calcLAI: the divergence of the short-wave intensity *)

Section Divergence.
Import CalcLAI.
Context (q : scalarField) (nx ny nz : nat) (dp : point).

#[local] Abbreviation divOf k j i :=
  ((- (q !!! pIndex nx ny i j (k + 1) - q !!! pIndex nx ny i j k)) / vz dp).

Lemma divqrswInterpRot_flat :
  divqrswInterpRot true q nx ny nz dp
  = fold_left
      (fun l (n : nat * nat * nat) =>
         <[ pIndex nx ny n.2 n.1.2 n.1.1 := divOf n.1.1 n.1.2 n.2 ]> l)
      (gridNodes nx ny (nz - 1)) (replicate (nx * ny * nz) 0).
Proof.
  unfold divqrswInterpRot.
  by rewrite (grid_loops_flat (divStep q nx ny (vz dp))).
Qed.

Lemma divqrswInterpRot_length :
  length (divqrswInterpRot true q nx ny nz dp) = (nx * ny * nz)%nat.
Proof.
  rewrite divqrswInterpRot_flat.
  destruct (fold_insert
              (fun n : nat * nat * nat => pIndex nx ny n.2 n.1.2 n.1.1)
              (fun n : nat * nat * nat => divOf n.1.1 n.1.2 n.2)
              (gridNodes nx ny (nz - 1)) (replicate (nx * ny * nz) 0))
    as (Hlen & _).
  by rewrite Hlen, length_replicate.
Qed.

Lemma divqrswInterpRot_value (i j k : nat) :
  (i < nx)%nat -> (j < ny)%nat -> (k + 1 < nz)%nat ->
  divqrswInterpRot true q nx ny nz dp !!! pIndex nx ny i j k
  = divOf k j i.
Proof.
  intros Hi Hj Hk. rewrite divqrswInterpRot_flat.
  destruct (fold_insert
              (fun n : nat * nat * nat => pIndex nx ny n.2 n.1.2 n.1.1)
              (fun n : nat * nat * nat => divOf n.1.1 n.1.2 n.2)
              (gridNodes nx ny (nz - 1)) (replicate (nx * ny * nz) 0))
    as (_ & _ & Hval).
  apply (Hval (k, j, i)); simpl.
  - apply elem_of_gridNodes. lia.
  - intros [[k' j'] i'] Hn Heq. simpl in *.
    apply elem_of_gridNodes in Hn as (Hi' & Hj' & Hk').
    apply pIndex_inj in Heq as (-> & -> & ->); done.
  - rewrite length_replicate. apply pIndex_bound; lia.
Qed.

Lemma divqrswInterpRot_top (i j : nat) :
  (i < nx)%nat -> (j < ny)%nat -> (0 < nz)%nat ->
  divqrswInterpRot true q nx ny nz dp !!! pIndex nx ny i j (nz - 1) = 0.
Proof.
  intros Hi Hj Hnz. rewrite divqrswInterpRot_flat.
  destruct (fold_insert
              (fun n : nat * nat * nat => pIndex nx ny n.2 n.1.2 n.1.1)
              (fun n : nat * nat * nat => divOf n.1.1 n.1.2 n.2)
              (gridNodes nx ny (nz - 1)) (replicate (nx * ny * nz) 0))
    as (_ & Hframe & _).
  rewrite Hframe.
  - apply lookup_total_replicate_2. apply pIndex_bound; lia.
  - intros [[k' j'] i'] Hn Heq. simpl in *.
    apply elem_of_gridNodes in Hn as (Hi' & Hj' & Hk').
    apply pIndex_inj in Heq as (_ & _ & Heq); [lia|done..].
Qed.

(** The differences of a column add up to the difference of its ends. *)
Lemma column_telescopes (i j m : nat) :
  vz dp <> 0 ->
  sumList (map (fun k => divOf k j i * vz dp) (seq 0 m))
  = q !!! pIndex nx ny i j 0 - q !!! pIndex nx ny i j m.
Proof.
  intros Hdz. induction m as [|m IH].
  - unfold sumList. simpl. lra.
  - rewrite seq_S, map_app. cbn [map]. rewrite sumList_snoc, IH.
    simpl. replace (m + 1)%nat with (S m) by lia. field. done.
Qed.

End Divergence.

(** X14. calcLAI, the divergence of the short-wave intensity on the
    rotated grid: on the master every node below the top layer holds the
    forward difference -(q[k+1] - q[k])/dz of its column, the top layer
    holds 0, and over a column the divergence times dz adds up to the
    intensity at the bottom node minus the intensity at the top node
    (minus the radiation absorbed along the column). *)
Theorem X14_divergence_of_a_column_balances (q : scalarField)
  (nx ny nz : nat) (dp : point) (i j : nat) :
  (i < nx)%nat -> (j < ny)%nat -> (0 < nz)%nat -> vz dp <> 0 ->
  let div := CalcLAI.divqrswInterpRot true q nx ny nz dp in
  length div = (nx * ny * nz)%nat
  /\ (forall k, (k + 1 < nz)%nat ->
        div !!! CalcLAI.pIndex nx ny i j k
        = (- (q !!! CalcLAI.pIndex nx ny i j (k + 1)
              - q !!! CalcLAI.pIndex nx ny i j k)) / vz dp)
  /\ div !!! CalcLAI.pIndex nx ny i j (nz - 1) = 0
  /\ sumList (map (fun k => div !!! CalcLAI.pIndex nx ny i j k * vz dp)
                  (seq 0 (nz - 1)))
     = q !!! CalcLAI.pIndex nx ny i j 0
       - q !!! CalcLAI.pIndex nx ny i j (nz - 1).
Proof.
  intros Hi Hj Hnz Hdz div.
  split; [apply divqrswInterpRot_length|].
  split; [intros k Hk; by apply divqrswInterpRot_value|].
  split; [by apply divqrswInterpRot_top|].
  rewrite <- (column_telescopes q nx ny dp i j (nz - 1) Hdz).
  f_equal. apply map_ext_in. intros k Hk. apply in_seq in Hk.
  unfold div. rewrite divqrswInterpRot_value by lia. done.
Qed.

Lemma X14_divergence_of_a_column_balances_witness :
  let div := CalcLAI.divqrswInterpRot true [1; 2; 4] 1 1 3
               (mkVector 1 1 1) in
  length div = (1 * 1 * 3)%nat
  /\ (forall k, (k + 1 < 3)%nat ->
        div !!! CalcLAI.pIndex 1 1 0 0 k
        = (- ([1; 2; 4] !!! CalcLAI.pIndex 1 1 0 0 (k + 1)
              - [1; 2; 4] !!! CalcLAI.pIndex 1 1 0 0 k)) / 1)
  /\ div !!! CalcLAI.pIndex 1 1 0 0 (3 - 1) = 0
  /\ sumList (map (fun k => div !!! CalcLAI.pIndex 1 1 0 0 k * 1)
                  (seq 0 (3 - 1)))
     = [1; 2; 4] !!! CalcLAI.pIndex 1 1 0 0 0
       - [1; 2; 4] !!! CalcLAI.pIndex 1 1 0 0 (3 - 1).
Proof.
  apply (X14_divergence_of_a_column_balances [1; 2; 4] 1 1 3
           (mkVector 1 1 1) 0 0); simpl; try lia; lra.
Defined.

(** ** calcLAI: the Cartesian grid of the leaf area density *)

Section CartesianGrid.
Import CalcLAI.
Context (findCell : point -> Z) (LAD : scalarField).
Context (nx ny : nat) (pmin dp : point).

#[local] Abbreviation ixOf :=
  (fun n : nat * nat * nat => pIndex nx ny n.2 n.1.2 n.1.1).
#[local] Abbreviation ptOf :=
  (fun n : nat * nat * nat => nodeOf pmin dp n.2 n.1.2 n.1.1).
#[local] Abbreviation sel :=
  (fun n : nat * nat * nat => storesLAD findCell LAD (ptOf n) = true).
#[local] Abbreviation valOf :=
  (fun n : nat * nat * nat => LAD !!! Z.to_nat (findCell (ptOf n))).

Lemma nodeStep_cases (pmax : point) (I : list nat) (V : list R)
  (i j k : nat) :
  nodeStep findCell LAD nx ny pmin dp k j (pmax, I, V) i
  = (maxV pmax (nodeOf pmin dp i j k),
     if storesLAD findCell LAD (nodeOf pmin dp i j k)
     then I ++ [pIndex nx ny i j k] else I,
     if storesLAD findCell LAD (nodeOf pmin dp i j k)
     then V ++ [LAD !!! Z.to_nat (findCell (nodeOf pmin dp i j k))]
     else V).
Proof.
  unfold nodeStep, storesLAD, nodeOf.
  destruct (negb _); [|done]. by destruct (Rgtb _ _).
Qed.

(** The loop over a list of nodes: the box grows by the nodes, the
    selected nodes are queued in loop order. *)
Lemma nodeStep_fold (ns : list (nat * nat * nat)) :
  forall (pmax : point) (I : list nat) (V : list R),
    fold_left
      (fun acc (n : nat * nat * nat) =>
         nodeStep findCell LAD nx ny pmin dp n.1.1 n.1.2 acc n.2)
      ns (pmax, I, V)
    = (fold_left maxV (map ptOf ns) pmax,
       I ++ map ixOf (filter sel ns),
       V ++ map valOf (filter sel ns)).
Proof.
  induction ns as [|n ns IH]; intros pmax I V.
  - simpl. by rewrite !app_nil_r.
  - cbn [fold_left map]. rewrite nodeStep_cases, IH.
    destruct (storesLAD findCell LAD (ptOf n)) eqn:Es.
    + rewrite filter_cons_True by done.
      cbn [map]. by rewrite <- !app_assoc.
    + rewrite filter_cons_False by (rewrite Es; done). done.
Qed.

Lemma ixOf_inj (nz : nat) (n n' : nat * nat * nat) :
  n ∈ gridNodes nx ny nz -> n' ∈ gridNodes nx ny nz ->
  ixOf n = ixOf n' -> n = n'.
Proof.
  destruct n as [[k j] i], n' as [[k' j'] i']. simpl.
  intros Hn Hn' Heq.
  apply elem_of_gridNodes in Hn as (Hi & Hj & Hk).
  apply elem_of_gridNodes in Hn' as (Hi' & Hj' & Hk').
  apply pIndex_inj in Heq as (-> & -> & ->); done.
Qed.

Lemma NoDup_map_inj {A B : Type} (f : A -> B) (l : list A) :
  (forall x y, x ∈ l -> y ∈ l -> f x = f y -> x = y) ->
  NoDup l -> NoDup (map f l).
Proof.
  induction l as [|a l IH]; intros Hinj Hnd; simpl; [apply NoDup_nil_2|].
  apply NoDup_cons in Hnd as [Ha Hl]. apply NoDup_cons. split.
  - intros Hin. apply list_elem_of_In, in_map_iff in Hin as (b & Heq & Hb).
    apply list_elem_of_In in Hb.
    assert (b = a) by (apply Hinj; [by right|by left|done]).
    by subst b.
  - apply IH; [|done]. intros x y Hx Hy. apply Hinj; by right.
Qed.

(** What the master writes into [LADInterp] from the queues. *)
Lemma queued_nodes_written (nz : nat) (n : nat * nat * nat) :
  n ∈ gridNodes nx ny nz ->
  let nodes := gridNodes nx ny nz in
  writeBack (map ixOf (filter sel nodes)) (map valOf (filter sel nodes))
    (replicate (nx * ny * nz) 0) !!! ixOf n
  = if storesLAD findCell LAD (ptOf n) then valOf n else 0.
Proof.
  intros Hn nodes.
  assert (Hnd : NoDup (map ixOf (filter sel nodes))).
  { apply NoDup_map_inj.
    - intros x y Hx Hy. apply list_elem_of_filter in Hx as [_ Hx].
      apply list_elem_of_filter in Hy as [_ Hy]. by apply (ixOf_inj nz).
    - apply NoDup_filter, NoDup_gridNodes. }
  assert (Hlen : length (map valOf (filter sel nodes))
                 = length (map ixOf (filter sel nodes)))
    by (by rewrite !length_map).
  assert (Hrange : (ixOf n < length (replicate (nx * ny * nz) 0%R))%nat).
  { rewrite length_replicate. destruct n as [[k j] i].
    apply elem_of_gridNodes in Hn as (Hi & Hj & Hk).
    by apply pIndex_bound. }
  destruct (storesLAD findCell LAD (ptOf n)) eqn:Es.
  - assert (Hin : n ∈ filter sel nodes)
      by (apply list_elem_of_filter; done).
    apply list_elem_of_lookup_1 in Hin as [m Hm].
    assert (Hmlt : (m < length (filter sel nodes))%nat)
      by (by eapply lookup_lt_Some).
    assert (Hix : map ixOf (filter sel nodes) !!! m = ixOf n).
    { rewrite lookup_total_map by done.
      by rewrite (lookup_total_of_Some _ _ _ Hm). }
    rewrite <- Hix at 1.
    rewrite (writeBack_value _ _ _ Hnd m Hlen);
      [|by rewrite length_map|by rewrite Hix].
    rewrite lookup_total_map by done.
    by rewrite (lookup_total_of_Some _ _ _ Hm).
  - rewrite (writeBack_frame _ _ _ Hnd _ Hlen).
    + rewrite length_replicate in Hrange.
      by apply lookup_total_replicate_2.
    + intros Hin.
      apply list_elem_of_In, in_map_iff in Hin as (n' & Heq & Hn').
      apply list_elem_of_In, list_elem_of_filter in Hn' as [Hs' Hn'].
      apply (ixOf_inj nz) in Heq; [|done..]. subst n'. congruence.
Qed.

End CartesianGrid.

Lemma writeBack_length (idx : list nat) (vals L : list R) :
  length (CalcLAI.writeBack idx vals L) = length L.
Proof.
  unfold CalcLAI.writeBack. generalize (seq 0 (length vals)). intros l.
  revert L. induction l as [|x l IH]; intros L; simpl; [done|].
  rewrite IH. unfold CalcLAI.writeStep. apply length_insert.
Qed.

Section GridExtent.

(** The number of nodes along one direction of the padded box. *)
Lemma grid_extent (a b L : R) :
  0 < L -> a <= b ->
  let n := (Zceil ((b + 5 * L - (a - 5 * L)) / L) + 1)%Z in
  (11 <= n)%Z
  /\ b + 5 * L <= (a - 5 * L) + IZR (n - 1) * L < b + 5 * L + L.
Proof.
  intros HL Hab n.
  set (x := (b + 5 * L - (a - 5 * L)) / L) in *.
  assert (Hx : x * L = b + 5 * L - (a - 5 * L)) by (unfold x; field; lra).
  assert (H10 : 10 <= x).
  { apply Rmult_le_reg_r with L; [done|]. rewrite Hx. lra. }
  pose proof (Zceil_bound x) as [Hc1 Hc2].
  assert (Hn : (10 <= Zceil x)%Z).
  { apply le_IZR. lra. }
  split; [unfold n; lia|].
  unfold n. replace (Zceil x + 1 - 1)%Z with (Zceil x) by lia.
  assert (x * L <= IZR (Zceil x) * L) by (apply Rmult_le_compat_r; lra).
  assert (IZR (Zceil x) * L < (x + 1) * L)
    by (apply Rmult_lt_compat_r; lra).
  lra.
Qed.

Lemma fold_maxV_bound (l : list point) (p u : point) :
  leV p u -> (forall q, q ∈ l -> leV q u) -> leV (fold_left maxV l p) u.
Proof.
  revert p. induction l as [|x l IH]; intros p Hp Hl; simpl; [done|].
  apply IH; [|intros q Hq; apply Hl; by right].
  assert (Hx : leV x u) by (apply Hl; by left).
  unfold leV, maxV in *. simpl.
  destruct Hp as (? & ? & ?), Hx as (? & ? & ?).
  repeat split; apply Rmax_lub; done.
Qed.

Lemma leV_antisym (a b : point) : leV a b -> leV b a -> a = b.
Proof.
  destruct a, b. unfold leV. simpl. intros (? & ? & ?) (? & ? & ?).
  f_equal; lra.
Qed.

End GridExtent.

(** X15. interpfvMeshToCartesian on the master, for a vegetation box
    with pmin <= pmax and a positive grid spacing: LADInterp has
    nx*ny*nz entries, and node (i, j, k) holds the LAD of the mesh cell
    that findCell returns for the node when there is such a cell and
    its LAD is positive, and 0 otherwise. *)
Theorem X15_cartesian_grid_holds_the_cell_values (findCell : point -> Z)
  (LAD : scalarField) (minCellV : R) (pmin pmax : point) (factor : R)
  (i j k : nat) :
  0 < minCellV -> 0 < factor -> leV pmin pmax ->
  let g := CalcLAI.interpfvMeshToCartesian true findCell LAD minCellV
             pmin pmax factor in
  let nx := Z.to_nat (CalcLAI.cnx g) in
  let ny := Z.to_nat (CalcLAI.cny g) in
  let nz := Z.to_nat (CalcLAI.cnz g) in
  (i < nx)%nat -> (j < ny)%nat -> (k < nz)%nat ->
  length (CalcLAI.cLADInterp g) = (nx * ny * nz)%nat
  /\ CalcLAI.cLADInterp g !!! CalcLAI.pIndex nx ny i j k
     = let p := nodeOf (CalcLAI.cpmin g) (CalcLAI.cdp g) i j k in
       if storesLAD findCell LAD p
       then LAD !!! Z.to_nat (findCell p) else 0.
Proof.
  intros HV Hf Hbox.
  unfold CalcLAI.interpfvMeshToCartesian.
  set (L := Rpower minCellV (1.0 / 3.0) * factor).
  set (dp := mkVector L L L).
  set (pmin1 := subV pmin (scaleV 5 dp)).
  set (pmax1 := addV pmax (scaleV 5 dp)).
  set (nxZ := (Zceil ((vx pmax1 - vx pmin1) / vx dp) + 1)%Z).
  set (nyZ := (Zceil ((vy pmax1 - vy pmin1) / vy dp) + 1)%Z).
  set (nzZ := (Zceil ((vz pmax1 - vz pmin1) / vz dp) + 1)%Z).
  rewrite (grid_loops_flat
             (CalcLAI.nodeStep findCell LAD (Z.to_nat nxZ) (Z.to_nat nyZ)
                pmin1 dp)).
  rewrite nodeStep_fold. cbn [app]. cbv zeta.
  cbn [CalcLAI.cnx CalcLAI.cny CalcLAI.cnz CalcLAI.cLADInterp
       CalcLAI.cpmin CalcLAI.cdp].
  intros Hi Hj Hk.
  assert (HL : 0 < L).
  { unfold L. apply Rmult_lt_0_compat; [|done]. apply exp_pos. }
  destruct Hbox as (Hx & Hy & Hz).
  destruct (grid_extent (vx pmin) (vx pmax) L HL Hx) as [Hnx _].
  destruct (grid_extent (vy pmin) (vy pmax) L HL Hy) as [Hny _].
  destruct (grid_extent (vz pmin) (vz pmax) L HL Hz) as [Hnz _].
  assert (Hxx : (11 <= nxZ)%Z) by exact Hnx.
  assert (Hyy : (11 <= nyZ)%Z) by exact Hny.
  assert (Hzz : (11 <= nzZ)%Z) by exact Hnz.
  assert (Hsize : Z.to_nat (nxZ * nyZ * nzZ)
                  = (Z.to_nat nxZ * Z.to_nat nyZ * Z.to_nat nzZ)%nat)
    by nia.
  rewrite Hsize. split.
  - rewrite writeBack_length. apply length_replicate.
  - apply (queued_nodes_written findCell LAD (Z.to_nat nxZ) (Z.to_nat nyZ)
             pmin1 dp (Z.to_nat nzZ) (k, j, i)).
    apply elem_of_gridNodes. done.
Qed.

Lemma X15_cartesian_grid_holds_the_cell_values_witness :
  let g := CalcLAI.interpfvMeshToCartesian true (fun _ => 0%Z) [2] 1
             (mkVector 0 0 0) (mkVector 0 0 0) 1 in
  CalcLAI.cLADInterp g
    !!! CalcLAI.pIndex (Z.to_nat (CalcLAI.cnx g))
          (Z.to_nat (CalcLAI.cny g)) 0 0 0
  = 2.
Proof.
  intros g.
  assert (H11 : forall a b L : R, 0 < L -> a <= b ->
            (0 < Z.to_nat (Zceil ((b + 5 * L - (a - 5 * L)) / L) + 1))%nat).
  { intros a b L HL Hab. destruct (grid_extent a b L HL Hab) as [H _].
    cbv zeta in H. lia. }
  assert (HL : 0 < Rpower 1 (1.0 / 3.0) * 1).
  { apply Rmult_lt_0_compat; [apply exp_pos|lra]. }
  destruct (X15_cartesian_grid_holds_the_cell_values (fun _ => 0%Z) [2] 1
              (mkVector 0 0 0) (mkVector 0 0 0) 1 0 0 0) as [_ Hv].
  - lra.
  - lra.
  - unfold leV. simpl. lra.
  - apply (H11 0 0 _ HL). lra.
  - apply (H11 0 0 _ HL). lra.
  - apply (H11 0 0 _ HL). lra.
  - fold g in Hv. rewrite Hv. cbv zeta. unfold storesLAD. simpl.
    assert (E : Rgtb 2 0 = true) by (apply Rgtb_true; lra).
    by rewrite E.
Defined.

Section GridCover.
Import CalcLAI.

Lemma INR_pred_to_nat (n : Z) :
  (1 <= n)%Z -> INR (Z.to_nat n - 1) = IZR (n - 1).
Proof.
  intros Hn. rewrite INR_IZR_INZ. f_equal. lia.
Qed.

Lemma nodeOf_le (pmin dp : point) (i j k i' j' k' : nat) :
  0 <= vx dp -> 0 <= vy dp -> 0 <= vz dp ->
  (i <= i')%nat -> (j <= j')%nat -> (k <= k')%nat ->
  leV (nodeOf pmin dp i j k) (nodeOf pmin dp i' j' k').
Proof.
  intros Hx Hy Hz Hi Hj Hk. unfold leV, nodeOf. simpl.
  apply le_INR in Hi, Hj, Hk. repeat split; nra.
Qed.

End GridCover.

(** X16. interpfvMeshToCartesian, for a vegetation box with pmin <= pmax
    and a positive grid spacing L (the cube root of the smallest cell
    volume times minCellSizeFactor): the box is padded by 5 L on every
    side, the grid has at least 11 nodes in every direction, and pmax is
    returned as the last node of the grid, which lies at or beyond the
    padded pmax by less than one spacing. *)
Theorem X16_cartesian_grid_covers_the_padded_box (master : bool)
  (findCell : point -> Z) (LAD : scalarField) (minCellV : R)
  (pmin pmax : point) (factor : R) :
  0 < minCellV -> 0 < factor -> leV pmin pmax ->
  let g := CalcLAI.interpfvMeshToCartesian master findCell LAD minCellV
             pmin pmax factor in
  let L := Rpower minCellV (1.0 / 3.0) * factor in
  let padded := addV pmax (scaleV 5 (mkVector L L L)) in
  0 < L
  /\ CalcLAI.cdp g = mkVector L L L
  /\ CalcLAI.cpmin g = subV pmin (scaleV 5 (mkVector L L L))
  /\ (11 <= CalcLAI.cnx g)%Z /\ (11 <= CalcLAI.cny g)%Z
  /\ (11 <= CalcLAI.cnz g)%Z
  /\ CalcLAI.cpmax g
     = nodeOf (CalcLAI.cpmin g) (CalcLAI.cdp g)
         (Z.to_nat (CalcLAI.cnx g) - 1) (Z.to_nat (CalcLAI.cny g) - 1)
         (Z.to_nat (CalcLAI.cnz g) - 1)
  /\ leV padded (CalcLAI.cpmax g)
  /\ vx (CalcLAI.cpmax g) < vx padded + L
  /\ vy (CalcLAI.cpmax g) < vy padded + L
  /\ vz (CalcLAI.cpmax g) < vz padded + L.
Proof.
  intros HV Hf Hbox.
  unfold CalcLAI.interpfvMeshToCartesian.
  set (L := Rpower minCellV (1.0 / 3.0) * factor).
  set (dp := mkVector L L L).
  set (pmin1 := subV pmin (scaleV 5 dp)).
  set (pmax1 := addV pmax (scaleV 5 dp)).
  set (nxZ := (Zceil ((vx pmax1 - vx pmin1) / vx dp) + 1)%Z).
  set (nyZ := (Zceil ((vy pmax1 - vy pmin1) / vy dp) + 1)%Z).
  set (nzZ := (Zceil ((vz pmax1 - vz pmin1) / vz dp) + 1)%Z).
  rewrite (grid_loops_flat
             (CalcLAI.nodeStep findCell LAD (Z.to_nat nxZ) (Z.to_nat nyZ)
                pmin1 dp)).
  rewrite nodeStep_fold. cbv zeta.
  cbn [CalcLAI.cnx CalcLAI.cny CalcLAI.cnz CalcLAI.cpmax
       CalcLAI.cpmin CalcLAI.cdp fst snd].
  assert (HL : 0 < L).
  { unfold L. apply Rmult_lt_0_compat; [|done]. apply exp_pos. }
  destruct Hbox as (Hx & Hy & Hz).
  destruct (grid_extent (vx pmin) (vx pmax) L HL Hx) as [Hnx Ex].
  destruct (grid_extent (vy pmin) (vy pmax) L HL Hy) as [Hny Ey].
  destruct (grid_extent (vz pmin) (vz pmax) L HL Hz) as [Hnz Ez].
  fold nxZ in Hnx, Ex. fold nyZ in Hny, Ey. fold nzZ in Hnz, Ez.
  change (Zceil ((vx pmax + 5 * L - (vx pmin - 5 * L)) / L) + 1)%Z
    with nxZ in Hnx, Ex.
  change (Zceil ((vy pmax + 5 * L - (vy pmin - 5 * L)) / L) + 1)%Z
    with nyZ in Hny, Ey.
  change (Zceil ((vz pmax + 5 * L - (vz pmin - 5 * L)) / L) + 1)%Z
    with nzZ in Hnz, Ez.
  set (last := nodeOf pmin1 dp (Z.to_nat nxZ - 1) (Z.to_nat nyZ - 1)
                 (Z.to_nat nzZ - 1)).
  assert (Hlast : last = mkVector (vx pmin - 5 * L + IZR (nxZ - 1) * L)
                           (vy pmin - 5 * L + IZR (nyZ - 1) * L)
                           (vz pmin - 5 * L + IZR (nzZ - 1) * L)).
  { unfold last, nodeOf. simpl.
    rewrite !INR_pred_to_nat by lia. done. }
  assert (Hpad : leV pmax1 last).
  { rewrite Hlast. unfold leV, pmax1, addV, scaleV, dp. simpl. lra. }
  assert (Hfold :
    fold_left maxV
      (map (fun n : nat * nat * nat => nodeOf pmin1 dp n.2 n.1.2 n.1.1)
           (gridNodes (Z.to_nat nxZ) (Z.to_nat nyZ) (Z.to_nat nzZ)))
      pmax1 = last).
  { apply leV_antisym.
    - apply fold_maxV_bound; [done|]. intros q0 Hq.
      apply list_elem_of_In, in_map_iff in Hq as ([[k j] i] & <- & Hn).
      apply list_elem_of_In, elem_of_gridNodes in Hn as (Hi & Hj & Hk).
      simpl. apply nodeOf_le; simpl; lia || lra.
    - destruct (fold_maxV_ge
                  (map (fun n : nat * nat * nat =>
                          nodeOf pmin1 dp n.2 n.1.2 n.1.1)
                       (gridNodes (Z.to_nat nxZ) (Z.to_nat nyZ)
                          (Z.to_nat nzZ))) pmax1) as [_ Hge].
      apply Hge.
      apply (elem_of_map_2
               (fun n : nat * nat * nat => nodeOf pmin1 dp n.2 n.1.2 n.1.1)
               _ (Z.to_nat nzZ - 1, Z.to_nat nyZ - 1, Z.to_nat nxZ - 1)%nat).
      apply elem_of_gridNodes. lia. }
  rewrite Hfold.
  split; [done|]. split; [done|]. split; [done|].
  split; [done|]. split; [done|]. split; [done|].
  split; [done|]. split; [done|].
  rewrite Hlast. unfold addV, scaleV. simpl. lra.
Qed.

Lemma X16_cartesian_grid_covers_the_padded_box_witness :
  let g := CalcLAI.interpfvMeshToCartesian true (fun _ => 0%Z) [2] 1
             (mkVector 0 0 0) (mkVector 3 2 1) 1 in
  (11 <= CalcLAI.cnx g)%Z
  /\ leV (addV (mkVector 3 2 1)
            (scaleV 5 (mkVector (Rpower 1 (1.0 / 3.0) * 1)
                         (Rpower 1 (1.0 / 3.0) * 1)
                         (Rpower 1 (1.0 / 3.0) * 1))))
         (CalcLAI.cpmax g).
Proof.
  intros g.
  destruct (X16_cartesian_grid_covers_the_padded_box true (fun _ => 0%Z)
              [2] 1 (mkVector 0 0 0) (mkVector 3 2 1) 1)
    as (_ & _ & _ & Hnx & _ & _ & _ & Hcover & _).
  - lra.
  - lra.
  - unfold leV. simpl. lra.
  - split; [exact Hnx | exact Hcover].
Defined.



(** ** solarRayTracingGen: the sky and sun coefficients *)

Section SkyCoefficient.
Import SolarRayTracingGen.

Lemma clamp_unit_odd (c : R) :
  Rmin (Rmax (- c) (-1)) 1 = - Rmin (Rmax c (-1)) 1.
Proof.
  unfold Rmin, Rmax.
  destruct (Rle_dec c (-1)), (Rle_dec (- c) (-1)); decide_cmp.
Qed.

Lemma radToDeg_bounds (a : R) :
  0 <= a <= PI -> 0 <= radToDeg a <= 180.
Proof.
  intros [H0 H1]. pose proof PI_RGT_0 as Hpi. unfold radToDeg. split.
  - apply Rmult_le_pos; [lra|]. left. by apply Rinv_0_lt_compat.
  - apply Rmult_le_reg_r with PI; [done|].
    unfold Rdiv. rewrite Rmult_assoc, Rinv_l by lra. lra.
Qed.

Lemma radToDeg_supplement (a : R) : radToDeg (PI - a) = 180 - radToDeg a.
Proof. pose proof PI_RGT_0. unfold radToDeg. field. lra. Qed.

Lemma foldedAngle_bounds (deg : R) :
  0 <= deg <= 180 -> 0 <= foldedAngle deg <= 90.
Proof.
  intros Hd. unfold foldedAngle, Rgtb, Rltb, Rleb.
  destruct (Rlt_dec 90 deg), (Rle_dec deg 180); simpl; lra.
Qed.

Lemma foldedAngle_supplement (deg : R) :
  0 <= deg <= 180 -> foldedAngle (180 - deg) = foldedAngle deg.
Proof.
  intros Hd. unfold foldedAngle, Rgtb, Rltb, Rleb.
  destruct (Rlt_dec 90 deg), (Rle_dec deg 180),
    (Rlt_dec 90 (180 - deg)), (Rle_dec (180 - deg) 180); simpl; lra.
Qed.

Lemma skyViewCoeffFace_folded (skyPos : vector) (Idif : R)
  (cf : coarseFace) :
  skyViewCoeffFace skyPos Idif cf
  = (1 - 0.5 * (foldedAngle
                  (radToDeg
                     (acos (Rmin (Rmax (dot (coarseSf cf) skyPos
                                        / (magV (coarseSf cf) * magV skyPos
                                           + SMALL)) (-1)) 1))) / 90))
    * Idif.
Proof. reflexivity. Qed.

End SkyCoefficient.

(** X18. solarRayTracingGen, the sky coefficient: for a non-negative
    diffuse intensity every coarse face receives between one half of it
    and all of it, whatever its orientation; and the face turned round
    (area vector reversed) receives the same as the face itself, so that
    a face looking straight away from skyPosVector gets the full diffuse
    intensity. *)
Theorem X18_sky_coefficient_between_half_and_full (skyPos : vector)
  (Idif : R) (cf : SolarRayTracingGen.coarseFace) :
  0 <= Idif ->
  0.5 * Idif <= SolarRayTracingGen.skyViewCoeffFace skyPos Idif cf <= Idif
  /\ SolarRayTracingGen.skyViewCoeffFace skyPos Idif (flipFace cf)
     = SolarRayTracingGen.skyViewCoeffFace skyPos Idif cf.
Proof.
  intros HI. rewrite !skyViewCoeffFace_folded.
  set (c := dot (SolarRayTracingGen.coarseSf cf) skyPos
            / (magV (SolarRayTracingGen.coarseSf cf) * magV skyPos
               + SMALL)).
  pose proof (acos_bound (Rmin (Rmax c (-1)) 1)) as Ha.
  pose proof (radToDeg_bounds _ Ha) as Hd.
  pose proof (foldedAngle_bounds _ Hd) as Hf.
  split.
  - set (f := foldedAngle _) in *. clearbody f. split; nra.
  - unfold flipFace. cbn [SolarRayTracingGen.coarseSf].
    rewrite dot_flip, magV_flip.
    replace (- dot (SolarRayTracingGen.coarseSf cf) skyPos
             / (magV (SolarRayTracingGen.coarseSf cf) * magV skyPos
                + SMALL))
      with (- c) by (unfold c, Rdiv; lra).
    rewrite clamp_unit_odd, acos_opp, radToDeg_supplement.
    by rewrite foldedAngle_supplement.
Qed.

Lemma X18_sky_coefficient_between_half_and_full_witness :
  0.5 * 100
  <= SolarRayTracingGen.skyViewCoeffFace (mkVector 0 0 1) 100
       (horizontalFace (-1)) <= 100.
Proof.
  apply (X18_sky_coefficient_between_half_and_full (mkVector 0 0 1) 100
           (horizontalFace (-1))).
  lra.
Defined.

Section SunCoefficientBound.
Import SolarRayTracingGen.

Lemma dot_sqr_le (a b : vector) : (dot a b)² <= dot a a * dot b b.
Proof.
  destruct a as [a1 a2 a3], b as [b1 b2 b3]. unfold dot, Rsqr. simpl.
  assert (H : (a1 * a1 + a2 * a2 + a3 * a3) * (b1 * b1 + b2 * b2 + b3 * b3)
              - (a1 * b1 + a2 * b2 + a3 * b3) * (a1 * b1 + a2 * b2 + a3 * b3)
              = (a1 * b2 - a2 * b1) * (a1 * b2 - a2 * b1)
                + (a1 * b3 - a3 * b1) * (a1 * b3 - a3 * b1)
                + (a2 * b3 - a3 * b2) * (a2 * b3 - a3 * b2)) by ring.
  pose proof (Rle_0_sqr (a1 * b2 - a2 * b1)) as H1.
  pose proof (Rle_0_sqr (a1 * b3 - a3 * b1)) as H2.
  pose proof (Rle_0_sqr (a2 * b3 - a3 * b2)) as H3.
  unfold Rsqr in H1, H2, H3. lra.
Qed.

Lemma dot_self_nonneg (a : vector) : 0 <= dot a a.
Proof.
  destruct a as [a1 a2 a3]. unfold dot. simpl.
  pose proof (Rle_0_sqr a1). pose proof (Rle_0_sqr a2).
  pose proof (Rle_0_sqr a3). unfold Rsqr in *. lra.
Qed.

Lemma Rabs_dot_le (a b : vector) : Rabs (dot a b) <= magV a * magV b.
Proof.
  unfold magV. rewrite <- sqrt_mult by apply dot_self_nonneg.
  rewrite <- sqrt_Rsqr_abs. apply sqrt_le_1.
  - apply Rle_0_sqr.
  - apply Rmult_le_pos; apply dot_self_nonneg.
  - apply dot_sqr_le.
Qed.

Lemma Rabs_cosPhi_le_1 (Sf sunPos : vector) : Rabs (cosPhi Sf sunPos) <= 1.
Proof.
  unfold cosPhi.
  pose proof (Rabs_dot_le Sf sunPos) as Hd.
  assert (Hm : 0 <= magV Sf * magV sunPos).
  { apply Rmult_le_pos; apply sqrt_pos. }
  pose proof SMALL_pos as Hs.
  unfold Rdiv. rewrite Rabs_mult, Rabs_inv.
  rewrite (Rabs_right (magV Sf * magV sunPos + SMALL)) by lra.
  apply Rmult_le_reg_r with (magV Sf * magV sunPos + SMALL); [lra|].
  rewrite Rmult_assoc, Rinv_l by lra. lra.
Qed.

End SunCoefficientBound.

(** X19. solarRayTracingGen, the sun coefficient: for a non-negative
    direct intensity and a visible fraction of the coarse face between
    0 and 1, the coefficient, with or without the Beer-Lambert term of
    a vegetation region, lies between (visible fraction) |cosPhi| IDN
    and |cosPhi| IDN, and never exceeds IDN. *)
Theorem X19_sun_coefficient_never_exceeds_direct (vegetation : bool)
  (kcLAI : R) (sunPos : vector) (IDN : R)
  (cf : SolarRayTracingGen.coarseFace) :
  0 <= IDN ->
  0 <= SolarRayTracingGen.nVisibleFaceFacesListFINE_avg cf <= 1 ->
  let c := SolarRayTracingGen.cosPhi (SolarRayTracingGen.coarseSf cf)
             sunPos in
  let coeff := SolarRayTracingGen.sunViewCoeffFace vegetation kcLAI sunPos
                 IDN cf in
  SolarRayTracingGen.nVisibleFaceFacesListFINE_avg cf * Rabs c * IDN
  <= coeff <= Rabs c * IDN
  /\ coeff <= IDN.
Proof.
  intros HI Havg c coeff.
  pose proof (Rabs_pos c) as Hc0.
  pose proof (Rabs_cosPhi_le_1 (SolarRayTracingGen.coarseSf cf) sunPos)
    as Hc1.
  fold c in Hc1.
  assert (Hm : 0 <= Rabs c * IDN) by (by apply Rmult_le_pos).
  assert (Hm1 : Rabs c * IDN <= IDN) by nra.
  assert (Hmain :
    SolarRayTracingGen.nVisibleFaceFacesListFINE_avg cf * Rabs c * IDN
    <= coeff <= Rabs c * IDN).
  { unfold coeff, SolarRayTracingGen.sunViewCoeffFace. fold c.
    set (avg := SolarRayTracingGen.nVisibleFaceFacesListFINE_avg cf) in *.
    destruct (SolarRayTracingGen.attenuated vegetation kcLAI sunPos cf)
      eqn:Ea.
    - unfold SolarRayTracingGen.attenuated in Ea.
      apply andb_true_iff in Ea as [Ea _].
      apply andb_true_iff in Ea as [_ Ek].
      apply Rgtb_true in Ek. pose proof SMALL_pos as Hs.
      pose proof (exp_pos (- kcLAI)) as He0.
      assert (He1 : exp (- kcLAI) <= 1).
      { rewrite <- exp_0. left. apply exp_increasing. lra. }
      assert (0 <= (1 - avg) * (Rabs c * IDN)) by (apply Rmult_le_pos; lra).
      split; nra.
    - split; nra. }
  split; [done|]. lra.
Qed.

Lemma X19_sun_coefficient_never_exceeds_direct_witness :
  SolarRayTracingGen.sunViewCoeffFace true 1000 (mkVector 0 0 1) 800
    (horizontalFace (-1)) <= 800.
Proof.
  apply (X19_sun_coefficient_never_exceeds_direct true 1000
           (mkVector 0 0 1) 800 (horizontalFace (-1))).
  - lra.
  - unfold SolarRayTracingGen.nVisibleFaceFacesListFINE_avg,
      horizontalFace. simpl. lra.
Defined.

(** ** solarRayTracingGen: the points of the rays *)

Section ClosestPoint.
Import SolarRayTracingGen.

Lemma magV_nonneg (a : vector) : 0 <= magV a.
Proof. unfold magV. apply sqrt_pos. Qed.

Lemma magV_zero (a : vector) : magV (subV a a) = 0.
Proof.
  unfold magV, dot, subV. simpl.
  replace ((vx a - vx a) * (vx a - vx a) + (vy a - vy a) * (vy a - vy a)
           + (vz a - vz a) * (vz a - vz a)) with 0 by ring.
  apply sqrt_0.
Qed.

(** The search over a list of points: the running distance is a lower
    bound of the distances met, and the running point is the start or a
    point met, at the running distance. *)
Lemma closest_fold (cfo : point) (ps : list point) :
  forall (dist : R) (cf : point),
    let r := fold_left
               (fun '(dist, cf1) cfFine =>
                  if Rltb (magV (subV cfFine cfo)) dist
                  then (magV (subV cfFine cfo), cfFine)
                  else (dist, cf1))
               ps (dist, cf) in
    r.1 <= dist
    /\ (forall p, p ∈ ps -> r.1 <= magV (subV p cfo))
    /\ ((r = (dist, cf)) \/ (r.2 ∈ ps /\ r.1 = magV (subV r.2 cfo))).
Proof.
  induction ps as [|p ps IH]; intros dist cf; simpl.
  - split; [lra|]. split; [intros p Hp; inversion Hp|by left].
  - destruct (Rltb (magV (subV p cfo)) dist) eqn:E.
    + apply Rltb_true in E.
      destruct (IH (magV (subV p cfo)) p) as (H1 & H2 & H3).
      split; [lra|]. split.
      * intros p' Hp'. apply elem_of_cons in Hp' as [->|Hp']; [done|].
        by apply H2.
      * right. destruct H3 as [H3|[H3 H4]].
        -- rewrite H3. simpl. split; [by left|done].
        -- split; [by right|done].
    + apply Rltb_false in E.
      destruct (IH dist cf) as (H1 & H2 & H3).
      split; [done|]. split.
      * intros p' Hp'. apply elem_of_cons in Hp' as [->|Hp']; [lra|].
        by apply H2.
      * destruct H3 as [H3|[H3 H4]]; [by left|].
        right. split; [by right|done].
Qed.

End ClosestPoint.

(** X20. solarRayTracingGen, the point that replaces the centre of a
    coarse face: the point chosen is the coarse centre itself or one of
    the available points (fine face centres and fine points), and it is
    at least as close to the coarse centre as every available point. *)
Theorem X20_closest_available_point (cf : point)
  (availablePoints : list point) :
  let chosen := SolarRayTracingGen.closestAvailablePoint cf
                  availablePoints in
  (chosen = cf \/ chosen ∈ availablePoints)
  /\ (forall p, p ∈ availablePoints ->
                magV (subV chosen cf) <= magV (subV p cf)).
Proof.
  intros chosen. unfold chosen, SolarRayTracingGen.closestAvailablePoint.
  destruct (closest_fold cf availablePoints SolarRayTracingGen.GREAT cf)
    as (H1 & H2 & H3).
  cbv zeta in *.
  destruct H3 as [H3|[H3 H4]].
  - rewrite H3. simpl. split; [by left|].
    intros p Hp. rewrite magV_zero. apply magV_nonneg.
  - split; [by right|]. intros p Hp. rewrite <- H4. by apply H2.
Qed.

Lemma X20_closest_available_point_witness :
  magV (subV (SolarRayTracingGen.closestAvailablePoint (mkVector 0 0 0)
                [mkVector 3 0 0; mkVector 1 0 0]) (mkVector 0 0 0))
  <= magV (subV (mkVector 1 0 0) (mkVector 0 0 0)).
Proof.
  apply (proj2 (X20_closest_available_point (mkVector 0 0 0)
                  [mkVector 3 0 0; mkVector 1 0 0])).
  right. by left.
Defined.

(** X21. solarRayTracingGen, the end point of a solar ray: for a start
    point inside the bounding box of the domain and any sun position
    (the zero vector included), the end point lies inside the box. *)
Theorem X21_solar_ray_ends_inside_the_domain_box
  (start sunPos min_ max_ : point) :
  inBox min_ max_ start ->
  inBox min_ max_ (SolarRayTracingGen.solarEndPoint start sunPos min_ max_).
Proof.
  intros [(Hx1 & Hy1 & Hz1) (Hx2 & Hy2 & Hz2)].
  pose proof (ray_parameter_nonneg (vx min_) (vx max_) (vx start)
                (vx sunPos) (conj Hx1 Hx2)) as Hix.
  pose proof (ray_parameter_nonneg (vy min_) (vy max_) (vy start)
                (vy sunPos) (conj Hy1 Hy2)) as Hiy.
  pose proof (ray_parameter_nonneg (vz min_) (vz max_) (vz start)
                (vz sunPos) (conj Hz1 Hz2)) as Hiz.
  unfold SolarRayTracingGen.solarEndPoint.
  set (i1 := if Rgtb (vx sunPos) 0 then _ else _) in *.
  set (i2 := if Rgtb (vy sunPos) 0 then _ else _) in *.
  set (i3 := if Rgtb (vz sunPos) 0 then _ else _) in *.
  set (i := Rmin i1 (Rmin i2 i3)).
  assert (Hi : 0 <= i /\ i <= i1 /\ i <= i2 /\ i <= i3).
  { unfold i, Rmin. destruct (Rle_dec i2 i3), (Rle_dec i1 _); lra. }
  destruct Hi as (Hi0 & Hi1 & Hi2 & Hi3).
  assert (Hc : 0 <= 1 <= 1) by lra.
  pose proof (ray_component_inside (vx min_) (vx max_) (vx start)
                (vx sunPos) i 1 (conj Hx1 Hx2) Hc (conj Hi0 Hi1)) as Ex.
  pose proof (ray_component_inside (vy min_) (vy max_) (vy start)
                (vy sunPos) i 1 (conj Hy1 Hy2) Hc (conj Hi0 Hi2)) as Ey.
  pose proof (ray_component_inside (vz min_) (vz max_) (vz start)
                (vz sunPos) i 1 (conj Hz1 Hz2) Hc (conj Hi0 Hi3)) as Ez.
  unfold inBox, leV. simpl. lra.
Qed.

Lemma X21_solar_ray_ends_inside_the_domain_box_witness :
  inBox (mkVector 0 0 0) (mkVector 10 10 10)
    (SolarRayTracingGen.solarEndPoint (mkVector 5 5 0) (mkVector 1 (-2) 3)
       (mkVector 0 0 0) (mkVector 10 10 10)).
Proof.
  apply (X21_solar_ray_ends_inside_the_domain_box (mkVector 5 5 0)
           (mkVector 1 (-2) 3) (mkVector 0 0 0) (mkVector 10 10 10)).
  unfold inBox, leV. simpl. lra.
Defined.

(** ** solarRayTracingGen: the numbering of the coarse faces *)

Section CoarseFaceNumbering.
Import SolarRayTracingGen.

Lemma map_shift_seq (k a : nat) (c : Z) :
  c = Z.of_nat a ->
  map (fun i => (c + Z.of_nat i)%Z) (seq 0 k) = map Z.of_nat (seq a k).
Proof.
  revert a c. induction k as [|k IH]; intros a c Hc; [done|].
  simpl. f_equal; [lia|].
  rewrite <- seq_shift, map_map.
  rewrite <- (IH (S a) (c + 1)%Z) by lia.
  apply map_ext. intros i. lia.
Qed.

Lemma appendRange_spec (howMany : Z) (m : labelList) (c : Z) :
  appendRange howMany (m, c)
  = (m ++ map (fun i => (c + Z.of_nat i)%Z) (seq 0 (Z.to_nat howMany)),
     (c + Z.of_nat (Z.to_nat howMany))%Z).
Proof.
  unfold appendRange. induction (Z.to_nat howMany) as [|k IH].
  - simpl. rewrite app_nil_r. f_equal. lia.
  - rewrite Nat.iter_succ, IH, seq_S, map_app. simpl.
    rewrite <- app_assoc. f_equal. lia.
Qed.

Lemma appendRange_consecutive (howMany c : Z) :
  (0 <= c)%Z -> (0 <= howMany)%Z ->
  appendRange howMany (map Z.of_nat (seq 0 (Z.to_nat c)), c)
  = (map Z.of_nat (seq 0 (Z.to_nat (c + howMany))), (c + howMany)%Z).
Proof.
  intros Hc Hh. rewrite appendRange_spec.
  rewrite (map_shift_seq _ (Z.to_nat c)) by lia.
  rewrite <- map_app, <- seq_app. f_equal; [|lia].
  f_equal. f_equal. lia.
Qed.

Lemma insert_filled_at {A : Type} (l : list A) (d x : A) (n k : nat) :
  length l = k -> (k < n)%nat ->
  <[ k := x ]> (l ++ replicate (n - k) d)
  = (l ++ [x]) ++ replicate (n - (k + 1)) d.
Proof.
  intros Hl Hn. replace (n - k)%nat with (S (n - (k + 1))) by lia.
  simpl. rewrite insert_app_r_alt by lia.
  rewrite Hl, Nat.sub_diag. simpl. by rewrite <- app_assoc.
Qed.

Lemma countedWall_filter_snoc (ps : list boundaryPatch) (p : boundaryPatch) :
  filter (fun p => isCountedWall p = true) (ps ++ [p])
  = if isCountedWall p
    then filter (fun p => isCountedWall p = true) ps ++ [p]
    else filter (fun p => isCountedWall p = true) ps.
Proof.
  rewrite filter_app. destruct (isCountedWall p) eqn:E.
  - by rewrite filter_cons_True, filter_nil.
  - rewrite filter_cons_False, filter_nil, app_nil_r; [done|].
    rewrite E. done.
Qed.

(** The state of the loop over the patches after the patches [ps] of a
    mesh with [n] patches. *)
Lemma countStep_prefix (n : nat) (ps : list boundaryPatch) :
  (length ps <= n)%nat ->
  (forall p, p ∈ ps -> (0 <= coarseSize p)%Z) ->
  let s := fold_left countStep ps
             (mkCounts (replicate n 0%Z) 0 0 0 0 (replicate n 0%Z)
                (replicate n 0%Z) [] 0 0 0%Z) in
  sunskyMap_ s = map Z.of_nat (seq 0 (Z.to_nat (nCoarseFacesAll s)))
  /\ countForMapping s = nCoarseFacesAll s
  /\ (0 <= nCoarseFaces s <= nCoarseFacesAll s)%Z
  /\ countAll s = length ps
  /\ count s = length (filter (fun p => isCountedWall p = true) ps)
  /\ howManyCoarseFacesPerPatch s
     = map coarseFacesOf ps ++ replicate (n - length ps) 0%Z
  /\ viewFactorsPatches s
     = map patchIndex (filter (fun p => isCountedWall p = true) ps)
       ++ replicate
            (n - length (filter (fun p => isCountedWall p = true) ps)) 0%Z
  /\ nCoarseFacesAll s = fold_left Z.add (map coarseFacesOf ps) 0%Z.
Proof.
  induction ps as [|p ps IH] using rev_ind; intros Hn Hpos; cbv zeta in *.
  - simpl. rewrite !Nat.sub_0_r. repeat split; done || lia.
  - rewrite length_app in Hn. simpl in Hn.
    destruct IH as (Hmap & Hc & Hle & Hall & Hcount & Hhow & Hvf & Hsum);
      [lia|intros q Hq; apply Hpos, elem_of_app; by left|].
    assert (Hp : (0 <= coarseSize p)%Z).
    { apply Hpos, elem_of_app. right. by apply list_elem_of_singleton. }
    rewrite fold_left_app. simpl.
    set (s := fold_left countStep ps _) in *.
    rewrite countedWall_filter_snoc, !map_app, !length_app, fold_left_app.
    cbn [map length fold_left].
    pose proof (length_filter (fun p => isCountedWall p = true) ps) as Hfl.
    assert (Hhow1 : forall x,
               <[ countAll s := x ]> (howManyCoarseFacesPerPatch s)
               = (map coarseFacesOf ps ++ [x])
                 ++ replicate (n - (length ps + 1)) 0%Z).
    { intros x. rewrite Hall, Hhow.
      apply insert_filled_at; [by rewrite length_map|lia]. }
    assert (Ecw : isCountedWall p = isWall p && Z.ltb 0 (fineSize p))
      by done.
    assert (Ecf : coarseFacesOf p
                  = if (isWall p || isFixedValue p) && Z.ltb 0 (fineSize p)
                    then coarseSize p else 0%Z) by done.
    rewrite Ecw, Ecf. clear Ecw Ecf.
    unfold countStep.
    destruct (isWall p) eqn:Ew, (Z.ltb 0 (fineSize p)) eqn:Es,
             (isFixedValue p) eqn:Ef;
      cbn [andb orb];
      rewrite ?Hc, ?Hmap, ?appendRange_consecutive by lia;
      cbn [sunskyMap_ countForMapping nCoarseFaces nCoarseFacesAll countAll
           count howManyCoarseFacesPerPatch viewFactorsPatches];
      rewrite Hhow1, ?map_app, ?length_app; cbn [map length];
      rewrite ?Hcount, ?Hvf;
      rewrite ?(insert_filled_at _ _ _ n) by (rewrite ?length_map; lia);
      rewrite ?Z.add_0_r;
      repeat split; done || lia.
Qed.

Lemma countPatches_fields (patches : list boundaryPatch) :
  (forall p, p ∈ patches -> (0 <= coarseSize p)%Z) ->
  let c := countPatches patches in
  sunskyMap_ c = map Z.of_nat (seq 0 (Z.to_nat (nCoarseFacesAll c)))
  /\ (0 <= nCoarseFaces c <= nCoarseFacesAll c)%Z
  /\ howManyCoarseFacesPerPatch c = map coarseFacesOf patches
  /\ viewFactorsPatches c
     = map patchIndex (filter (fun p => isCountedWall p = true) patches)
  /\ nCoarseFacesAll c = fold_left Z.add (map coarseFacesOf patches) 0%Z.
Proof.
  intros Hpos.
  destruct (countStep_prefix (length patches) patches (Nat.le_refl _) Hpos)
    as (Hmap & _ & Hle & _ & Hcount & Hhow & Hvf & Hsum).
  unfold countPatches. cbv zeta.
  cbn [sunskyMap_ nCoarseFaces nCoarseFacesAll howManyCoarseFacesPerPatch
       viewFactorsPatches].
  rewrite Hvf, Hcount, Hhow, Nat.sub_diag.
  rewrite take_app_le by (by rewrite length_map).
  rewrite take_ge by (by rewrite length_map).
  simpl. rewrite app_nil_r. done.
Qed.

Lemma lookup_total_map_seq (a n i : nat) :
  (i < n)%nat -> map Z.of_nat (seq a n) !!! i = Z.of_nat (a + i).
Proof.
  revert a i. induction n as [|n IH]; intros a i Hi; [lia|].
  destruct i as [|i]; simpl.
  - f_equal. lia.
  - rewrite IH by lia. f_equal. lia.
Qed.

Lemma lookup_total_map_Z (f : Z -> Z) (l : list Z) (i : nat) :
  (i < length l)%nat -> map f l !!! i = f (l !!! i).
Proof.
  revert i. induction l as [|x l IH]; intros i Hi; simpl in Hi; [lia|].
  destruct i as [|i]; simpl; [done|]. apply IH. lia.
Qed.

Lemma localMaps_lookup (ns : list nat) (q : nat) :
  (q < length ns)%nat ->
  localMaps ns !!! q = map Z.of_nat (seq 0 (ns !!! q)).
Proof.
  revert q. induction ns as [|n ns IH]; intros q Hq; simpl in Hq; [lia|].
  destruct q as [|q]; simpl; [done|]. apply IH. lia.
Qed.

Lemma sum_list_take_S (ns : list nat) (k : nat) :
  (k < length ns)%nat ->
  sum_list (take (S k) ns) = (sum_list (take k ns) + ns !!! k)%nat.
Proof.
  revert k. induction ns as [|n ns IH]; intros k Hk; simpl in Hk; [lia|].
  destruct k as [|k].
  - destruct ns; simpl; lia.
  - change (take (S (S k)) (n :: ns)) with (n :: take (S k) ns).
    change (take (S k) (n :: ns)) with (n :: take k ns).
    cbn [sum_list sum_list_with]. rewrite IH by lia.
    change ((n :: ns) !!! S k) with (ns !!! k). lia.
Qed.

(** The loop over the processes after the processes below [k]. *)
Lemma shiftMaps_prefix (ns : list nat) (k : nat) :
  (k <= length ns)%nat ->
  let r := fold_left
             (fun '(maps, sunskyMapCounter) procI =>
                let m := maps !!! procI in
                let m1 := if Nat.ltb 0 procI
                          then map (fun x => (x + sunskyMapCounter)%Z) m
                          else m in
                (<[ procI := m1 ]> maps,
                 (sunskyMapCounter + Z.of_nat (length m1))%Z))
             (seq 0 k) (localMaps ns, 0%Z) in
  length r.1 = length ns
  /\ r.2 = Z.of_nat (sum_list (take k ns))
  /\ (forall q, (q < length ns)%nat -> length (r.1 !!! q) = ns !!! q)
  /\ (forall q i, (q < length ns)%nat -> (i < ns !!! q)%nat ->
        (r.1 !!! q) !!! i
        = if Nat.ltb q k then Z.of_nat (toGlobal ns q i) else Z.of_nat i).
Proof.
  induction k as [|k IH]; intros Hk; cbv zeta in *.
  - simpl. split; [by unfold localMaps; rewrite length_map|].
    split; [done|]. split.
    + intros q Hq. rewrite localMaps_lookup by done.
      by rewrite length_map, length_seq.
    + intros q i Hq Hi. rewrite localMaps_lookup by done.
      by rewrite lookup_total_map_seq.
  - destruct IH as (Hlen & Hc & Hlens & Hval); [lia|].
    rewrite seq_S, fold_left_app. simpl.
    destruct (fold_left _ (seq 0 k) _) as [maps c]. simpl in *.
    set (m1 := if Nat.ltb 0 k then map (fun x => (x + c)%Z) (maps !!! k)
               else maps !!! k).
    assert (Hm1 : length m1 = ns !!! k).
    { unfold m1. destruct (Nat.ltb 0 k); rewrite ?length_map; apply Hlens;
        lia. }
    assert (Hm1v : forall i, (i < ns !!! k)%nat ->
                   m1 !!! i = Z.of_nat (toGlobal ns k i)).
    { intros i Hi. unfold m1, toGlobal.
      destruct (Nat.ltb 0 k) eqn:E.
      - rewrite lookup_total_map_Z by (rewrite Hlens; lia).
        rewrite Hval by lia. rewrite Nat.ltb_irrefl. lia.
      - apply Nat.ltb_ge in E. assert (k = 0)%nat as -> by lia.
        rewrite Hval by lia. rewrite Nat.ltb_irrefl, take_0. simpl. done. }
    split; [by rewrite length_insert|].
    split; [rewrite sum_list_take_S by lia; rewrite Hm1; lia|].
    split.
    + intros q Hq. destruct (decide (q = k)) as [->|Hne].
      * rewrite list_lookup_total_insert_eq by lia. done.
      * rewrite list_lookup_total_insert_ne by done. by apply Hlens.
    + intros q i Hq Hi. destruct (decide (q = k)) as [->|Hne].
      * rewrite list_lookup_total_insert_eq by lia.
        rewrite Hm1v by done.
        by replace (Nat.ltb k (S k)) with true
          by (symmetry; apply Nat.ltb_lt; lia).
      * rewrite list_lookup_total_insert_ne by done.
        rewrite Hval by done.
        destruct (Nat.ltb q k) eqn:E1, (Nat.ltb q (S k)) eqn:E2; try done.
        -- apply Nat.ltb_lt in E1. apply Nat.ltb_ge in E2. lia.
        -- apply Nat.ltb_ge in E1. apply Nat.ltb_lt in E2. lia.
Qed.

Lemma shiftMaps_localMaps (ns : list nat) (q i : nat) :
  (q < length ns)%nat -> (i < ns !!! q)%nat ->
  (shiftMaps (localMaps ns) !!! q) !!! i = Z.of_nat (toGlobal ns q i).
Proof.
  intros Hq Hi. unfold shiftMaps.
  replace (length (localMaps ns)) with (length ns)
    by (by unfold localMaps; rewrite length_map).
  destruct (shiftMaps_prefix ns (length ns) (Nat.le_refl _))
    as (_ & _ & _ & Hval).
  rewrite Hval by done.
  by replace (Nat.ltb q (length ns)) with true
    by (symmetry; by apply Nat.ltb_lt).
Qed.

Lemma localMaps_of_patches (pss : list (list boundaryPatch)) :
  (forall ps p, ps ∈ pss -> p ∈ ps -> (0 <= coarseSize p)%Z) ->
  map (fun ps => sunskyMap_ (countPatches ps)) pss
  = localMaps
      (map (fun ps => Z.to_nat (nCoarseFacesAll (countPatches ps))) pss).
Proof.
  intros Hpos. unfold localMaps. rewrite map_map.
  induction pss as [|ps pss IH]; [done|]. simpl. f_equal.
  - apply countPatches_fields. intros p Hp. apply (Hpos ps); [|done].
    apply elem_of_cons. by left.
  - apply IH. intros ps' p Hps Hp. apply (Hpos ps'); [|done].
    apply elem_of_cons. by right.
Qed.

End CoarseFaceNumbering.

(** X22.  [solarRayTracingGen], the loop over the patches: when no coarse
    patch has a negative size, the local map [sunskyMap_] is the list
    0, 1, ..., [nCoarseFacesAll]-1, [nCoarseFacesAll] is the sum of
    [howManyCoarseFacesPerPatch], [nCoarseFaces] does not exceed it, the
    entry of [howManyCoarseFacesPerPatch] of a patch is its coarse size
    when the patch is a non-empty wall or fixed-value patch and 0
    otherwise, and [viewFactorsPatches] lists, in patch order, the
    indices of the non-empty wall patches. *)
Theorem X22_coarse_faces_are_numbered_consecutively
  (patches : list boundaryPatch) :
  (forall p, p ∈ patches -> (0 <= coarseSize p)%Z) ->
  let c := SolarRayTracingGen.countPatches patches in
  SolarRayTracingGen.sunskyMap_ c
  = map Z.of_nat
      (seq 0 (Z.to_nat (SolarRayTracingGen.nCoarseFacesAll c)))
  /\ SolarRayTracingGen.nCoarseFacesAll c
     = fold_left Z.add (SolarRayTracingGen.howManyCoarseFacesPerPatch c)
         0%Z
  /\ (0 <= SolarRayTracingGen.nCoarseFaces c
       <= SolarRayTracingGen.nCoarseFacesAll c)%Z
  /\ SolarRayTracingGen.howManyCoarseFacesPerPatch c
     = map coarseFacesOf patches
  /\ SolarRayTracingGen.viewFactorsPatches c
     = map patchIndex (filter (fun p => isCountedWall p = true) patches).
Proof.
  intros Hpos.
  destruct (countPatches_fields patches Hpos)
    as (Hmap & Hle & Hhow & Hvf & Hsum).
  cbv zeta. rewrite Hhow. done.
Qed.

Lemma X22_coarse_faces_are_numbered_consecutively_witness :
  let patches := [mkPatch 0 false true 2 8; mkPatch 1 true false 3 12;
                  mkPatch 2 false false 4 16; mkPatch 3 false true 1 4;
                  mkPatch 4 false true 5 0] in
  let c := SolarRayTracingGen.countPatches patches in
  SolarRayTracingGen.sunskyMap_ c = [0; 1; 2; 3; 4; 5]%Z
  /\ SolarRayTracingGen.howManyCoarseFacesPerPatch c = [2; 3; 0; 1; 0]%Z
  /\ SolarRayTracingGen.viewFactorsPatches c = [0; 3]%Z.
Proof.
  cbv zeta.
  destruct (X22_coarse_faces_are_numbered_consecutively
              [mkPatch 0 false true 2 8; mkPatch 1 true false 3 12;
               mkPatch 2 false false 4 16; mkPatch 3 false true 1 4;
               mkPatch 4 false true 5 0])
    as (Hmap & _ & _ & Hhow & Hvf).
  - intros p Hp. apply list_elem_of_In in Hp. simpl in Hp.
    destruct Hp as [<-|[<-|[<-|[<-|[<-|[]]]]]]; simpl; lia.
  - rewrite Hmap, Hhow, Hvf. repeat split; reflexivity.
Defined.

(** X23.  [solarRayTracingGen], the gathered maps: after the loop over
    the processes has shifted the map of every process but the first by
    the number of entries of the processes before it, entry [i] of the
    map of process [q] is the global index [toGlobal q i] of the
    numbering in which the coarse faces of the processes follow one
    another in process order. *)
Theorem X23_shifted_maps_give_the_global_numbering
  (pss : list (list boundaryPatch)) (q i : nat) :
  (forall ps p, ps ∈ pss -> p ∈ ps -> (0 <= coarseSize p)%Z) ->
  let sizes :=
    map (fun ps =>
           Z.to_nat (SolarRayTracingGen.nCoarseFacesAll
                       (SolarRayTracingGen.countPatches ps))) pss in
  (q < length pss)%nat -> (i < sizes !!! q)%nat ->
  (SolarRayTracingGen.shiftMaps
     (map (fun ps => SolarRayTracingGen.sunskyMap_
                       (SolarRayTracingGen.countPatches ps)) pss)
   !!! q) !!! i
  = Z.of_nat (toGlobal sizes q i).
Proof.
  intros Hpos sizes Hq Hi.
  rewrite localMaps_of_patches by done.
  apply shiftMaps_localMaps; [|done].
  unfold sizes. by rewrite length_map.
Qed.

Lemma X23_shifted_maps_give_the_global_numbering_witness :
  (SolarRayTracingGen.shiftMaps
     (map (fun ps => SolarRayTracingGen.sunskyMap_
                       (SolarRayTracingGen.countPatches ps))
        [[mkPatch 0 false true 2 8; mkPatch 1 true false 3 12];
         [mkPatch 0 false true 4 16];
         [mkPatch 0 false false 7 7; mkPatch 1 false true 2 6]])
   !!! 2%nat) !!! 1%nat
  = 10%Z.
Proof.
  rewrite (X23_shifted_maps_give_the_global_numbering _ 2 1).
  - reflexivity.
  - intros ps p Hps Hp. apply list_elem_of_In in Hps. simpl in Hps.
    destruct Hps as [<-|[<-|[<-|[]]]];
      apply list_elem_of_In in Hp; simpl in Hp;
      repeat (destruct Hp as [<-|Hp]; [simpl; lia|]); destruct Hp.
  - simpl. lia.
  - vm_compute. lia.
Defined.
(** ** simplifiedVegetation: radiation, resistances and fluxes *)

(** A loop over the indices below [n] that writes [v i] where [c i]
    holds. *)
Lemma fold_cond_insert (c : nat -> bool) (v : nat -> R) (n : nat)
  (l : list R) :
  let l' := fold_left (fun l1 i => if c i then <[ i := v i ]> l1 else l1)
                      (seq 0 n) l in
  length l' = length l
  /\ forall i, l' !!! i
               = if c i && Nat.ltb i n && Nat.ltb i (length l)
                 then v i else l !!! i.
Proof.
  induction n as [|n IH]; cbv zeta in *.
  - simpl. split; [done|]. intros i. by rewrite andb_false_r.
  - rewrite seq_S, fold_left_app. simpl.
    destruct IH as [Hlen Hval].
    set (l' := fold_left _ (seq 0 n) l) in *.
    assert (Hn : Nat.ltb n n = false) by apply Nat.ltb_irrefl.
    assert (Hn' : Nat.ltb n (S n) = true) by (apply Nat.ltb_lt; lia).
    destruct (c n) eqn:Ec.
    + split; [by rewrite length_insert|]. intros i.
      destruct (decide (i = n)) as [->|Hne].
      * rewrite Ec, Hn'. simpl.
        destruct (Nat.ltb n (length l)) eqn:El.
        -- apply Nat.ltb_lt in El.
           rewrite list_lookup_total_insert_eq by lia. done.
        -- apply Nat.ltb_ge in El. rewrite list_insert_ge by lia.
           rewrite Hval, Hn, andb_false_r. done.
      * rewrite list_lookup_total_insert_ne by done. rewrite Hval.
        replace (Nat.ltb i (S n)) with (Nat.ltb i n); [done|].
        destruct (Nat.ltb i n) eqn:E1; symmetry.
        -- apply Nat.ltb_lt in E1. apply Nat.ltb_lt. lia.
        -- apply Nat.ltb_ge in E1. apply Nat.ltb_ge. lia.
    + split; [done|]. intros i. rewrite Hval.
      destruct (decide (i = n)) as [->|Hne].
      * by rewrite Ec.
      * replace (Nat.ltb i (S n)) with (Nat.ltb i n); [done|].
        destruct (Nat.ltb i n) eqn:E1; symmetry.
        -- apply Nat.ltb_lt in E1. apply Nat.ltb_lt. lia.
        -- apply Nat.ltb_ge in E1. apply Nat.ltb_ge. lia.
Qed.

Lemma zip_with_index (f : R -> R -> R) (a b : list R) :
  length a = length b ->
  zip_with f a b
  = map (fun i => f (a !!! i) (b !!! i)) (seq 0 (length a)).
Proof.
  revert b. induction a as [|x a IH]; intros [|y b] Hl; try done.
  simpl in *. f_equal. rewrite <- seq_shift, map_map. apply IH. lia.
Qed.

Section CanopyRadiation.
Import SimplifiedVegetation.

Variables (LAD_ d : scalarField) (Q Vv : scalar).

Lemma radiation_fold (l : list nat) (a b : scalarField) :
  fold_left (radiationStep LAD_ d Q Vv) l (a, b)
  = (fold_left (fun l1 i => if Rgtb (LAD_ !!! i) (10 * SMALL)
                            then <[ i := - d !!! i + Q / Vv ]> l1 else l1)
               l a,
     fold_left (fun l1 i => if Rgtb (LAD_ !!! i) (10 * SMALL)
                            then <[ i := - d !!! i / LAD_ !!! i ]> l1
                            else l1)
               l b).
Proof.
  revert a b. induction l as [|i l IH]; intros a b; [done|].
  simpl. unfold radiationStep at 2.
  destruct (Rgtb (LAD_ !!! i) (10 * SMALL)); simpl; apply IH.
Qed.

Lemma vegetated_pos (lad : R) :
  lad <> 10 * SMALL ->
  pos (lad - 10 * SMALL) = if Rgtb lad (10 * SMALL) then 1 else 0.
Proof.
  intros Hne. unfold pos, Rgeb, Rleb, Rgtb, Rltb.
  destruct (Rle_dec 0 (lad - 10 * SMALL)), (Rlt_dec (10 * SMALL) lad);
    try done; lra.
Qed.

End CanopyRadiation.

(** X24.  [simplifiedVegetation::radiation]: when no cell has a leaf
    area density of exactly [10*SMALL] and the vegetated volume is not
    zero, the volume integral of [Rn_ + divqrswi] over the vegetated
    cells equals [integrateQr]: the long-wave flux through the boundary
    of the vegetation is spread over the vegetated volume, no more and
    no less.  The cells without vegetation keep their [Rn_] and
    [Rg_]. *)
Theorem X24_boundary_flux_is_spread_over_the_canopy
  (time : R) (sunPosVector_x : list R) (divqrsw : list (list R))
  (magSf vegiPatchQr LAD_ V Rn_ Rg_ : list R) :
  length V = length LAD_ -> length Rn_ = length LAD_ ->
  (forall lad, lad ∈ LAD_ -> lad <> 10 * SMALL) ->
  SimplifiedVegetation.vegiVolume LAD_ V <> 0 ->
  let r := SimplifiedVegetation.radiation time sunPosVector_x divqrsw
             magSf vegiPatchQr LAD_ V Rn_ Rg_ in
  let d := SimplifiedVegetation.divqrswi divqrsw
             (DirectAndDiffuse.findRange time sunPosVector_x).1
             (DirectAndDiffuse.findRange time sunPosVector_x).2
             (DirectAndDiffuse.hi_fraction time sunPosVector_x) in
  sumList (map (fun i => pos (LAD_ !!! i - 10 * SMALL) * V !!! i
                         * (r.1 !!! i + d !!! i))
               (seq 0 (length LAD_)))
  = SimplifiedVegetation.integrateQr magSf vegiPatchQr
  /\ forall i, LAD_ !!! i <= 10 * SMALL ->
               r.1 !!! i = Rn_ !!! i /\ r.2 !!! i = Rg_ !!! i.
Proof.
  intros HV HRn Hne Hvol r d.
  unfold r, SimplifiedVegetation.radiation. fold d.
  set (Q := SimplifiedVegetation.integrateQr magSf vegiPatchQr).
  set (Vv := SimplifiedVegetation.vegiVolume LAD_ V) in *.
  rewrite radiation_fold. cbn [fst snd].
  destruct (fold_cond_insert
              (fun i => Rgtb (LAD_ !!! i) (10 * SMALL))
              (fun i => - d !!! i + Q / Vv) (length LAD_) Rn_)
    as [_ HvalN].
  destruct (fold_cond_insert
              (fun i => Rgtb (LAD_ !!! i) (10 * SMALL))
              (fun i => - d !!! i / LAD_ !!! i) (length LAD_) Rg_)
    as [_ HvalG].
  cbv zeta in HvalN, HvalG. split.
  - rewrite (map_ext_in _
               (fun i => pos (LAD_ !!! i - 10 * SMALL) * V !!! i
                         * (Q / Vv))).
    + rewrite <- (map_map
                   (fun i => pos (LAD_ !!! i - 10 * SMALL) * V !!! i)
                   (fun x => x * (Q / Vv))).
      rewrite sumList_scale.
      rewrite <- (zip_with_index
                   (fun lad v => pos (lad - 10 * SMALL) * v) LAD_ V)
        by done.
      change (Vv * (Q / Vv) = Q). by field.
    + intros i Hi. apply in_seq in Hi. rewrite HvalN.
      assert (Hlad : LAD_ !!! i <> 10 * SMALL).
      { apply Hne, list_elem_of_lookup_total_2. lia. }
      rewrite (vegetated_pos _ Hlad).
      destruct (Rgtb (LAD_ !!! i) (10 * SMALL)); [|lra].
      replace (Nat.ltb i (length LAD_)) with true
        by (symmetry; apply Nat.ltb_lt; lia).
      replace (Nat.ltb i (length Rn_)) with true
        by (symmetry; apply Nat.ltb_lt; lia).
      simpl. lra.
  - intros i Hi. rewrite HvalN, HvalG.
    assert (E : Rgtb (LAD_ !!! i) (10 * SMALL) = false).
    { unfold Rgtb, Rltb. destruct (Rlt_dec _ _); [lra|done]. }
    by rewrite E.
Qed.

Lemma X24_boundary_flux_is_spread_over_the_canopy_witness :
  let r := SimplifiedVegetation.radiation 5 [0; 10] [[10; 20; 30]; [30; 40; 50]]
             [2; 3] [4; 6] [1; 0; 3] [2; 5; 4] [7; 8; 9] [1; 1; 1] in
  r.1 !!! 1%nat = 8 /\ r.2 !!! 1%nat = 1.
Proof.
  apply (X24_boundary_flux_is_spread_over_the_canopy
           5 [0; 10] [[10; 20; 30]; [30; 40; 50]]
           [2; 3] [4; 6] [1; 0; 3] [2; 5; 4] [7; 8; 9] [1; 1; 1]).
  - reflexivity.
  - reflexivity.
  - intros lad Hlad. apply list_elem_of_In in Hlad. simpl in Hlad.
    unfold SMALL, Q2R. cbn [QArith_base.Qnum QArith_base.Qden].
    destruct Hlad as [<-|[<-|[<-|[]]]]; lra.
  - unfold SimplifiedVegetation.vegiVolume, sumList, pos, Rgeb, Rleb,
      SMALL, Q2R.
    cbn [QArith_base.Qnum QArith_base.Qden zip_with fold_left].
    repeat destruct (Rle_dec _ _); lra.
  - simpl. unfold SMALL, Q2R. cbn [QArith_base.Qnum QArith_base.Qden].
    lra.
Defined.

Section Resistances.
Import SimplifiedVegetation.

Variables (C_ l_ rsMin_ : scalar) (LAD_ magU T q Rg_ : scalarField).

#[local] Abbreviation veg i := (Rgtb (LAD_ !!! i) (10 * SMALL)).
#[local] Abbreviation evOf i := (p_ * q !!! i / (0.621945 + q !!! i)).
#[local] Abbreviation VPDOf i := (calc_evsat (T !!! i) - evOf i).

Lemma resistance_fold (l : list nat) (s : resistanceFields) :
  let cond v := fun l1 i => if veg i then <[ i := v i ]> l1 else l1 in
  let s' := fold_left (resistanceStep C_ l_ rsMin_ LAD_ magU T q Rg_) l s
  in
  ra_ s' = fold_left (cond (fun i => C_ * Rpower (l_ / magU !!! i) 0.5))
             l (ra_ s)
  /\ ev_ s' = fold_left (cond (fun i => evOf i)) l (ev_ s)
  /\ evsat_ s' = fold_left (cond (fun i => calc_evsat (T !!! i))) l
                   (evsat_ s)
  /\ VPD_ s' = fold_left (cond (fun i => VPDOf i)) l (VPD_ s)
  /\ rs_ s' = fold_left
                (cond (fun i => rsMin_ * f1 (Rg_ !!! i) * f2 (VPDOf i)))
                l (rs_ s).
Proof.
  cbv zeta. revert s. induction l as [|i l IH]; intros s; [done|].
  simpl. unfold resistanceStep at 2 4 6 8 10.
  destruct (veg i); apply IH.
Qed.

Lemma f1_pos (Rg : R) : 0 < f1 Rg.
Proof.
  unfold f1, Q2R. cbn [QArith_base.Qnum QArith_base.Qden].
  apply Rplus_lt_0_compat; apply Rmult_lt_0_compat;
    try apply exp_pos; lra.
Qed.

Lemma f2_ge (VPD : R) : 0.4372 <= f2 VPD.
Proof.
  unfold f2, Rltb. destruct (Rlt_dec VPD 0); [lra|].
  assert (1 <= Rpower (VPD + 1) 0.204).
  { unfold Rpower. rewrite <- exp_0 at 1.
    destruct (Req_dec VPD 0) as [->|Hne].
    - rewrite Rplus_0_l, ln_1, Rmult_0_r. lra.
    - left. apply exp_increasing.
      assert (0 < ln (VPD + 1)).
      { rewrite <- ln_1. apply ln_increasing; lra. }
      unfold Q2R. cbn [QArith_base.Qnum QArith_base.Qden]. nra. }
  unfold Q2R in *. cbn [QArith_base.Qnum QArith_base.Qden] in *. nra.
Qed.

Lemma Rpower_half_sqr (x : R) : 0 < x -> Rpower x 0.5 * Rpower x 0.5 = x.
Proof.
  intros Hx. rewrite <- Rpower_plus.
  replace (0.5 + 0.5) with 1
    by (unfold Q2R; cbn [QArith_base.Qnum QArith_base.Qden]; lra).
  by apply Rpower_1.
Qed.

End Resistances.

(** X25.  [simplifiedVegetation::resistance]: for positive [C], [l] and
    [rsMin] and a positive wind speed, a vegetated cell gets a positive
    aerodynamic resistance that follows the square-root law
    [ra^2 * magU = C^2 * l], a vapour pressure deficit [evsat - ev] and
    a stomatal resistance of at least [0.4372 * rsMin * f1(Rg)], which
    is positive; the cells without vegetation keep their values. *)
Theorem X25_resistances_of_vegetated_cells_are_positive
  (C_ l_ rsMin_ : R) (LAD_ magU T q Rg_ : list R)
  (s : SimplifiedVegetation.resistanceFields) (i : nat) :
  0 < C_ -> 0 < l_ -> 0 < rsMin_ ->
  (i < length LAD_)%nat ->
  (i < length (SimplifiedVegetation.ra_ s))%nat ->
  (i < length (SimplifiedVegetation.rs_ s))%nat ->
  (i < length (SimplifiedVegetation.VPD_ s))%nat ->
  (i < length (SimplifiedVegetation.ev_ s))%nat ->
  (i < length (SimplifiedVegetation.evsat_ s))%nat ->
  0 < magU !!! i ->
  let s' := SimplifiedVegetation.resistance C_ l_ rsMin_ LAD_ magU T q Rg_
              s in
  if Rgtb (LAD_ !!! i) (10 * SMALL)
  then 0 < SimplifiedVegetation.ra_ s' !!! i
       /\ SimplifiedVegetation.ra_ s' !!! i
          * SimplifiedVegetation.ra_ s' !!! i * magU !!! i
          = C_ * C_ * l_
       /\ SimplifiedVegetation.VPD_ s' !!! i
          = SimplifiedVegetation.evsat_ s' !!! i
            - SimplifiedVegetation.ev_ s' !!! i
       /\ 0 < 0.4372 * rsMin_ * SimplifiedVegetation.f1 (Rg_ !!! i)
          <= SimplifiedVegetation.rs_ s' !!! i
  else SimplifiedVegetation.ra_ s' !!! i
       = SimplifiedVegetation.ra_ s !!! i
       /\ SimplifiedVegetation.rs_ s' !!! i
          = SimplifiedVegetation.rs_ s !!! i.
Proof.
  intros HC Hl Hrs Hi Hra Hrs' HVPD Hev Hevsat HU s'.
  destruct (resistance_fold C_ l_ rsMin_ LAD_ magU T q Rg_
              (seq 0 (length LAD_)) s)
    as (Era & Eev & Eevsat & EVPD & Ers).
  fold (SimplifiedVegetation.resistance C_ l_ rsMin_ LAD_ magU T q Rg_ s)
    in Era, Eev, Eevsat, EVPD, Ers.
  fold s' in Era, Eev, Eevsat, EVPD, Ers.
  rewrite Era, Eev, Eevsat, EVPD, Ers.
  assert (Hlt : forall n, (i < n)%nat -> Nat.ltb i n = true)
    by (intros n Hn; by apply Nat.ltb_lt).
  repeat match goal with
         | |- context [fold_left (fun l1 i0 => if _ then <[ i0 := @?v i0 ]> l1
                                               else l1)
                                 (seq 0 ?n) ?l !!! i] =>
             rewrite (proj2 (fold_cond_insert
                               (fun i => Rgtb (LAD_ !!! i) (10 * SMALL))
                               v n l) i)
         end.
  rewrite !Hlt by done.
  destruct (Rgtb (LAD_ !!! i) (10 * SMALL)); cbn [andb]; [|done].
  assert (Hx : 0 < l_ / magU !!! i) by (by apply Rdiv_lt_0_compat).
  pose proof (Rpower_half_sqr _ Hx) as Hsq.
  assert (Hp : 0 < Rpower (l_ / magU !!! i) 0.5) by apply exp_pos.
  pose proof (f1_pos (Rg_ !!! i)) as Hf1.
  pose proof
    (f2_ge (SimplifiedVegetation.calc_evsat (T !!! i)
            - SimplifiedVegetation.p_ * q !!! i / (0.621945 + q !!! i)))
    as Hf2.
  repeat split.
  - by apply Rmult_lt_0_compat.
  - transitivity (C_ * C_ * (Rpower (l_ / magU !!! i) 0.5
                             * Rpower (l_ / magU !!! i) 0.5)
                  * magU !!! i); [ring|].
    rewrite Hsq. field. lra.
  - assert (0 < rsMin_ * SimplifiedVegetation.f1 (Rg_ !!! i))
      by (by apply Rmult_lt_0_compat).
    unfold Q2R in *. cbn [QArith_base.Qnum QArith_base.Qden] in *. nra.
  - assert (0 < rsMin_ * SimplifiedVegetation.f1 (Rg_ !!! i))
      by (by apply Rmult_lt_0_compat).
    pose proof (Rmult_le_compat_l _ _ _ (Rlt_le _ _ H) Hf2) as Hle.
    unfold Q2R in *. cbn [QArith_base.Qnum QArith_base.Qden] in *. lra.
Qed.

Lemma X25_resistances_of_vegetated_cells_are_positive_witness :
  let s' := SimplifiedVegetation.resistance 130 0.1 150 [2; 0] [4; 4]
              [300; 300] [0.01; 0.01] [100; 100]
              (SimplifiedVegetation.mkResistance [0; 0] [0; 0] [0; 0]
                 [0; 0] [0; 0]) in
  0 < SimplifiedVegetation.ra_ s' !!! 0%nat
  /\ 0 < SimplifiedVegetation.rs_ s' !!! 0%nat.
Proof.
  cbv zeta.
  assert (Hv : Rgtb ([2; 0] !!! 0%nat) (10 * SMALL) = true).
  { simpl. unfold Rgtb, Rltb, SMALL, Q2R.
    cbn [QArith_base.Qnum QArith_base.Qden].
    destruct (Rlt_dec _ _); [done|lra]. }
  pose proof (X25_resistances_of_vegetated_cells_are_positive
                130 0.1 150 [2; 0] [4; 4] [300; 300] [0.01; 0.01]
                [100; 100]
                (SimplifiedVegetation.mkResistance [0; 0] [0; 0] [0; 0]
                   [0; 0] [0; 0]) 0
                ltac:(lra)
                ltac:(unfold Q2R; cbn [QArith_base.Qnum QArith_base.Qden];
                      lra)
                ltac:(lra) ltac:(simpl; lia) ltac:(simpl; lia)
                ltac:(simpl; lia) ltac:(simpl; lia) ltac:(simpl; lia)
                ltac:(simpl; lia) ltac:(simpl; lra)) as H.
  cbv zeta in H. rewrite Hv in H.
  destruct H as (H1 & _ & _ & H2 & H3).
  split; [done|]. lra.
Defined.

(** X26.  [simplifiedVegetation::calculate], the fluxes after the
    iteration: in a cell with leaf area density and aerodynamic
    resistance different from zero, the net radiation [Rn] that is not
    returned as sensible or latent heat equals
    [2*rhoa*cpa*LAD/ra] times the change that one more evaluation of
    the leaf energy balance would make to the leaf temperature.  At a
    leaf temperature that the balance leaves unchanged the two fluxes
    add up to [Rn]. *)
Theorem X26_leaf_fluxes_balance_the_net_radiation
  (nEvapSides : R) (c : SimplifiedVegetation.cell) (Tl : R) :
  SimplifiedVegetation.LAD c <> 0 -> SimplifiedVegetation.ra c <> 0 ->
  let fl := SimplifiedVegetation.finalFluxes nEvapSides c Tl in
  let Qlat := fl.1.2 in
  let Qsen := fl.2 in
  SimplifiedVegetation.Rn c - Qsen - Qlat
  = 2.0 * SimplifiedVegetation.rhoa_ * SimplifiedVegetation.cpa_
    * SimplifiedVegetation.LAD c / SimplifiedVegetation.ra c
    * (SimplifiedVegetation.leafBalance nEvapSides c Tl - Tl)
  /\ (SimplifiedVegetation.leafBalance nEvapSides c Tl = Tl ->
      Qsen + Qlat = SimplifiedVegetation.Rn c).
Proof.
  intros HLAD Hra fl Qlat Qsen.
  assert (Hid : SimplifiedVegetation.Rn c - Qsen - Qlat
                = 2.0 * SimplifiedVegetation.rhoa_
                  * SimplifiedVegetation.cpa_
                  * SimplifiedVegetation.LAD c / SimplifiedVegetation.ra c
                  * (SimplifiedVegetation.leafBalance nEvapSides c Tl
                     - Tl)).
  { unfold Qlat, Qsen, fl, SimplifiedVegetation.finalFluxes,
      SimplifiedVegetation.leafBalance.
    cbn [fst snd].
    set (E := pos _ * _ * _ * _ * _ / _).
    unfold SimplifiedVegetation.rhoa_, SimplifiedVegetation.cpa_,
      SimplifiedVegetation.lambda_, Q2R.
    cbn [QArith_base.Qnum QArith_base.Qden].
    clearbody E. field. lra. }
  split; [done|].
  intros Hfix. rewrite Hfix in Hid. lra.
Qed.

Lemma X26_leaf_fluxes_balance_the_net_radiation_witness :
  let c := SimplifiedVegetation.mkCell 2 300 0.01 100 0 50 200 in
  let fl := SimplifiedVegetation.finalFluxes 2 c 300 in
  SimplifiedVegetation.Rn c - fl.2 - fl.1.2
  = 2.0 * SimplifiedVegetation.rhoa_ * SimplifiedVegetation.cpa_
    * 2 / 50
    * (SimplifiedVegetation.leafBalance 2 c 300 - 300).
Proof.
  cbv zeta.
  apply (X26_leaf_fluxes_balance_the_net_radiation 2
           (SimplifiedVegetation.mkCell 2 300 0.01 100 0 50 200) 300);
    simpl; lra.
Defined.
(** ** simpleGrass: the grass patches and the source terms *)

Section GrassPatches.
Import SimpleGrass.

Variable boundaryMesh : list string.

Lemma findPatchIDFrom_spec (i : nat) (bm : list string) (name : string) :
  (findPatchIDFrom i bm name = (-1)%Z /\ name ∉ bm)
  \/ (exists k, findPatchIDFrom i bm name = Z.of_nat (i + k)
                /\ bm !! k = Some name).
Proof.
  revert i. induction bm as [|p bm IH]; intros i; simpl.
  - left. split; [done|]. intros H. inversion H.
  - destruct (String.eqb p name) eqn:E.
    + apply String.eqb_eq in E. subst p. right. exists 0%nat.
      rewrite Nat.add_0_r. done.
    + apply String.eqb_neq in E.
      destruct (IH (S i)) as [[H1 H2]|(k & H1 & H2)].
      * left. split; [done|]. intros H. apply elem_of_cons in H.
        destruct H as [->|H]; [done|]. by apply H2.
      * right. exists (S k). split; [|done]. rewrite H1. f_equal. lia.
Qed.

Lemma initialiseStep_fatal (names : list string) (m : string) :
  fold_left (initialiseStep boundaryMesh) names (Fatal m) = Fatal m.
Proof. induction names as [|name names IH]; [done|]. simpl. apply IH. Qed.

(** The loop from a state in which [filled] has been written. *)
Lemma initialise_fold (names : list string) :
  forall filled rest : labelList,
    (length names <= length rest)%nat ->
    fold_left (initialiseStep boundaryMesh) names
      (Ok (filled ++ rest, length filled))
    = match find (fun name => Z.ltb (findPatchID boundaryMesh name) 0)
              names with
      | Some name => Fatal (msgNotFound name)
      | None =>
          Ok ((filled ++ map (findPatchID boundaryMesh) names)
                ++ drop (length names) rest,
              (length filled + length names)%nat)
      end.
Proof.
  induction names as [|name names IH]; intros filled rest Hlen.
  - simpl. rewrite app_nil_r, Nat.add_0_r, drop_0. done.
  - destruct rest as [|r rest]; simpl in Hlen; [lia|].
    cbn [fold_left find]. unfold initialiseStep at 2.
    destruct (Z.ltb (findPatchID boundaryMesh name) 0) eqn:E.
    + apply initialiseStep_fatal.
    + replace (Nat.ltb (length filled) (length (filled ++ r :: rest)))
        with true
        by (symmetry; apply Nat.ltb_lt; rewrite length_app; simpl; lia).
      rewrite insert_app_r_alt by lia. rewrite Nat.sub_diag. simpl.
      replace (S (length filled))
        with (length (filled ++ [findPatchID boundaryMesh name]))
        by (rewrite length_app; simpl; lia).
      rewrite (app_assoc filled [_] rest : filled ++ _ :: rest = _).
      rewrite IH by lia.
      destruct (find _ names); [done|].
      rewrite <- !app_assoc, length_app. simpl.
      do 2 f_equal. lia.
Qed.

End GrassPatches.

(** X27.  [simpleGrass::initialise]: with no more grass patch names than
    the mesh has patches, the loop over the names ends in the fatal
    error "Grass patch named ... not found." for the first name that
    [findPatchID] does not find, and otherwise leaves in
    [selectedPatches_] the patch indices of the names, in the order of
    the names.  [findPatchID] gives -1 for a name that no patch has, and
    otherwise the index of a patch with that name. *)
Theorem X27_grass_patches_are_found_or_reported
  (boundaryMesh grassPatches : list string) :
  (length grassPatches <= length boundaryMesh)%nat ->
  SimpleGrass.initialise boundaryMesh grassPatches
  = match find (fun name =>
                  Z.ltb (SimpleGrass.findPatchID boundaryMesh name) 0)
            grassPatches with
    | Some name => Fatal (SimpleGrass.msgNotFound name)
    | None => Ok (map (SimpleGrass.findPatchID boundaryMesh) grassPatches)
    end
  /\ forall name,
       (SimpleGrass.findPatchID boundaryMesh name = (-1)%Z
        /\ name ∉ boundaryMesh)
       \/ (exists k, SimpleGrass.findPatchID boundaryMesh name
                     = Z.of_nat k
                     /\ boundaryMesh !! k = Some name).
Proof.
  intros Hlen. split.
  - unfold SimpleGrass.initialise.
    pose proof (initialise_fold boundaryMesh grassPatches []
                  (replicate (length boundaryMesh) (-1)%Z)) as Hfold.
    cbn [app length] in Hfold. rewrite Hfold
      by (by rewrite length_replicate).
    destruct (find _ grassPatches); [done|].
    cbn [app length Nat.add]. f_equal.
    rewrite take_app_le by (by rewrite length_map).
    apply take_ge. by rewrite length_map.
  - intros name. apply (findPatchIDFrom_spec 0).
Qed.

Lemma X27_grass_patches_are_found_or_reported_witness :
  SimpleGrass.initialise ["inlet"; "lawn"; "wall"; "park"]%string
    ["park"; "lawn"]%string
  = Ok [3; 1]%Z
  /\ SimpleGrass.initialise ["inlet"; "lawn"; "wall"; "park"]%string
       ["park"; "roof"; "lawn"]%string
     = Fatal "Grass patch named roof not found.".
Proof.
  split.
  - rewrite (proj1 (X27_grass_patches_are_found_or_reported
                      ["inlet"; "lawn"; "wall"; "park"]%string
                      ["park"; "lawn"]%string ltac:(simpl; lia))).
    reflexivity.
  - rewrite (proj1 (X27_grass_patches_are_found_or_reported
                      ["inlet"; "lawn"; "wall"; "park"]%string
                      ["park"; "roof"; "lawn"]%string ltac:(simpl; lia))).
    reflexivity.
Defined.

Section GrassSources.
Import SimpleGrass.

Lemma aerodynamicResistance_nonzero (pr : properties) (magUc : R) :
  ra pr <> 0 -> aerodynamicResistance pr magUc <> 0.
Proof.
  intros Hra. unfold aerodynamicResistance.
  destruct (Rltb (ra pr) 0); [|done].
  assert (0 < Rpower (l_ pr / Rmax magUc SMALL) 0.5) by apply exp_pos.
  unfold C_, Q2R in *. cbn [QArith_base.Qnum QArith_base.Qden] in *. nra.
Qed.

Lemma h_ch_nonzero (pr : properties) (pf : patchFace) :
  ra pr <> 0 -> h_ch (faceOf pr pf) <> 0.
Proof.
  intros Hra. unfold faceOf. cbn [h_ch].
  pose proof (aerodynamicResistance_nonzero pr (face_magUc pf) Hra) as H.
  set (r := aerodynamicResistance pr (face_magUc pf)) in *.
  assert (Hinv : / r <> 0) by (by apply Rinv_neq_0_compat).
  unfold Rdiv, rhoa, cpa, Q2R. cbn [QArith_base.Qnum QArith_base.Qden].
  intros Hz. apply Rmult_integral in Hz. destruct Hz as [Hz|Hz]; [lra|done].
Qed.

End GrassSources.

(** X28.  [simpleGrass::calculate], the fields written under "update
    fields": for a given aerodynamic resistance other than zero (or a
    computed one), a leaf area index and a face distance coefficient
    other than zero, the sensible heat source [Sh] and the latent heat
    of the moisture source [Sw], both taken over the layer of height
    [2/deltaCoeffs], add up to the radiation absorbed by the grass
    ([qr + 6*(Ts-Tg) + Qs_abs]) less [h_ch*LAI] times the change that
    one more evaluation of the energy balance would make to the grass
    temperature.  [Tg] and [E] are those of the same pass, as they are
    when the loop is left by its convergence test. *)
Theorem X28_grass_sources_balance_the_absorbed_radiation
  (pr : SimpleGrass.properties) (pf : SimpleGrass.patchFace) (Tg : R) :
  SimpleGrass.ra pr <> 0 -> SimpleGrass.LAI_ pr <> 0 ->
  SimpleGrass.face_deltaCoeffs pf <> 0 ->
  let f := SimpleGrass.faceOf pr pf in
  let E := SimpleGrass.transpiration (SimpleGrass.nEvapSides_ pr) f Tg in
  let st := SimpleGrass.sourceTerms pr f (SimpleGrass.face_deltaCoeffs pf)
              Tg E in
  let Sh := st.1.1 in
  let Sw := st.1.2 in
  let height := 2 / SimpleGrass.face_deltaCoeffs pf in
  Sh * height + SimpleGrass.lambda * Sw * height
  = SimpleGrass.qr f + 6 * (SimpleGrass.Ts f - Tg) + SimpleGrass.Qs_abs f
    - SimpleGrass.h_ch f * SimpleGrass.LAI_ pr
      * (SimpleGrass.grassBalance (SimpleGrass.nEvapSides_ pr)
           (SimpleGrass.LAI_ pr) f Tg - Tg).
Proof.
  intros Hra HLAI Hdc f E st Sh Sw height.
  pose proof (h_ch_nonzero pr pf Hra) as Hh. fold f in Hh.
  unfold Sh, Sw, st, height, SimpleGrass.sourceTerms,
    SimpleGrass.grassBalance.
  cbn [fst snd]. fold (SimpleGrass.transpiration
                         (SimpleGrass.nEvapSides_ pr) f Tg).
  fold E. clearbody E f. unfold SimpleGrass.lambda. field. done.
Qed.

Lemma X28_grass_sources_balance_the_absorbed_radiation_witness :
  let pr := SimpleGrass.readCoeffs
              (SimpleGrass.mkDict None None None None None None None None)
  in
  let pf := SimpleGrass.mkPatchFace 300 0.01 2 295 50 400 10 in
  let f := SimpleGrass.faceOf pr pf in
  let st := SimpleGrass.sourceTerms pr f 10 300
              (SimpleGrass.transpiration 1 f 300) in
  st.1.1 * (2 / 10) + SimpleGrass.lambda * st.1.2 * (2 / 10)
  = SimpleGrass.qr f + 6 * (SimpleGrass.Ts f - 300) + SimpleGrass.Qs_abs f
    - SimpleGrass.h_ch f * 2.0
      * (SimpleGrass.grassBalance 1 2.0 f 300 - 300).
Proof.
  cbv zeta.
  apply (X28_grass_sources_balance_the_absorbed_radiation
           (SimpleGrass.readCoeffs
              (SimpleGrass.mkDict None None None None None None None None))
           (SimpleGrass.mkPatchFace 300 0.01 2 295 50 400 10) 300);
    simpl; unfold Q2R; cbn [QArith_base.Qnum QArith_base.Qden]; lra.
Defined.
(** ** The schedule of the vegetation and grass models *)

Section Schedule.
Import VegetationModel.

Lemma run_acc (ts : list Z) (m : model) (calls : list bool) :
  fold_left (fun '(m1, calls) t =>
               let '(m2, c) := correct m1 t in (m2, calls ++ [c]))
            ts (m, calls)
  = ((run m ts).1, calls ++ (run m ts).2).
Proof.
  unfold run. revert m calls.
  induction ts as [|t ts IH]; intros m calls.
  - simpl. by rewrite app_nil_r.
  - simpl. destruct (correct m t) as [m2 c].
    rewrite (IH m2 (calls ++ [c])), (IH m2 [c]).
    simpl. by rewrite <- app_assoc.
Qed.

Lemma run_cons (t : Z) (ts : list Z) (m : model) :
  run m (t :: ts)
  = ((run (correct m t).1 ts).1, (correct m t).2 :: (run (correct m t).1 ts).2).
Proof.
  unfold run at 1. simpl. destruct (correct m t) as [m2 c].
  by rewrite run_acc.
Qed.

Lemma run_inactive (ts : list Z) (m : model) :
  vegetation_ m = false -> (run m ts).2 = map (fun _ => false) ts.
Proof.
  intros Hv. induction ts as [|t ts IH]; [done|].
  rewrite run_cons. unfold correct. rewrite Hv. simpl. by rewrite IH.
Qed.

Lemma run_later (ts : list Z) (v : bool) (f : Z) :
  (run (mkModel true f false) ts).2
  = map (fun t => Z.eqb (Z.rem t f) 0) ts.
Proof.
  induction ts as [|t ts IH]; [done|].
  rewrite run_cons. unfold correct. simpl.
  destruct (Z.eqb (Z.rem t f) 0); simpl; by rewrite IH.
Qed.

Lemma construct_cases (headerOk : bool) (vegetation : option bool)
  (solverFreq : option Z) :
  let m := construct headerOk vegetation solverFreq in
  firstIter_ m = true
  /\ (vegetation_ m = true ->
      solverFreq_ m = Z.max 1 (lookupOrDefault solverFreq 1%Z)).
Proof.
  unfold construct, initialise.
  destruct headerOk, vegetation as [[|]|]; simpl; by split.
Qed.

End Schedule.

(** X29.  [vegetationModel::correct] and [grassModel::correct], for a
    model made by the constructor with a model type: an active model
    has a solver frequency of at least 1 whatever the dictionary says,
    calculates at its first call at any time index and afterwards
    exactly at the calls whose time index is a multiple of the solver
    frequency; a model that is not active (no properties dictionary, or
    the switch set to false) never calculates. *)
Theorem X29_models_calculate_first_and_then_on_schedule
  (headerOk : bool) (vegetation : option bool) (solverFreq : option Z)
  (timeIndices : list Z) :
  let m := VegetationModel.construct headerOk vegetation solverFreq in
  (VegetationModel.vegetation_ m
   = headerOk && lookupOrDefault vegetation true)
  /\ (VegetationModel.run m timeIndices).2
     = (if VegetationModel.vegetation_ m
        then match timeIndices with
             | [] => []
             | _ :: later =>
                 true
                 :: map (fun t =>
                           Z.eqb (Z.rem t (VegetationModel.solverFreq_ m))
                                 0)
                      later
             end
        else map (fun _ => false) timeIndices)
  /\ (if VegetationModel.vegetation_ m
      then (1 <= VegetationModel.solverFreq_ m)%Z
           /\ VegetationModel.solverFreq_ m
              = Z.max 1 (lookupOrDefault solverFreq 1%Z)
      else True).
Proof.
  intros m.
  destruct (construct_cases headerOk vegetation solverFreq)
    as [Hfirst Hfreq].
  fold m in Hfirst, Hfreq.
  split; [|split].
  - unfold m, VegetationModel.construct, VegetationModel.initialise.
    destruct headerOk, vegetation as [[|]|]; done.
  - destruct (VegetationModel.vegetation_ m) eqn:Hv.
    + destruct timeIndices as [|t later]; [done|].
      rewrite run_cons. unfold VegetationModel.correct at 2.
      rewrite Hv, Hfirst. cbn [negb orb snd]. f_equal.
      unfold VegetationModel.correct. rewrite Hv, Hfirst.
      cbn [negb orb fst]. by apply run_later.
    + by apply run_inactive.
  - destruct (VegetationModel.vegetation_ m) eqn:Hv; [|done].
    rewrite Hfreq by done. split; [lia|done].
Qed.

(** ** The short-wave flux on a solid under grass *)

(** X30.  [simpleGrass::calculate] and the "grass adjustments" of
    [CFDHAMsolidTemperatureCoupledMixed::updateCoeffs], both reading the
    coefficients of the grass model: when [albedoSoil] is given there,
    the short-wave flux absorbed by the grass and the flux passed on to
    the solid under it add up to the incoming flux [qs]; when it is not
    given, the grass model takes 0.2366 and the boundary condition 0,
    and the two fluxes add up to
    [qs * (1 + 0.2366 * exp(-beta*LAI))]. *)
Theorem X30_grass_and_soil_share_the_shortwave_flux
  (coeffs : SimpleGrass.dictionary) (TgNbr Tp qs : R) :
  let pr := SimpleGrass.readCoeffs coeffs in
  SimpleGrass.absorbedShortWave pr qs
  + (CFDHAMsolidTemperatureCoupledMixed.grassAdjustments coeffs TgNbr Tp
       qs).2
  = match SimpleGrass.dict_albedoSoil coeffs with
    | Some _ => qs
    | None =>
        qs * (1 + 0.2366 * exp (- SimpleGrass.beta_ pr
                                * SimpleGrass.LAI_ pr))
    end.
Proof.
  intros pr. unfold pr, SimpleGrass.absorbedShortWave,
    CFDHAMsolidTemperatureCoupledMixed.grassAdjustments,
    SimpleGrass.readCoeffs.
  cbn [snd SimpleGrass.beta_ SimpleGrass.LAI_ SimpleGrass.albedoSoil_].
  destruct (SimpleGrass.dict_albedoSoil coeffs) as [a|];
    cbn [lookupOrDefault];
    set (e := exp _).
  - ring.
  - unfold Q2R. cbn [QArith_base.Qnum QArith_base.Qden]. field.
Qed.
(** ** The embedding at work on small inputs *)

Section Evaluation.

Example smoothRow_normalises :
  DirectAndDiffuse.smoothRow [0.25; 0.25] = [0.5; 0.5]
  /\ sumList (ViewFactorSky.smoothRow [0.25; 0.25]) = 1001 / 1002.
Proof.
  unfold DirectAndDiffuse.smoothRow, ViewFactorSky.smoothRow, sumList.
  simpl. split.
  - f_equal; [|f_equal]; decimals; field.
  - decimals. field.
Qed.

Example findRange_between_stamps :
  DirectAndDiffuse.findRange 1800 [0; 3600; 7200] = (0%nat, 1%nat)
  /\ DirectAndDiffuse.hi_fraction 1800 [0; 3600; 7200] = 0.5.
Proof.
  assert (H : DirectAndDiffuse.findRange 1800 [0; 3600; 7200]
              = (0%nat, 1%nat)).
  { unfold DirectAndDiffuse.findRange. simpl.
    unfold Rgeb, Rleb. decide_cmp. done. }
  split; [done|].
  unfold DirectAndDiffuse.hi_fraction. rewrite H. simpl.
  decimals. field.
Qed.

Example findRange_outside_table :
  DirectAndDiffuse.findRange (-5) [0; 3600; 7200] = (0%nat, 0%nat)
  /\ DirectAndDiffuse.findRange 9000 [0; 3600; 7200]
     = (2%nat, 2%nat).
Proof.
  unfold DirectAndDiffuse.findRange. simpl.
  unfold Rgeb, Rleb. split; decide_cmp; done.
Qed.

Example integrateLAD_column :
  CalcLAI.integrateLAD true [0; 2; 2; 0] 1 1 4 (mkVector 1 1 0.5) []
  = [2; 1.5; 0.5; 0].
Proof.
  cbn. repeat (f_equal; try lra).
Qed.

Example integrateLAD_not_master :
  CalcLAI.integrateLAD false [0; 2; 2; 0] 1 1 4 (mkVector 1 1 0.5) [] = [].
Proof. reflexivity. Qed.

Example boundTemperature_values :
  SimplifiedVegetation.boundTemperature 450 = (400, true)
  /\ SimplifiedVegetation.boundTemperature 100 = (250, true)
  /\ SimplifiedVegetation.boundTemperature 300 = (300, false).
Proof.
  unfold SimplifiedVegetation.boundTemperature, Rgtb, Rltb,
    SimplifiedVegetation.Tl_min, SimplifiedVegetation.Tl_max, Rmax, Rmin.
  repeat split; decide_cmp; simpl; try done; f_equal; lra.
Qed.

(** A first update in a one-process run that finds no cache file
    decomposes and prints so. *)
Example serial_first_update_decomposes :
  let w := mkWorld ∅ [] in
  let r := ViewFactorSky.calculate demoLU true 1 true 2 "case"
             1 [1; 1] [0.9; 0.8] [0; 0] [[0; 1]; [1; 0]]
             (mkState [] [] 0) w in
  decomposes w r.2
  /\ info r.2 = ["Decomposing C matrix..."; "LU Back substitute C matrix.."]
  /\ files r.2 = ∅.
Proof.
  unfold decomposes, newLines. cbn.
  split; [by left|]. split; reflexivity.
Qed.

(** In a run with four processes the same update writes the file. *)
Example parallel_first_update_writes :
  let w := mkWorld ∅ [] in
  let r := ViewFactorSky.calculate demoLU true 4 true 2 "case"
             1 [1; 1] [0.9; 0.8] [0; 0] [[0; 1]; [1; 0]]
             (mkState [] [] 0) w in
  exists f, files r.2 !! "case/processor0/CLU_qr" = Some f
            /\ storedN f = 2%Z.
Proof.
  cbn. eexists. split; [apply lookup_insert_eq | reflexivity].
Qed.

(** The face walk: patch 1 is selected, patch 0 has two faces and
    patch 1 three; the faces reached get the global indices 2, 3, 4. *)
Example face_walk_indices :
  map (fun s => (CalcLAI.wk s, CalcLAI.wfaceNo s))
      (walkVisits [2%nat; 3%nat] [] [] [] [1%nat]
         (CalcLAI.mkWalk 0 0 0 0 0 [] [] []))
  = [(2, 0); (3, 1); (4, 2)]%nat.
Proof. reflexivity. Qed.

End Evaluation.
